(** * SCORM 2004 sequencing engine: a shallow embedding of
      [src/lib/scorm-sequencing-correct.ts] and the properties of its
      navigation, flow, delivery and rollup processes. *)

From Stdlib Require Import QArith.
From stdpp Require Import gmap strings list functions.

Set Warnings "-register-all".
Local Open Scope string_scope.
Local Open Scope nat_scope.

(** ** Manifest model ([types/scorm]) *)

Inductive ConditionCombination := CombAll | CombAny.
Inductive ConditionOperator := OpNot | OpNoOp.

Record SCORMRuleCondition := {
  condition : string;
  operator : option ConditionOperator;
  measureThreshold : option Q;
  referenceObjective : option string;
}.

Record SCORMRule := {
  conditionCombination : ConditionCombination;
  action : string;
  ruleConditions : list SCORMRuleCondition;
}.

Record SCORMSequencingRules := {
  preConditionRule : option (list SCORMRule);
  exitConditionRule : option (list SCORMRule);
  postConditionRule : option (list SCORMRule);
}.

Record SCORMControlMode := {
  choice : option bool;
  choiceExit : option bool;
  flow : option bool;
  forwardOnly : option bool;
  useCurrentAttemptObjectiveInfo : option bool;
  useCurrentAttemptProgressInfo : option bool;
}.

(** Only the limit conditions the engine reads are kept. *)
Record SCORMLimitConditions := {
  attemptLimit : option Q;
  activityAbsoluteDurationLimit : option string;
  beginTimeLimit : option string;
  endTimeLimit : option string;
}.

Record SCORMRollupRule := {
  objectiveRollup : option bool;
  measureRollup : option bool;
  rollup_action : string;
  rollup_conditionCombination : ConditionCombination;
  conditions : list SCORMRuleCondition;
}.

Record SCORMRollupRules := {
  rollupRule : option (list SCORMRollupRule);
}.

Record SCORMSequencing := {
  controlMode : option SCORMControlMode;
  sequencingRules : option SCORMSequencingRules;
  limitConditions : option SCORMLimitConditions;
  rollupRules : option SCORMRollupRules;
}.

Inductive SCORMItem := mkItem {
  item_identifier : string;
  item_title : string;
  identifierref : option string;
  isvisible : option bool;
  item_item : option (list SCORMItem);
  sequencing : option SCORMSequencing;
}.

Record SCORMOrganization := {
  org_identifier : string;
  org_title : string;
  items : list SCORMItem;
}.

Record SCORMManifest := {
  organizations : list SCORMOrganization;
}.

(** ** Activity tree *)

(** The immutable part of an [Activity] object.  [item = None] is the
    placeholder [{}] that [createActivity] installs; the [parent]
    back-reference is not stored: an activity is addressed by its position
    in the tree (see [ActivityRef]). *)
Inductive Activity := mkActivity {
  identifier : string;
  item : option SCORMItem;
  children : list Activity;
  isLeaf : bool;
  isRoot : bool;
  depth : nat;
  sequencingDefinition : option SCORMSequencing;
}.

(** Object identity of an activity: the child indices leading to it,
    innermost first.  [[]] is the root and [i :: p] the [i]-th child of [p],
    so that the [parent] field is the tail. *)
Definition ActivityRef := list nat.

Definition parent (r : ActivityRef) : option ActivityRef :=
  match r with
  | [] => None
  | _ :: p => Some p
  end.

Fixpoint resolve (a : Activity) (path : list nat) : option Activity :=
  match path with
  | [] => Some a
  | i :: rest =>
      match children a !! i with
      | Some c => resolve c rest
      | None => None
      end
  end.

Definition deref (tree : Activity) (r : ActivityRef) : option Activity :=
  resolve tree (rev r).

Record ObjectiveState := {
  objectiveProgressStatus : bool;
  objectiveSatisfiedStatus : bool;
  objectiveMeasureStatus : bool;
  objectiveNormalizedMeasure : Q;
}.

Record ActivityStateInformation := {
  activityIsActive : bool;
  activityIsSuspended : bool;
  activityProgressStatus : bool;
  activityCompletionStatus : bool;
  activityAbsoluteDuration : Q;
  activityExperiencedDuration : Q;
  attemptProgressStatus : bool;
  attemptCompletionStatus : bool;
  attemptAbsoluteDuration : Q;
  attemptExperiencedDuration : Q;
  attemptCompletionAmount : Q;
  objectives : gmap string ObjectiveState;
  suspendedActivity : option ActivityRef;
}.

Definition initializeActivityState : ActivityStateInformation := {|
  activityIsActive := false;
  activityIsSuspended := false;
  activityProgressStatus := false;
  activityCompletionStatus := false;
  activityAbsoluteDuration := 0;
  activityExperiencedDuration := 0;
  attemptProgressStatus := false;
  attemptCompletionStatus := false;
  attemptAbsoluteDuration := 0;
  attemptExperiencedDuration := 0;
  attemptCompletionAmount := 0;
  objectives := ∅;
  suspendedActivity := None;
|}.

(** Field assignments on the state record. *)
Definition set_activityIsActive (b : bool) (st : ActivityStateInformation) :=
  {| activityIsActive := b;
     activityIsSuspended := activityIsSuspended st;
     activityProgressStatus := activityProgressStatus st;
     activityCompletionStatus := activityCompletionStatus st;
     activityAbsoluteDuration := activityAbsoluteDuration st;
     activityExperiencedDuration := activityExperiencedDuration st;
     attemptProgressStatus := attemptProgressStatus st;
     attemptCompletionStatus := attemptCompletionStatus st;
     attemptAbsoluteDuration := attemptAbsoluteDuration st;
     attemptExperiencedDuration := attemptExperiencedDuration st;
     attemptCompletionAmount := attemptCompletionAmount st;
     objectives := objectives st;
     suspendedActivity := suspendedActivity st |}.

(** [activityProgressStatus = true; activityCompletionStatus = c], the
    pair of assignments every completion-setting branch performs. *)
Definition set_completion (c : bool) (st : ActivityStateInformation) :=
  {| activityIsActive := activityIsActive st;
     activityIsSuspended := activityIsSuspended st;
     activityProgressStatus := true;
     activityCompletionStatus := c;
     activityAbsoluteDuration := activityAbsoluteDuration st;
     activityExperiencedDuration := activityExperiencedDuration st;
     attemptProgressStatus := attemptProgressStatus st;
     attemptCompletionStatus := attemptCompletionStatus st;
     attemptAbsoluteDuration := attemptAbsoluteDuration st;
     attemptExperiencedDuration := attemptExperiencedDuration st;
     attemptCompletionAmount := attemptCompletionAmount st;
     objectives := objectives st;
     suspendedActivity := suspendedActivity st |}.

Definition set_objectives (o : gmap string ObjectiveState)
    (st : ActivityStateInformation) :=
  {| activityIsActive := activityIsActive st;
     activityIsSuspended := activityIsSuspended st;
     activityProgressStatus := activityProgressStatus st;
     activityCompletionStatus := activityCompletionStatus st;
     activityAbsoluteDuration := activityAbsoluteDuration st;
     activityExperiencedDuration := activityExperiencedDuration st;
     attemptProgressStatus := attemptProgressStatus st;
     attemptCompletionStatus := attemptCompletionStatus st;
     attemptAbsoluteDuration := attemptAbsoluteDuration st;
     attemptExperiencedDuration := attemptExperiencedDuration st;
     attemptCompletionAmount := attemptCompletionAmount st;
     objectives := o;
     suspendedActivity := suspendedActivity st |}.

(** The heap of [activityStateInformation] objects, one per activity. *)
Definition ActivityStates := ActivityRef → ActivityStateInformation.

Record SequencingSession := {
  activityTree : Activity;
  activityStateInformation : ActivityStates;
  currentActivity : option ActivityRef;
  sequencingSession : gmap string string;
  globalObjectives : gmap string ObjectiveState;
}.

Record SCORMSequencingEngine := {
  manifest : SCORMManifest;
  session : SequencingSession;
  endSession : bool;
}.

(** *** Building the tree *)

Definition createActivity (identifier : string) (parentIsNull : bool)
    (isLeaf : bool) (depth : nat) : Activity :=
  {| identifier := identifier;
     item := None;
     children := [];
     isLeaf := isLeaf;
     isRoot := parentIsNull;
     depth := depth;
     sequencingDefinition := None |}.

(** JavaScript truthiness of an optional string and of an optional array. *)
Definition truthy_string (s : option string) : bool :=
  match s with
  | Some s => negb (String.eqb s "")
  | None => false
  end.

Definition has_items (l : option (list SCORMItem)) : bool :=
  match l with
  | Some (_ :: _) => true
  | _ => false
  end.

(** Body of the loop of [buildActivityChildren] for one item. *)
Fixpoint buildActivityChild (depth : nat) (it : SCORMItem) : Activity :=
  let activity :=
    createActivity (item_identifier it) false (negb (has_items (item_item it))) depth in
  {| identifier := identifier activity;
     item := Some it;
     children :=
       match item_item it with
       | Some sub => map (buildActivityChild (S depth)) sub
       | None => children activity
       end;
     isLeaf := isLeaf activity;
     isRoot := isRoot activity;
     depth := depth;
     sequencingDefinition := sequencing it |}.

Definition buildActivityChildren (items : list SCORMItem) (depth : nat)
    : list Activity :=
  map (buildActivityChild depth) items.

(** [None] is the thrown [Error("No organizations found in manifest")].
    The root is created by [createActivity(org.identifier, null, true, 0)]:
    its [isLeaf] argument is [true], and its [item] stays the placeholder. *)
Definition buildActivityTree (m : SCORMManifest) : option Activity :=
  match organizations m with
  | [] => None
  | org :: _ =>
      let rootActivity := createActivity (org_identifier org) true true 0 in
      Some {| identifier := identifier rootActivity;
              item := item rootActivity;
              children := buildActivityChildren (items org) 1;
              isLeaf := isLeaf rootActivity;
              isRoot := isRoot rootActivity;
              depth := 0;
              sequencingDefinition := sequencingDefinition rootActivity |}
  end.

Definition newEngine (m : SCORMManifest) : option SCORMSequencingEngine :=
  match buildActivityTree m with
  | None => None
  | Some tree =>
      Some {| manifest := m;
              session := {| activityTree := tree;
                            activityStateInformation := fun _ => initializeActivityState;
                            currentActivity := None;
                            sequencingSession := ∅;
                            globalObjectives := ∅ |};
              endSession := false |}
  end.

(** ** The engine *)

(** Wall-clock readings.  Reading the clock is an effect: every
    [new Date()] takes the next reading, which may differ from the one
    before.  [readings clk n] is the value of the [n]-th reading still to
    come and [dateValue s] the time value of [new Date(s)], [None] for an
    invalid date (whose comparisons are all false).  A function that may
    read the clock returns, with its result, the clock it leaves. *)
Record Clock := {
  readings : nat → Z;
  dateValue : string → option Z;
}.

(** [new Date()]: the next reading and the clock after it. *)
Definition newDate (clk : Clock) : Z * Clock :=
  (readings clk 0,
   {| readings := fun n => readings clk (S n); dateValue := dateValue clk |}).

(** A [for] loop whose body may read the clock: the results of the
    iterations in order. *)
Fixpoint forEach {A B : Type} (body : Clock → A → B * Clock) (clk : Clock)
    (l : list A) : list B * Clock :=
  match l with
  | [] => ([], clk)
  | x :: l =>
      let '(y, clk) := body clk x in
      let '(ys, clk) := forEach body clk l in
      (y :: ys, clk)
  end.

(** A [for] loop that returns [false] at the first iteration whose test
    fails, and [true] after the last. *)
Fixpoint forAll {A : Type} (test : Clock → A → bool * Clock) (clk : Clock)
    (l : list A) : bool * Clock :=
  match l with
  | [] => (true, clk)
  | x :: l =>
      let '(b, clk) := test clk x in
      if b then forAll test clk l else (false, clk)
  end.

Abbreviation Engine := SCORMSequencingEngine.

Definition tree (e : Engine) : Activity := activityTree (session e).

Definition stateOf (e : Engine) (r : ActivityRef) : ActivityStateInformation :=
  activityStateInformation (session e) r.

Definition sequencingDefinitionOf (e : Engine) (r : ActivityRef)
    : option SCORMSequencing :=
  deref (tree e) r ≫= sequencingDefinition.

(** Assignments to the engine's fields. *)
Definition set_states (f : ActivityStates → ActivityStates) (e : Engine) : Engine :=
  {| manifest := manifest e;
     session := {| activityTree := activityTree (session e);
                   activityStateInformation := f (activityStateInformation (session e));
                   currentActivity := currentActivity (session e);
                   sequencingSession := sequencingSession (session e);
                   globalObjectives := globalObjectives (session e) |};
     endSession := endSession e |}.

Definition updState (r : ActivityRef)
    (f : ActivityStateInformation → ActivityStateInformation) (e : Engine) : Engine :=
  set_states (fun sts => <[r := f (sts r)]> sts) e.

Definition set_currentActivity (r : ActivityRef) (e : Engine) : Engine :=
  {| manifest := manifest e;
     session := {| activityTree := activityTree (session e);
                   activityStateInformation := activityStateInformation (session e);
                   currentActivity := Some r;
                   sequencingSession := sequencingSession (session e);
                   globalObjectives := globalObjectives (session e) |};
     endSession := endSession e |}.

Definition set_endSession (b : bool) (e : Engine) : Engine :=
  {| manifest := manifest e; session := session e; endSession := b |}.

(** References to the children of [r], in order. *)
Definition childRefs (r : ActivityRef) (a : Activity) : list ActivityRef :=
  imap (fun i _ => i :: r) (children a).

(** [Array.prototype.findIndex]; [None] is [-1]. *)
Fixpoint findIndex {A : Type} (p : A → bool) (l : list A) : option nat :=
  match l with
  | [] => None
  | x :: l' => if p x then Some 0 else S <$> findIndex p l'
  end.

(** *** Objectives *)

Definition objectiveKey (objectiveId : option string) : string :=
  match objectiveId with
  | Some s => if String.eqb s "" then "_primary_" else s
  | None => "_primary_"
  end.

Definition getObjective (e : Engine) (r : ActivityRef)
    (objectiveId : option string) : option ObjectiveState :=
  objectives (stateOf e r) !! objectiveKey objectiveId.

Definition getObjectiveSatisfiedStatus (e : Engine) (r : ActivityRef)
    (objectiveId : option string) : bool :=
  match getObjective e r objectiveId with
  | Some o => objectiveSatisfiedStatus o
  | None => false
  end.

Definition getObjectiveProgressStatus (e : Engine) (r : ActivityRef)
    (objectiveId : option string) : bool :=
  match getObjective e r objectiveId with
  | Some o => objectiveProgressStatus o
  | None => false
  end.

Definition getObjectiveMeasure (e : Engine) (r : ActivityRef)
    (objectiveId : option string) : option Q :=
  match getObjective e r objectiveId with
  | Some o => if objectiveMeasureStatus o then Some (objectiveNormalizedMeasure o) else None
  | None => None
  end.

Definition newObjective : ObjectiveState :=
  {| objectiveProgressStatus := false;
     objectiveSatisfiedStatus := false;
     objectiveMeasureStatus := false;
     objectiveNormalizedMeasure := 0 |}.

(** [getOrCreateObjective] followed by the two assignments of
    [setObjectiveSatisfiedStatus]. *)
Definition setObjectiveSatisfiedStatus (r : ActivityRef) (satisfied : bool)
    (objectiveId : option string) (e : Engine) : Engine :=
  let id := objectiveKey objectiveId in
  updState r (fun st =>
    let objective := default newObjective (objectives st !! id) in
    set_objectives
      (<[id := {| objectiveProgressStatus := true;
                  objectiveSatisfiedStatus := satisfied;
                  objectiveMeasureStatus := objectiveMeasureStatus objective;
                  objectiveNormalizedMeasure := objectiveNormalizedMeasure objective |}]>
         (objectives st)) st) e.

(** *** Limit conditions *)

Definition getAttemptCount (e : Engine) (r : ActivityRef) : Q := 0.

Definition parseTimeLimit (timeLimit : string) : Q := 0.

Definition isAttemptLimitExceeded (e : Engine) (r : ActivityRef) : bool :=
  match (sequencingDefinitionOf e r ≫= limitConditions) ≫= attemptLimit with
  | None => false
  | Some attemptLimit =>
      if Qeq_bool attemptLimit 0 then false
      else Qle_bool attemptLimit (getAttemptCount e r)
  end.

Definition isTimeLimitExceeded (e : Engine) (r : ActivityRef) : bool :=
  let timeLimit :=
    (sequencingDefinitionOf e r ≫= limitConditions) ≫= activityAbsoluteDurationLimit in
  if negb (truthy_string timeLimit) then false
  else Qle_bool (parseTimeLimit (default "" timeLimit))
                (activityAbsoluteDuration (stateOf e r)).

Definition isOutsideAvailableTimeRange (clk : Clock) (e : Engine)
    (r : ActivityRef) : bool * Clock :=
  let beginTime := (sequencingDefinitionOf e r ≫= limitConditions) ≫= beginTimeLimit in
  let endTime := (sequencingDefinitionOf e r ≫= limitConditions) ≫= endTimeLimit in
  if negb (truthy_string beginTime) && negb (truthy_string endTime) then (false, clk)
  else
    let '(now, clk) := newDate clk in
    if truthy_string beginTime
       && match beginTime ≫= dateValue clk with
          | Some t => (now <? t)%Z
          | None => false
          end then (true, clk)
    else if truthy_string endTime
            && match endTime ≫= dateValue clk with
               | Some t => (t <? now)%Z
               | None => false
               end then (true, clk)
    else (false, clk).

(** *** Rule evaluation *)

Definition evaluateRuleCondition (clk : Clock) (e : Engine)
    (cond : SCORMRuleCondition) (r : ActivityRef) : bool * Clock :=
  let state := stateOf e r in
  let c := condition cond in
  let '(result, clk) :=
    if String.eqb c "satisfied" then
      (getObjectiveSatisfiedStatus e r (referenceObjective cond), clk)
    else if String.eqb c "objectiveStatusKnown" then
      (getObjectiveProgressStatus e r (referenceObjective cond), clk)
    else if String.eqb c "objectiveSatisfied" then
      (getObjectiveSatisfiedStatus e r (referenceObjective cond), clk)
    else if String.eqb c "objectiveMeasureKnown" then
      (bool_decide (is_Some (getObjectiveMeasure e r (referenceObjective cond))), clk)
    else if String.eqb c "objectiveMeasureGreaterThan" then
      (match getObjectiveMeasure e r (referenceObjective cond), measureThreshold cond with
       | Some measureGT, Some threshold => negb (Qle_bool measureGT threshold)
       | _, _ => false
       end, clk)
    else if String.eqb c "objectiveMeasureLessThan" then
      (match getObjectiveMeasure e r (referenceObjective cond), measureThreshold cond with
       | Some measureLT, Some threshold => negb (Qle_bool threshold measureLT)
       | _, _ => false
       end, clk)
    else if String.eqb c "completed" then
      (activityProgressStatus state && activityCompletionStatus state, clk)
    else if String.eqb c "activityProgressKnown" then
      (activityProgressStatus state, clk)
    else if String.eqb c "attempted" then
      (attemptProgressStatus state, clk)
    else if String.eqb c "attemptLimitExceeded" then
      (isAttemptLimitExceeded e r, clk)
    else if String.eqb c "timeLimitExceeded" then
      (isTimeLimitExceeded e r, clk)
    else if String.eqb c "outsideAvailableTimeRange" then
      isOutsideAvailableTimeRange clk e r
    else (false, clk) in
  (match operator cond with
   | Some OpNot => negb result
   | _ => result
   end, clk).

Definition combine (c : ConditionCombination) (results : list bool) : bool :=
  match c with
  | CombAll => forallb id results
  | CombAny => existsb id results
  end.

Definition evaluateSequencingRule (clk : Clock) (e : Engine) (rule : SCORMRule)
    (r : ActivityRef) : bool * Clock :=
  let '(conditionResults, clk) :=
    forEach (fun clk condition => evaluateRuleCondition clk e condition r)
            clk (ruleConditions rule) in
  (combine (conditionCombination rule) conditionResults, clk).

Definition checkPreConditions (clk : Clock) (e : Engine) (r : ActivityRef)
    : bool * Clock :=
  match (sequencingDefinitionOf e r ≫= sequencingRules) ≫= preConditionRule with
  | None => (true, clk)
  | Some rules => forAll (fun clk rule => evaluateSequencingRule clk e rule r) clk rules
  end.

Definition isActivityDeliverable (clk : Clock) (e : Engine) (r : ActivityRef)
    : bool * Clock :=
  match deref (tree e) r with
  | None => (false, clk)
  | Some activity =>
      if negb (isLeaf activity) then (false, clk)
      else if negb (truthy_string (item activity ≫= identifierref)) then (false, clk)
      else if bool_decide (item activity ≫= isvisible = Some false) then (false, clk)
      else checkPreConditions clk e r
  end.

(** *** Rule actions *)

Definition resetActivityState (r : ActivityRef) (e : Engine) : Engine :=
  updState r (fun _ => initializeActivityState) e.

Fixpoint resetActivityStateRecursive (activity : Activity) (r : ActivityRef)
    (e : Engine) : Engine :=
  let e := resetActivityState r e in
  (fix loop (cs : list Activity) (i : nat) (e : Engine) : Engine :=
     match cs with
     | [] => e
     | child :: cs' => loop cs' (S i) (resetActivityStateRecursive child (i :: r) e)
     end) (children activity) 0 e.

Definition resetAllActivityStates (e : Engine) : Engine :=
  resetActivityStateRecursive (tree e) [] e.

Definition executeRuleAction (action : string) (r : ActivityRef) (e : Engine) : Engine :=
  if String.eqb action "skip" then updState r (set_completion true) e
  else if String.eqb action "disabled" then e
  else if String.eqb action "hiddenFromChoice" then e
  else if String.eqb action "stopForwardTraversal" then e
  else if String.eqb action "exitParent" then e
  else if String.eqb action "exitAll" then set_endSession true e
  else if String.eqb action "retry" then resetActivityState r e
  else if String.eqb action "retryAll" then resetAllActivityStates e
  else e.

Inductive RuleEvent := EntryEvent | ExitEvent.

(** Body of the loop of [sequencingRulesCheckProcess] for one rule. *)
Definition checkRule (r : ActivityRef) (s : Engine * Clock) (rule : SCORMRule)
    : Engine * Clock :=
  let '(e, clk) := s in
  let '(ruleResult, clk) := evaluateSequencingRule clk e rule r in
  (if ruleResult then executeRuleAction (action rule) r e else e, clk).

Definition sequencingRulesCheckProcess (clk : Clock) (r : ActivityRef)
    (event : RuleEvent) (e : Engine) : Engine * Clock :=
  match sequencingDefinitionOf e r ≫= sequencingRules with
  | None => (e, clk)
  | Some rules =>
      let rulesToCheck :=
        match event with
        | EntryEvent => default [] (preConditionRule rules)
        | ExitEvent =>
            (default [] (exitConditionRule rules)
               ++ default [] (postConditionRule rules))%list
        end in
      fold_left (checkRule r) rulesToCheck (e, clk)
  end.

(** *** Rollup *)

Definition executeRollupAction (action : string) (r : ActivityRef) (e : Engine) : Engine :=
  if String.eqb action "satisfied" then setObjectiveSatisfiedStatus r true None e
  else if String.eqb action "notSatisfied" then setObjectiveSatisfiedStatus r false None e
  else if String.eqb action "completed" then updState r (set_completion true) e
  else if String.eqb action "incomplete" then updState r (set_completion false) e
  else e.

Definition applyRollupRule (clk : Clock) (rule : SCORMRollupRule)
    (r : ActivityRef) (activity : Activity) (e : Engine) : Engine * Clock :=
  let '(childResults, clk) :=
    forEach
      (fun clk child =>
         forEach (fun clk condition => evaluateRuleCondition clk e condition child)
                 clk (conditions rule))
      clk (childRefs r activity) in
  (if combine (rollup_conditionCombination rule) (concat childResults)
   then executeRollupAction (rollup_action rule) r e
   else e, clk).

Definition applyDefaultRollup (r : ActivityRef) (activity : Activity)
    (e : Engine) : Engine :=
  let allChildrenComplete :=
    forallb
      (fun child =>
         activityProgressStatus (stateOf e child)
         && activityCompletionStatus (stateOf e child))
      (childRefs r activity) in
  let e := if allChildrenComplete then updState r (set_completion true) e else e in
  let allChildrenSatisfied :=
    forallb (fun child => getObjectiveSatisfiedStatus e child None)
            (childRefs r activity) in
  if allChildrenSatisfied then setObjectiveSatisfiedStatus r true None e else e.

Definition rollupActivityState (clk : Clock) (r : ActivityRef) (e : Engine)
    : Engine * Clock :=
  match deref (tree e) r with
  | None => (e, clk)
  | Some activity =>
      if isLeaf activity then (e, clk)
      else
        match (sequencingDefinition activity ≫= rollupRules) ≫= rollupRule with
        | Some rules =>
            fold_left (fun '(e, clk) rule => applyRollupRule clk rule r activity e)
                      rules (e, clk)
        | None => (applyDefaultRollup r activity e, clk)
        end
  end.

(** The [while (currentActivity)] loop climbing the [parent] links. *)
Fixpoint rollupProcess (clk : Clock) (r : ActivityRef) (e : Engine)
    : Engine * Clock :=
  let '(e, clk) := rollupActivityState clk r e in
  match r with
  | [] => (e, clk)
  | _ :: p => rollupProcess clk p e
  end.

(** *** Control modes and sibling lookup *)

Definition isChoiceValid (e : Engine) (r : ActivityRef) : bool :=
  negb (bool_decide ((sequencingDefinitionOf e r ≫= controlMode) ≫= choice = Some false)).

Definition isContinueAllowed (e : Engine) (r : ActivityRef) : bool :=
  negb (bool_decide ((sequencingDefinitionOf e r ≫= controlMode) ≫= flow = Some false)).

Definition isPreviousAllowed (e : Engine) (r : ActivityRef) : bool :=
  negb (default false ((sequencingDefinitionOf e r ≫= controlMode) ≫= forwardOnly)).

Definition getFirstChild (e : Engine) (r : ActivityRef) : option ActivityRef :=
  match deref (tree e) r with
  | Some activity =>
      match children activity with
      | [] => None
      | _ :: _ => Some (0 :: r)
      end
  | None => None
  end.

(** Index of the current activity among its parent's children, by
    identifier, with the parent and the number of siblings; the common
    prefix of [getNextChild] and [getPreviousChild]. *)
Definition currentIndex (e : Engine) : option (ActivityRef * nat * option nat) :=
  match currentActivity (session e) with
  | None => None
  | Some cur =>
      match parent cur, deref (tree e) cur with
      | Some p, Some current =>
          match deref (tree e) p with
          | Some parentActivity =>
              let siblings := children parentActivity in
              Some (p, length siblings,
                    findIndex
                      (fun child => String.eqb (identifier child) (identifier current))
                      siblings)
          | None => None
          end
      | _, _ => None
      end
  end.

(** The [activity] argument is ignored, as in the source: the sibling is
    taken relative to [session.currentActivity]. *)
Definition getNextChild (e : Engine) (activity : ActivityRef) : option ActivityRef :=
  match currentIndex e with
  | Some (p, len, Some i) => if Nat.eqb (S i) len then None else Some (S i :: p)
  | _ => None
  end.

Definition getPreviousChild (e : Engine) (activity : ActivityRef) : option ActivityRef :=
  match currentIndex e with
  | Some (p, len, Some (S i)) => Some (i :: p)
  | _ => None
  end.

Fixpoint findActivityInTree (activity : Activity) (r : ActivityRef)
    (id : string) : option ActivityRef :=
  if String.eqb (identifier activity) id then Some r
  else
    (fix loop (cs : list Activity) (i : nat) : option ActivityRef :=
       match cs with
       | [] => None
       | child :: cs' =>
           match findActivityInTree child (i :: r) id with
           | Some found => Some found
           | None => loop cs' (S i)
           end
       end) (children activity) 0.

Definition findActivity (e : Engine) (id : string) : option ActivityRef :=
  findActivityInTree (tree e) [] id.

Fixpoint findSuspendedActivityIn (e : Engine) (activity : Activity)
    (r : ActivityRef) : option ActivityRef :=
  if activityIsSuspended (stateOf e r) then Some r
  else
    (fix loop (cs : list Activity) (i : nat) : option ActivityRef :=
       match cs with
       | [] => None
       | child :: cs' =>
           match findSuspendedActivityIn e child (i :: r) with
           | Some found => Some found
           | None => loop cs' (S i)
           end
       end) (children activity) 0.

Definition findSuspendedActivity (e : Engine) : option ActivityRef :=
  findSuspendedActivityIn e (tree e) [].

(** *** Flow *)

(** How a call ends: with a value, or with the [RangeError] of an
    exhausted call stack. *)
Inductive Completion (A : Type) :=
| Normal (a : A)
| StackOverflow.
Arguments Normal {A} a.
Arguments StackOverflow {A}.

(** [flowSubprocess]; [fuel] bounds the depth of its recursion. *)
Fixpoint flowSubprocess (clk : Clock) (e : Engine) (fuel : nat)
    (r : ActivityRef) (entry reverse : bool)
    : Completion (option ActivityRef) * Clock :=
  match fuel with
  | O => (StackOverflow, clk)
  | S fuel =>
      match deref (tree e) r with
      | None => (Normal None, clk)
      | Some activity =>
          let '(deliverable, clk) :=
            if isLeaf activity && entry then isActivityDeliverable clk e r
            else (false, clk) in
          if deliverable
          then (Normal (Some r), clk)
          else
            let flowOut :=
              match parent r with
              | Some p => flowSubprocess clk e fuel p false reverse
              | None => (Normal None, clk)
              end in
            if negb (isLeaf activity) then
              let targetChild :=
                if entry then getFirstChild e r
                else if reverse then getPreviousChild e r
                else getNextChild e r in
              match targetChild with
              | Some child => flowSubprocess clk e fuel child true reverse
              | None => flowOut
              end
            else flowOut
      end
  end.

(** *** Request processes *)

Record NavigationResult := {
  valid : bool;
  exception : option string;
}.

Definition validRequests : list string :=
  ["start"; "resumeAll"; "continue"; "previous"; "choice"; "exit"; "exitAll";
   "abandon"; "abandonAll"].

Definition includes (l : list string) (s : string) : bool :=
  existsb (String.eqb s) l.

Definition invalidRequest (msg : string) : NavigationResult :=
  {| valid := false; exception := Some msg |}.

Definition navigationRequestProcess (e : Engine) (request : string)
    (targetId : option string) : NavigationResult :=
  if negb (includes validRequests request) then
    invalidRequest "Invalid navigation request"
  else if endSession e then
    invalidRequest "Sequencing session has ended"
  else if String.eqb request "start" || String.eqb request "resumeAll" then
    if bool_decide (is_Some (currentActivity (session e)))
    then invalidRequest "Sequencing session already active"
    else {| valid := true; exception := None |}
  else if String.eqb request "continue" || String.eqb request "previous"
          || String.eqb request "exit" || String.eqb request "abandon" then
    if negb (bool_decide (is_Some (currentActivity (session e))))
    then invalidRequest "No current activity"
    else {| valid := true; exception := None |}
  else if String.eqb request "choice" then
    if negb (truthy_string targetId) then
      invalidRequest "Choice requires target activity"
    else
      match findActivity e (default "" targetId) with
      | None => invalidRequest "Target activity not found"
      | Some targetActivity =>
          if negb (isChoiceValid e targetActivity)
          then invalidRequest "Choice not valid for target activity"
          else {| valid := true; exception := None |}
      end
  else {| valid := true; exception := None |}.

Definition terminationRequestProcess (clk : Clock) (e : Engine) : Engine * Clock :=
  match currentActivity (session e) with
  | None => (e, clk)
  | Some cur =>
      let e := updState cur (set_activityIsActive false) e in
      let '(e, clk) := sequencingRulesCheckProcess clk cur ExitEvent e in
      rollupProcess clk cur e
  end.

Definition startSequencingRequestProcess (clk : Clock) (e : Engine) (fuel : nat)
    : Completion (option ActivityRef) * Clock :=
  let rootActivity : ActivityRef := [] in
  if negb (isChoiceValid e rootActivity) then (Normal None, clk)
  else flowSubprocess clk e fuel rootActivity true false.

Definition resumeAllSequencingRequestProcess (clk : Clock) (e : Engine) (fuel : nat)
    : Completion (option ActivityRef) * Clock :=
  match findSuspendedActivity e with
  | Some suspendedActivity => (Normal (Some suspendedActivity), clk)
  | None => startSequencingRequestProcess clk e fuel
  end.

Definition continueSequencingRequestProcess (clk : Clock) (e : Engine) (fuel : nat)
    : Completion (option ActivityRef) * Clock :=
  match currentActivity (session e) with
  | None => (Normal None, clk)
  | Some cur =>
      if negb (isContinueAllowed e cur) then (Normal None, clk)
      else flowSubprocess clk e fuel cur false false
  end.

Definition previousSequencingRequestProcess (clk : Clock) (e : Engine) (fuel : nat)
    : Completion (option ActivityRef) * Clock :=
  match currentActivity (session e) with
  | None => (Normal None, clk)
  | Some cur =>
      if negb (isPreviousAllowed e cur) then (Normal None, clk)
      else flowSubprocess clk e fuel cur false true
  end.

Definition choiceSequencingRequestProcess (clk : Clock) (e : Engine) (fuel : nat)
    (targetId : string) : Completion (option ActivityRef) * Clock :=
  match findActivity e targetId with
  | None => (Normal None, clk)
  | Some targetActivity =>
      if negb (isChoiceValid e targetActivity) then (Normal None, clk)
      else flowSubprocess clk e fuel targetActivity true false
  end.

(** Also assigns [endSession] when the current activity has no parent. *)
Definition exitSequencingRequestProcess (clk : Clock) (e : Engine) (fuel : nat)
    : Completion (option ActivityRef) * Engine * Clock :=
  match currentActivity (session e) with
  | None => (Normal None, e, clk)
  | Some cur =>
      match parent cur with
      | None => (Normal None, set_endSession true e, clk)
      | Some p =>
          let '(identifiedActivity, clk) := flowSubprocess clk e fuel p false false in
          (identifiedActivity, e, clk)
      end
  end.

Record SequencingResult := {
  seq_valid : bool;
  seq_activity : option ActivityRef;
  seq_exception : option string;
}.

(** The tail of [sequencingRequestProcess], after the [switch]. *)
Definition identified (identifiedActivity : Completion (option ActivityRef))
    (e : Engine) : Completion SequencingResult * Engine :=
  match identifiedActivity with
  | StackOverflow => (StackOverflow, e)
  | Normal (Some activity) =>
      (Normal {| seq_valid := true; seq_activity := Some activity;
                 seq_exception := None |}, e)
  | Normal None =>
      (Normal {| seq_valid := false; seq_activity := None;
                 seq_exception := Some "No activity identified" |},
       set_endSession true e)
  end.

(** [identified] applied to what a request-specific process returns. *)
Definition identifiedBy (res : Completion (option ActivityRef) * Clock) (e : Engine)
    : Completion SequencingResult * Engine * Clock :=
  let '(identifiedActivity, clk) := res in
  (identified identifiedActivity e, clk).

Definition sequencingRequestProcess (clk : Clock) (e : Engine) (fuel : nat)
    (request : string) (targetId : option string)
    : Completion SequencingResult * Engine * Clock :=
  let endAll :=
    (Normal {| seq_valid := true; seq_activity := None; seq_exception := None |},
     set_endSession true e, clk) in
  if String.eqb request "start" then
    identifiedBy (startSequencingRequestProcess clk e fuel) e
  else if String.eqb request "resumeAll" then
    identifiedBy (resumeAllSequencingRequestProcess clk e fuel) e
  else if String.eqb request "continue" then
    identifiedBy (continueSequencingRequestProcess clk e fuel) e
  else if String.eqb request "previous" then
    identifiedBy (previousSequencingRequestProcess clk e fuel) e
  else if String.eqb request "choice" then
    if truthy_string targetId
    then identifiedBy (choiceSequencingRequestProcess clk e fuel (default "" targetId)) e
    else (identified (Normal None) e, clk)
  else if String.eqb request "exit" then
    let '(identifiedActivity, e', clk) := exitSequencingRequestProcess clk e fuel in
    (identified identifiedActivity e', clk)
  else if String.eqb request "exitAll" then endAll
  else if String.eqb request "abandon" then
    identifiedBy (continueSequencingRequestProcess clk e fuel) e
  else if String.eqb request "abandonAll" then endAll
  else (identified (Normal None) e, clk).

Definition deliveryRequestProcess (clk : Clock) (activity : ActivityRef)
    (e : Engine) : option ActivityRef * Engine * Clock :=
  let '(deliverable, clk) := isActivityDeliverable clk e activity in
  if negb deliverable then (None, e, clk)
  else
    let e := set_currentActivity activity e in
    let e := updState activity (set_activityIsActive true) e in
    let '(e, clk) := sequencingRulesCheckProcess clk activity EntryEvent e in
    (Some activity, e, clk).

(** The clock a request is given holds the readings from the request on;
    what is left of it when the request returns is not passed on: the
    next request is given its own. *)
Definition overallSequencingProcess (clk : Clock) (fuel : nat)
    (navigationRequest : string) (targetActivityId : option string) (e : Engine)
    : Completion (option ActivityRef) * Engine :=
  let e := set_endSession false e in
  let navigationValid := navigationRequestProcess e navigationRequest targetActivityId in
  if negb (valid navigationValid) then (Normal None, e)
  else
    let '(e, clk) :=
      if bool_decide (is_Some (currentActivity (session e)))
      then terminationRequestProcess clk e
      else (e, clk) in
    match sequencingRequestProcess clk e fuel navigationRequest targetActivityId with
    | (StackOverflow, e, _) => (StackOverflow, e)
    | (Normal sequencingResult, e, clk) =>
        match seq_valid sequencingResult, seq_activity sequencingResult with
        | true, Some activity =>
            let '(deliveryRequest, e, _) := deliveryRequestProcess clk activity e in
            (Normal deliveryRequest, e)
        | _, _ => (Normal None, e)
        end
    end.

(** *** Public API *)

(** [activity?.identifier || null]. *)
Definition identifierOrNull (e : Engine) (activity : option ActivityRef)
    : option string :=
  match activity ≫= deref (tree e) with
  | Some a => if String.eqb (identifier a) "" then None else Some (identifier a)
  | None => None
  end.

Definition processNavigationRequest (clk : Clock) (fuel : nat) (request : string)
    (targetId : option string) (e : Engine) : Completion (option string) * Engine :=
  match overallSequencingProcess clk fuel request targetId e with
  | (Normal activity, e') => (Normal (identifierOrNull e' activity), e')
  | (StackOverflow, e') => (StackOverflow, e')
  end.

Definition startSequence (clk : Clock) (fuel : nat) (e : Engine)
    : Completion (option string) * Engine :=
  processNavigationRequest clk fuel "start" None e.

Definition getCurrentActivity (e : Engine) : option string :=
  identifier <$> (currentActivity (session e) ≫= deref (tree e)).

Definition getAvailableNavigationRequests (e : Engine) : list string :=
  match currentActivity (session e) with
  | None => []
  | Some activity =>
      ((if isContinueAllowed e activity then ["continue"] else [])
       ++ (if isPreviousAllowed e activity then ["previous"] else [])
       ++ (if isChoiceValid e activity then ["choice"] else [])
       ++ ["exit"; "exitAll"; "abandon"; "abandonAll"])%list
  end.

(** ** Notions used by the statements *)

(** The state transformers that every process other than delivery applies:
    none of them sets [activityIsActive]. *)
Inductive quiet : (ActivityStateInformation → ActivityStateInformation) → Prop :=
| quiet_inactive : quiet (set_activityIsActive false)
| quiet_completion c : quiet (set_completion c)
| quiet_reset : quiet (fun _ => initializeActivityState)
| quiet_objective id satisfied :
    quiet (fun st =>
      let objective := default newObjective (objectives st !! id) in
      set_objectives
        (<[id := {| objectiveProgressStatus := true;
                    objectiveSatisfiedStatus := satisfied;
                    objectiveMeasureStatus := objectiveMeasureStatus objective;
                    objectiveNormalizedMeasure := objectiveNormalizedMeasure objective |}]>
           (objectives st)) st).

(** Everything of the engine except the activity states and [endSession]. *)
Definition same_frame (e e' : Engine) : Prop :=
  manifest e' = manifest e
  ∧ activityTree (session e') = activityTree (session e)
  ∧ currentActivity (session e') = currentActivity (session e)
  ∧ sequencingSession (session e') = sequencingSession (session e)
  ∧ globalObjectives (session e') = globalObjectives (session e).

(** A call whose normal completions do not depend on the room left on the
    stack. *)
Definition mono_in_fuel {A B : Type} (f : nat → Completion A * B) : Prop :=
  ∀ n m x y, f n = (Normal x, y) → n ≤ m → f m = (Normal x, y).

(** At most one activity is active, and it is the current one. *)
Definition single_active (e : Engine) : Prop :=
  ∀ r, activityIsActive (stateOf e r) = true → currentActivity (session e) = Some r.

Definition none_active (e : Engine) : Prop :=
  ∀ r, activityIsActive (stateOf e r) = false.

(** A completion or satisfaction status is set only with its "known" flag. *)
Definition objectives_consistent (o : gmap string ObjectiveState) : Prop :=
  ∀ id ob, o !! id = Some ob →
           objectiveSatisfiedStatus ob = true → objectiveProgressStatus ob = true.

Definition status_consistent (st : ActivityStateInformation) : Prop :=
  (activityCompletionStatus st = true → activityProgressStatus st = true)
  ∧ objectives_consistent (objectives st).

Definition statuses_consistent (e : Engine) : Prop :=
  (∀ r, status_consistent (stateOf e r))
  ∧ objectives_consistent (globalObjectives (session e)).

(** Completion status known and complete. *)
Definition isComplete (e : Engine) (r : ActivityRef) : bool :=
  activityProgressStatus (stateOf e r) && activityCompletionStatus (stateOf e r).

(** The engine states a client can reach: a freshly constructed engine,
    then any sequence of navigation requests ([startSequence] is the request
    ["start"]; the two getters do not change the state).  A request that
    exhausts the stack leaves the state it had reached. *)
Inductive reachable (m : SCORMManifest) : Engine → Prop :=
| reachable_new e : newEngine m = Some e → reachable m e
| reachable_request clk fuel request targetId e :
    reachable m e →
    reachable m (snd (overallSequencingProcess clk fuel request targetId e)).

(** ** Example manifests *)

Module Examples.

Definition clock0 : Clock := {| readings := fun _ => 0%Z; dateValue := fun _ => None |}.

Definition leafItem (id ref : string) (sq : option SCORMSequencing) : SCORMItem :=
  mkItem id id (Some ref) None None sq.

Definition clusterItem (id : string) (sub : list SCORMItem)
    (sq : option SCORMSequencing) : SCORMItem :=
  mkItem id id None None (Some sub) sq.

Definition manifestOf (l : list SCORMItem) : SCORMManifest :=
  {| organizations := [ {| org_identifier := "ORG"; org_title := "Course"; items := l |} ] |}.

(** root → [A, B], no sequencing definitions. *)
Definition twoLeaves : SCORMManifest :=
  manifestOf [leafItem "A" "res_a" None; leafItem "B" "res_b" None].

Definition rulesOnly (rules : SCORMSequencingRules) : option SCORMSequencing :=
  Some {| controlMode := None; sequencingRules := Some rules;
          limitConditions := None; rollupRules := None |}.

Definition notCondition (c : string) : SCORMRuleCondition :=
  {| condition := c; operator := Some OpNot; measureThreshold := None;
     referenceObjective := None |}.

(** The precondition rule [{condition: "satisfied", operator: "not",
    action: "skip"}]. *)
Definition skipUnlessSatisfied (comb : ConditionCombination) : SCORMRule :=
  {| conditionCombination := comb; action := "skip";
     ruleConditions := [notCondition "satisfied"] |}.

(** root → [M → [X, A, B]], A carrying the skip precondition. *)
Definition skipManifest (comb : ConditionCombination) : SCORMManifest :=
  manifestOf
    [clusterItem "M"
       [leafItem "X" "res_x" None;
        leafItem "A" "res_a"
          (rulesOnly {| preConditionRule := Some [skipUnlessSatisfied comb];
                        exitConditionRule := None; postConditionRule := None |});
        leafItem "B" "res_b" None]
       None].

(** root → [M → [X, A, B]], A carrying the precondition rule
    [{condition: "satisfied", action: "skip"}], which does not hold while
    no objective of A is satisfied. *)
Definition blockedManifest : SCORMManifest :=
  manifestOf
    [clusterItem "M"
       [leafItem "X" "res_x" None;
        leafItem "A" "res_a"
          (rulesOnly
             {| preConditionRule :=
                  Some [ {| conditionCombination := CombAll; action := "skip";
                            ruleConditions :=
                              [ {| condition := "satisfied"; operator := None;
                                   measureThreshold := None;
                                   referenceObjective := None |} ] |} ];
                exitConditionRule := None; postConditionRule := None |});
        leafItem "B" "res_b" None]
       None].

(** root → [A, B], B refusing choice. *)
Definition choiceGated : SCORMManifest :=
  manifestOf
    [leafItem "A" "res_a" None;
     leafItem "B" "res_b"
       (Some {| controlMode :=
                  Some {| choice := Some false; choiceExit := None; flow := None;
                          forwardOnly := None;
                          useCurrentAttemptObjectiveInfo := None;
                          useCurrentAttemptProgressInfo := None |};
                sequencingRules := None; limitConditions := None;
                rollupRules := None |})].

(** An exit rule that marks the activity complete when it is left. *)
Definition completeOnExit : option SCORMSequencing :=
  rulesOnly {| preConditionRule := None;
               exitConditionRule :=
                 Some [ {| conditionCombination := CombAll; action := "skip";
                           ruleConditions := [notCondition "completed"] |} ];
               postConditionRule := None |}.

(** root → [M → [a, b]], both leaves completed on exit, M with default
    rollup. *)
Definition rollupCourse : SCORMManifest :=
  manifestOf
    [clusterItem "M"
       [leafItem "a" "res_a" completeOnExit; leafItem "b" "res_b" completeOnExit]
       None].

(** root → [M → [a, b]] as in [rollupCourse], where M carries a
    [rollupRules] element with an empty list of rules. *)
Definition emptyRollup : SCORMManifest :=
  manifestOf
    [clusterItem "M"
       [leafItem "a" "res_a" completeOnExit; leafItem "b" "res_b" completeOnExit]
       (Some {| controlMode := None; sequencingRules := None;
                limitConditions := None;
                rollupRules := Some {| rollupRule := Some [] |} |})].

Definition rollupRuleOf (comb : ConditionCombination) (cond : SCORMRuleCondition)
    (act : string) : SCORMRollupRule :=
  {| objectiveRollup := None; measureRollup := None; rollup_action := act;
     rollup_conditionCombination := comb; conditions := [cond] |}.

(** root → [M → [N → [x, y]]]: M has default rollup; N has explicit rollup
    rules that report it incomplete once all its children are completed and
    completed while one of them is not. *)
Definition staleRollup : SCORMManifest :=
  manifestOf
    [clusterItem "M"
       [clusterItem "N"
          [leafItem "x" "res_x" completeOnExit; leafItem "y" "res_y" completeOnExit]
          (Some {| controlMode := None; sequencingRules := None;
                   limitConditions := None;
                   rollupRules :=
                     Some {| rollupRule :=
                       Some [rollupRuleOf CombAll
                               {| condition := "completed"; operator := None;
                                  measureThreshold := None;
                                  referenceObjective := None |}
                               "incomplete";
                             rollupRuleOf CombAny (notCondition "completed")
                               "completed"] |} |})]
       None].

(** root → [T], a leaf with an attempt limit and a duration limit. *)
Definition timedCourse : SCORMManifest :=
  manifestOf
    [leafItem "T" "res_t"
       (Some {| controlMode := None; sequencingRules := None;
                limitConditions :=
                  Some {| attemptLimit := Some 3%Q;
                          activityAbsoluteDurationLimit := Some "PT1H";
                          beginTimeLimit := None; endTimeLimit := None |};
                rollupRules := None |})].

(** root → [D], a leaf whose precondition rule carries the action
    ["disabled"]. *)
Definition disabledCourse : SCORMManifest :=
  manifestOf
    [leafItem "D" "res_d"
       (rulesOnly {| preConditionRule :=
                       Some [ {| conditionCombination := CombAll; action := "disabled";
                                 ruleConditions := [notCondition "satisfied"] |} ];
                     exitConditionRule := None; postConditionRule := None |})].

(** root → [W], a leaf with an end of its time range and a precondition
    rule that holds while the activity is not outside that range. *)
Definition windowCourse : SCORMManifest :=
  manifestOf
    [leafItem "W" "res_w"
       (Some {| controlMode := None;
                sequencingRules :=
                  Some {| preConditionRule :=
                            Some [ {| conditionCombination := CombAll;
                                      action := "disabled";
                                      ruleConditions :=
                                        [notCondition "outsideAvailableTimeRange"] |} ];
                          exitConditionRule := None; postConditionRule := None |};
                limitConditions :=
                  Some {| attemptLimit := None;
                          activityAbsoluteDurationLimit := None;
                          beginTimeLimit := None;
                          endTimeLimit := Some "2030-01-01T00:00:00Z" |};
                rollupRules := None |})].

(** A clock on which every date string has the time value 10 and every
    reading is 5: the time range of [windowCourse] stays open. *)
Definition openClock : Clock :=
  {| readings := fun _ => 5%Z; dateValue := fun _ => Some 10%Z |}.

(** A clock on which every date string has the time value 10, the first
    reading is 5 and the later ones are 15: the time range of
    [windowCourse] closes between the first reading and the second. *)
Definition closingClock : Clock :=
  {| readings := fun n => match n with O => 5%Z | S _ => 15%Z end;
     dateValue := fun _ => Some 10%Z |}.

(** root → [M → [a, b], C]. *)
Definition nestedCourse : SCORMManifest :=
  manifestOf
    [clusterItem "M" [leafItem "a" "res_a" None; leafItem "b" "res_b" None] None;
     leafItem "C" "res_c" None].

End Examples.

(** ** Tree traversal helpers *)

(** Index of the activity [r] among its parent's children, by identifier,
    with the parent and the number of siblings; the common prefix of
    [getNextSibling] and [getPreviousSibling]. *)
Definition siblingIndex (e : Engine) (r : ActivityRef)
    : option (ActivityRef * nat * option nat) :=
  match parent r, deref (tree e) r with
  | Some p, Some activity =>
      match deref (tree e) p with
      | Some parentActivity =>
          let siblings := children parentActivity in
          Some (p, length siblings,
                findIndex
                  (fun child => String.eqb (identifier child) (identifier activity))
                  siblings)
      | None => None
      end
  | _, _ => None
  end.

Definition getNextSibling (e : Engine) (r : ActivityRef) : option ActivityRef :=
  match siblingIndex e r with
  | Some (p, len, Some i) => if Nat.eqb (S i) len then None else Some (S i :: p)
  | _ => None
  end.

Definition getPreviousSibling (e : Engine) (r : ActivityRef) : option ActivityRef :=
  match siblingIndex e r with
  | Some (p, len, Some (S i)) => Some (i :: p)
  | _ => None
  end.

(** [getLastDescendant]: down the last child until an activity without
    children. *)
Fixpoint getLastDescendantIn (activity : Activity) (r : ActivityRef) : ActivityRef :=
  (fix lastOf (cs : list Activity) (i : nat) : ActivityRef :=
     match cs with
     | [] => r
     | lastChild :: cs' =>
         match cs' with
         | [] => getLastDescendantIn lastChild (i :: r)
         | _ :: _ => lastOf cs' (S i)
         end
     end) (children activity) 0.

Definition getLastDescendant (e : Engine) (r : ActivityRef) : ActivityRef :=
  match deref (tree e) r with
  | Some activity => getLastDescendantIn activity r
  | None => r
  end.

(** Step 3 of [getNextActivityInTree]: the loop over the ancestors, started
    at [r] and climbing the [parent] links. *)
Fixpoint ancestorNextSibling (e : Engine) (r : ActivityRef) : option ActivityRef :=
  match getNextSibling e r with
  | Some s => Some s
  | None =>
      match r with
      | [] => None
      | _ :: p => ancestorNextSibling e p
      end
  end.

Definition getNextActivityInTree (e : Engine) (r : ActivityRef) : option ActivityRef :=
  match deref (tree e) r with
  | None => None
  | Some activity =>
      match children activity with
      | _ :: _ => Some (0 :: r)
      | [] =>
          match getNextSibling e r with
          | Some nextSibling => Some nextSibling
          | None =>
              match parent r with
              | Some p => ancestorNextSibling e p
              | None => None
              end
          end
      end
  end.

Definition getPreviousActivityInTree (e : Engine) (r : ActivityRef)
    : option ActivityRef :=
  match getPreviousSibling e r with
  | Some prevSibling => Some (getLastDescendant e prevSibling)
  | None => parent r
  end.

Inductive Direction := Forward | Backward.

Definition flowTreeTraversalSubprocess (e : Engine) (r : ActivityRef)
    (direction : Direction) : option ActivityRef :=
  match direction with
  | Forward => getNextActivityInTree e r
  | Backward => getPreviousActivityInTree e r
  end.

Fixpoint getFirstDeliverableDescendantIn (clk : Clock) (e : Engine)
    (activity : Activity) (r : ActivityRef) : option ActivityRef * Clock :=
  let '(deliverable, clk) := isActivityDeliverable clk e r in
  if deliverable then (Some r, clk)
  else
    (fix loop (cs : list Activity) (i : nat) (clk : Clock)
       : option ActivityRef * Clock :=
       match cs with
       | [] => (None, clk)
       | child :: cs' =>
           match getFirstDeliverableDescendantIn clk e child (i :: r) with
           | (Some deliverable, clk) => (Some deliverable, clk)
           | (None, clk) => loop cs' (S i) clk
           end
       end) (children activity) 0 clk.

Definition getFirstDeliverableDescendant (clk : Clock) (e : Engine)
    (r : ActivityRef) : option ActivityRef * Clock :=
  match deref (tree e) r with
  | Some activity => getFirstDeliverableDescendantIn clk e activity r
  | None => (None, clk)
  end.

(** ** Further notions used by the statements *)

(** The loop of [getFirstDeliverableDescendant] over the children, from
    the child with index [i] on. *)
Fixpoint firstDeliverableAmong (clk : Clock) (e : Engine) (cs : list Activity)
    (i : nat) (r : ActivityRef) : option ActivityRef * Clock :=
  match cs with
  | [] => (None, clk)
  | child :: cs' =>
      match getFirstDeliverableDescendantIn clk e child (i :: r) with
      | (Some deliverable, clk) => (Some deliverable, clk)
      | (None, clk) => firstDeliverableAmong clk e cs' (S i) r
      end
  end.

(** [later clk clk']: [clk'] is what is left of [clk] after zero or more
    readings. *)
Inductive later : Clock → Clock → Prop :=
| later_now clk : later clk clk
| later_read clk clk' : later (snd (newDate clk)) clk' → later clk clk'.

(** The children of every activity of the tree carry pairwise different
    identifiers. *)
Definition siblings_distinct (t : Activity) : Prop :=
  ∀ r a, deref t r = Some a → NoDup (identifier <$> children a).

(** Depth-first search, parent before children and children in order, for
    the first activity satisfying [P]: the scheme shared by
    [findActivityInTree], [findSuspendedActivity] and
    [getFirstDeliverableDescendant]. *)
Fixpoint preorderFind (P : Activity → ActivityRef → bool) (activity : Activity)
    (r : ActivityRef) : option ActivityRef :=
  if P activity r then Some r
  else
    (fix loop (cs : list Activity) (i : nat) : option ActivityRef :=
       match cs with
       | [] => None
       | child :: cs' =>
           match preorderFind P child (i :: r) with
           | Some found => Some found
           | None => loop cs' (S i)
           end
       end) (children activity) 0.

(** The part of an activity's state that no process of the engine assigns:
    the suspended flag, the durations, the attempt fields and the measure
    of every objective. *)
Definition untracked (st : ActivityStateInformation) : Prop :=
  activityIsSuspended st = false
  ∧ activityAbsoluteDuration st = 0%Q
  ∧ activityExperiencedDuration st = 0%Q
  ∧ attemptProgressStatus st = false
  ∧ attemptCompletionStatus st = false
  ∧ suspendedActivity st = None
  ∧ ∀ id ob, objectives st !! id = Some ob →
             objectiveMeasureStatus ob = false
             ∧ objectiveNormalizedMeasure ob = 0%Q.

Definition all_untracked (e : Engine) : Prop := ∀ r, untracked (stateOf e r).

(** The loop of [resetActivityStateRecursive] over the children, from the
    child with index [i] on. *)
Fixpoint resetChildren (cs : list Activity) (i : nat) (r : ActivityRef)
    (e : Engine) : Engine :=
  match cs with
  | [] => e
  | child :: cs' => resetChildren cs' (S i) r (resetActivityStateRecursive child (i :: r) e)
  end.

(** [path], read from [a] downwards, takes the last child at every step. *)
Fixpoint last_steps (a : Activity) (path : list nat) : Prop :=
  match path with
  | [] => True
  | j :: rest =>
      S j = length (children a)
      ∧ match children a !! j with
        | Some c => last_steps c rest
        | None => False
        end
  end.

(** Executable form of [siblings_distinct]. *)
Fixpoint siblings_distinctb (a : Activity) : bool :=
  bool_decide (NoDup (identifier <$> children a))
  && forallb siblings_distinctb (children a).

(** ** Basic facts about the state assignments *)

Lemma stateOf_updState r f e q :
  stateOf (updState r f e) q = if decide (r = q) then f (stateOf e r) else stateOf e q.
Proof.
  unfold stateOf, updState; simpl. case_decide as Hrq.
  - subst q. apply fn_lookup_insert.
  - by apply fn_lookup_insert_ne.
Qed.

Lemma stateOf_updState_eq r f e : stateOf (updState r f e) r = f (stateOf e r).
Proof. rewrite stateOf_updState. by case_decide. Qed.

Lemma stateOf_updState_ne r f e q : r ≠ q → stateOf (updState r f e) q = stateOf e q.
Proof. intros. rewrite stateOf_updState. by case_decide. Qed.

Lemma Activity_ind' (P : Activity → Prop) :
  (∀ id it cs l ro d sd, Forall P cs → P (mkActivity id it cs l ro d sd)) →
  ∀ a, P a.
Proof.
  intros step. fix IH 1. intros [id it cs l ro d sd]. apply step.
  induction cs as [|c cs IHcs]; constructor; [apply IH | exact IHcs].
Qed.

Lemma SCORMItem_ind' (P : SCORMItem → Prop) :
  (∀ id t ref vis sub sq,
      Forall P (default [] sub) → P (mkItem id t ref vis sub sq)) →
  ∀ it, P it.
Proof.
  intros step. fix IH 1. intros [id t ref vis sub sq]. apply step.
  destruct sub as [l|]; simpl; [|constructor].
  induction l as [|c l IHl]; constructor; [apply IH | exact IHl].
Qed.

(** Any engine property kept by the quiet state assignments and by
    assignments to [endSession] is kept by rule execution, rollup and
    termination. *)
Section Preservation.
Variable I : Engine → Prop.
Hypothesis I_state : ∀ r f e, quiet f → I e → I (updState r f e).
Hypothesis I_end : ∀ b e, I e → I (set_endSession b e).

Lemma setObjectiveSatisfiedStatus_pres r b o e :
  I e → I (setObjectiveSatisfiedStatus r b o e).
Proof. intros. apply I_state; [constructor | done]. Qed.

Lemma resetActivityState_pres r e : I e → I (resetActivityState r e).
Proof. intros. apply I_state; [constructor | done]. Qed.

Lemma resetActivityStateRecursive_pres a :
  ∀ r e, I e → I (resetActivityStateRecursive a r e).
Proof.
  induction a as [id it cs l ro d sd IH] using Activity_ind'.
  intros r e He. simpl.
  assert (I (resetActivityState r e)) as He1 by by apply resetActivityState_pres.
  revert He1. generalize (resetActivityState r e) as e1. generalize 0 as i.
  induction IH as [|c cs Hc _ IHcs]; intros i e1 He1; [done|].
  apply IHcs. by apply Hc.
Qed.

Lemma executeRuleAction_pres act r e : I e → I (executeRuleAction act r e).
Proof.
  intros He. unfold executeRuleAction.
  repeat case_match; auto using resetActivityState_pres.
  - apply I_state; [constructor | done].
  - by apply resetActivityStateRecursive_pres.
Qed.

Lemma checkRule_pres r s rule : I (fst s) → I (fst (checkRule r s rule)).
Proof.
  destruct s as [e clk]. simpl. intros He.
  destruct (evaluateSequencingRule clk e rule r) as [[] clk']; simpl;
    [by apply executeRuleAction_pres | done].
Qed.

Lemma sequencingRulesCheckProcess_pres clk r ev e :
  I e → I (fst (sequencingRulesCheckProcess clk r ev e)).
Proof.
  intros He. unfold sequencingRulesCheckProcess.
  destruct (sequencingDefinitionOf e r ≫= sequencingRules) as [rules|]; [|done].
  generalize (match ev with
              | EntryEvent => default [] (preConditionRule rules)
              | ExitEvent =>
                  (default [] (exitConditionRule rules)
                     ++ default [] (postConditionRule rules))%list
              end) as l.
  intros l. change e with (fst (e, clk)) in He. revert He.
  generalize (e, clk) as s. induction l as [|rule l IHl]; intros s Hs; simpl; [done|].
  apply IHl. by apply checkRule_pres.
Qed.

Lemma executeRollupAction_pres act r e : I e → I (executeRollupAction act r e).
Proof.
  intros He. unfold executeRollupAction.
  repeat case_match; auto using setObjectiveSatisfiedStatus_pres;
    apply I_state; (constructor || done).
Qed.

Lemma applyDefaultRollup_pres r a e : I e → I (applyDefaultRollup r a e).
Proof.
  intros He. unfold applyDefaultRollup. cbv zeta.
  assert (∀ b : bool, I (if b then updState r (set_completion true) e else e)) as H1.
  { intros []; [apply I_state; [constructor | done] | done]. }
  case_match; [apply setObjectiveSatisfiedStatus_pres|]; apply H1.
Qed.

Lemma applyRollupRule_pres clk rule r a e :
  I e → I (fst (applyRollupRule clk rule r a e)).
Proof.
  intros He. unfold applyRollupRule.
  destruct (forEach _ clk (childRefs r a)) as [childResults clk']. simpl.
  case_match; [by apply executeRollupAction_pres | done].
Qed.

Lemma rollupActivityState_pres clk r e :
  I e → I (fst (rollupActivityState clk r e)).
Proof.
  intros He. unfold rollupActivityState.
  destruct (deref (tree e) r) as [a|]; [|done].
  destruct (isLeaf a); [done|].
  destruct ((sequencingDefinition a ≫= rollupRules) ≫= rollupRule) as [rules|];
    [|by apply applyDefaultRollup_pres].
  change e with (fst (e, clk)) in He. revert He. generalize (e, clk) as s.
  induction rules as [|rule rules IHr]; intros s Hs; simpl; [done|].
  apply IHr. destruct s as [e1 clk1]. by apply applyRollupRule_pres.
Qed.

Lemma rollupProcess_pres r : ∀ clk e, I e → I (fst (rollupProcess clk r e)).
Proof.
  induction r as [|i p IHp]; intros clk e He; simpl.
  - pose proof (rollupActivityState_pres clk [] e He) as H1.
    by destruct (rollupActivityState clk [] e).
  - pose proof (rollupActivityState_pres clk (i :: p) e He) as H1.
    destruct (rollupActivityState clk (i :: p) e) as [e1 clk1]. by apply IHp.
Qed.

Lemma terminationRequestProcess_pres clk e :
  I e → I (fst (terminationRequestProcess clk e)).
Proof.
  intros He. unfold terminationRequestProcess.
  destruct (currentActivity (session e)) as [cur|]; [|done].
  pose proof (sequencingRulesCheckProcess_pres clk cur ExitEvent
                (updState cur (set_activityIsActive false) e)) as H1.
  destruct (sequencingRulesCheckProcess clk cur ExitEvent _) as [e1 clk1].
  apply rollupProcess_pres, H1. apply I_state; [constructor | done].
Qed.
End Preservation.

(** ** What the processes leave alone *)

Lemma same_frame_refl e : same_frame e e.
Proof. by repeat split. Qed.

Lemma same_frame_updState e0 r f e : same_frame e0 e → same_frame e0 (updState r f e).
Proof. intros H. exact H. Qed.

Lemma same_frame_set_endSession e0 b e :
  same_frame e0 e → same_frame e0 (set_endSession b e).
Proof. intros H. exact H. Qed.

Lemma same_frame_tree e e' : same_frame e e' → tree e' = tree e.
Proof. intros (_ & H & _). exact H. Qed.

Lemma same_frame_current e e' :
  same_frame e e' → currentActivity (session e') = currentActivity (session e).
Proof. intros (_ & _ & H & _). exact H. Qed.

Lemma terminationRequestProcess_frame clk e :
  same_frame e (fst (terminationRequestProcess clk e)).
Proof.
  apply (terminationRequestProcess_pres (same_frame e)); auto using same_frame_refl.
Qed.

Lemma sequencingRulesCheckProcess_frame clk r ev e :
  same_frame e (fst (sequencingRulesCheckProcess clk r ev e)).
Proof.
  apply (sequencingRulesCheckProcess_pres (same_frame e)); auto using same_frame_refl.
Qed.

Lemma rollupProcess_frame clk r e : same_frame e (fst (rollupProcess clk r e)).
Proof.
  apply (rollupProcess_pres (same_frame e)); auto using same_frame_refl.
Qed.

(** ** The call stack: more room never changes a normal completion *)

Lemma flowSubprocess_mono e n :
  ∀ clk r entry reverse x clk' m,
    flowSubprocess clk e n r entry reverse = (Normal x, clk') →
    n ≤ m →
    flowSubprocess clk e m r entry reverse = (Normal x, clk').
Proof.
  induction n as [|n IHn]; intros clk r entry reverse x clk' m Hflow Hle;
    [discriminate|].
  destruct m as [|m]; [lia|]. simpl in *.
  destruct (deref (tree e) r) as [a|]; [|done].
  destruct (if isLeaf a && entry then isActivityDeliverable clk e r else (false, clk))
    as [[] clk1]; [done|].
  assert (∀ y,
    match parent r with
    | Some p => flowSubprocess clk1 e n p false reverse
    | None => (Normal None, clk1)
    end = (Normal y, clk') →
    match parent r with
    | Some p => flowSubprocess clk1 e m p false reverse
    | None => (Normal None, clk1)
    end = (Normal y, clk')) as Hout.
  { intros y. destruct (parent r); [|done]. intros. apply IHn; [done | lia]. }
  destruct (negb (isLeaf a)); [|by apply Hout].
  destruct (if entry then getFirstChild e r
            else if reverse then getPreviousChild e r else getNextChild e r);
    [|by apply Hout].
  apply IHn; [done | lia].
Qed.

Lemma flowSubprocess_mono_in_fuel clk e r entry reverse :
  mono_in_fuel (fun n => flowSubprocess clk e n r entry reverse).
Proof. intros n m x y H Hle. by apply (flowSubprocess_mono e n). Qed.

Lemma mono_in_fuel_const {A B : Type} (c : Completion A * B) :
  mono_in_fuel (fun _ => c).
Proof. by intros n m x y H _. Qed.

Lemma startSequencingRequestProcess_mono clk e :
  mono_in_fuel (startSequencingRequestProcess clk e).
Proof.
  unfold startSequencingRequestProcess. destruct (negb (isChoiceValid e [])).
  - apply mono_in_fuel_const.
  - apply flowSubprocess_mono_in_fuel.
Qed.

Lemma resumeAllSequencingRequestProcess_mono clk e :
  mono_in_fuel (resumeAllSequencingRequestProcess clk e).
Proof.
  unfold resumeAllSequencingRequestProcess. destruct (findSuspendedActivity e).
  - apply mono_in_fuel_const.
  - apply startSequencingRequestProcess_mono.
Qed.

Lemma continueSequencingRequestProcess_mono clk e :
  mono_in_fuel (continueSequencingRequestProcess clk e).
Proof.
  unfold continueSequencingRequestProcess.
  destruct (currentActivity (session e)) as [cur|]; [|apply mono_in_fuel_const].
  destruct (negb (isContinueAllowed e cur)).
  - apply mono_in_fuel_const.
  - apply flowSubprocess_mono_in_fuel.
Qed.

Lemma previousSequencingRequestProcess_mono clk e :
  mono_in_fuel (previousSequencingRequestProcess clk e).
Proof.
  unfold previousSequencingRequestProcess.
  destruct (currentActivity (session e)) as [cur|]; [|apply mono_in_fuel_const].
  destruct (negb (isPreviousAllowed e cur)).
  - apply mono_in_fuel_const.
  - apply flowSubprocess_mono_in_fuel.
Qed.

Lemma choiceSequencingRequestProcess_mono clk e targetId :
  mono_in_fuel (fun n => choiceSequencingRequestProcess clk e n targetId).
Proof.
  unfold choiceSequencingRequestProcess.
  destruct (findActivity e targetId) as [t|]; [|apply mono_in_fuel_const].
  destruct (negb (isChoiceValid e t)).
  - apply mono_in_fuel_const.
  - apply flowSubprocess_mono_in_fuel.
Qed.

Lemma identifiedBy_mono (f : nat → Completion (option ActivityRef) * Clock)
    e n m x e' clk' :
  mono_in_fuel f →
  identifiedBy (f n) e = (Normal x, e', clk') → n ≤ m →
  identifiedBy (f m) e = (Normal x, e', clk').
Proof.
  intros Hf Hid Hle. destruct (f n) as [[a|] clk1] eqn:Hn; [|discriminate].
  by rewrite (Hf n m a clk1 Hn Hle).
Qed.

Lemma sequencingRequestProcess_mono clk e request targetId n m x e' clk' :
  sequencingRequestProcess clk e n request targetId = (Normal x, e', clk') →
  n ≤ m →
  sequencingRequestProcess clk e m request targetId = (Normal x, e', clk').
Proof.
  unfold sequencingRequestProcess. intros H Hle.
  destruct (String.eqb request "start");
    [by apply (identifiedBy_mono (startSequencingRequestProcess clk e) e n m);
       [apply startSequencingRequestProcess_mono|..]|].
  destruct (String.eqb request "resumeAll");
    [by apply (identifiedBy_mono (resumeAllSequencingRequestProcess clk e) e n m);
       [apply resumeAllSequencingRequestProcess_mono|..]|].
  destruct (String.eqb request "continue");
    [by apply (identifiedBy_mono (continueSequencingRequestProcess clk e) e n m);
       [apply continueSequencingRequestProcess_mono|..]|].
  destruct (String.eqb request "previous");
    [by apply (identifiedBy_mono (previousSequencingRequestProcess clk e) e n m);
       [apply previousSequencingRequestProcess_mono|..]|].
  destruct (String.eqb request "choice").
  { destruct (truthy_string targetId); [|done].
    by apply (identifiedBy_mono
                (fun k => choiceSequencingRequestProcess clk e k (default "" targetId))
                e n m); [apply choiceSequencingRequestProcess_mono|..]. }
  destruct (String.eqb request "exit").
  { unfold exitSequencingRequestProcess in *.
    destruct (currentActivity (session e)) as [cur|]; [|done].
    destruct (parent cur) as [p|]; [|done].
    destruct (flowSubprocess clk e n p false false) as [[a|] clk1] eqn:Hn;
      [|discriminate].
    by rewrite (flowSubprocess_mono e n clk p false false a clk1 m Hn Hle). }
  destruct (String.eqb request "exitAll"); [done|].
  destruct (String.eqb request "abandon");
    [by apply (identifiedBy_mono (continueSequencingRequestProcess clk e) e n m);
       [apply continueSequencingRequestProcess_mono|..]|].
  done.
Qed.

Lemma overallSequencingProcess_mono clk request targetId e n m x e' :
  overallSequencingProcess clk n request targetId e = (Normal x, e') →
  n ≤ m →
  overallSequencingProcess clk m request targetId e = (Normal x, e').
Proof.
  unfold overallSequencingProcess. intros H Hle.
  destruct (negb (valid _)); [done|].
  destruct (if bool_decide _ then _ else _) as [e0 clk0].
  destruct (sequencingRequestProcess clk0 e0 n request targetId)
    as [[[sr|] e1] clk1] eqn:Hn; [|discriminate].
  by rewrite (sequencingRequestProcess_mono _ _ _ _ n m sr e1 clk1 Hn Hle).
Qed.

Lemma processNavigationRequest_mono clk request targetId e n m x e' :
  processNavigationRequest clk n request targetId e = (Normal x, e') →
  n ≤ m →
  processNavigationRequest clk m request targetId e = (Normal x, e').
Proof.
  unfold processNavigationRequest. intros H Hle.
  destruct (overallSequencingProcess clk n request targetId e) as [[a|] e1] eqn:Hn;
    [|discriminate].
  by rewrite (overallSequencingProcess_mono _ _ _ _ n m a e1 Hn Hle).
Qed.

(** [overallSequencingProcess] starts by clearing [endSession]: the value
    the flag had when the request arrived cannot influence the request. *)
Lemma overallSequencingProcess_ignores_endSession clk fuel request targetId b e :
  overallSequencingProcess clk fuel request targetId (set_endSession b e)
  = overallSequencingProcess clk fuel request targetId e.
Proof. reflexivity. Qed.

(** ** The session-ended flag *)

(** C1 (the code departs from it): on root → [A, B], with A current, the
    request [exitAll] sets [endSession], yet the next request, a [choice]
    of B, is accepted and delivers B; likewise after a [start] that
    identified no activity and set [endSession], a [choice] of A is
    accepted and delivers A. *)
Theorem request_after_session_end_is_accepted clk fuel :
  ∃ e0, newEngine Examples.twoLeaves = Some e0
    ∧ (let e1 := snd (processNavigationRequest clk (S fuel) "choice" (Some "A") e0) in
       let e2 := snd (processNavigationRequest clk fuel "exitAll" None e1) in
       let res := processNavigationRequest clk (S fuel) "choice" (Some "B") e2 in
       getCurrentActivity e1 = Some "A"
       ∧ endSession e2 = true
       ∧ fst res = Normal (Some "B")
       ∧ getCurrentActivity (snd res) = Some "B"
       ∧ activityIsActive (stateOf (snd res) [1]) = true)
    ∧ (let e1 := snd (startSequence clk (S fuel) e0) in
       let res := processNavigationRequest clk (S fuel) "choice" (Some "A") e1 in
       fst (startSequence clk (S fuel) e0) = Normal None
       ∧ endSession e1 = true
       ∧ fst res = Normal (Some "A")
       ∧ getCurrentActivity (snd res) = Some "A").
Proof. eexists. split; [reflexivity|]. vm_compute. done. Qed.

(** ** Flow on the built tree *)

(** C4 (the code departs from it): on root → [A, B] without sequencing
    definitions, [start] delivers nothing and marks the session ended;
    once A has been made current by a [choice], [continue] from A returns
    null instead of delivering B; and with B current, [previous] returns
    null instead of delivering A. *)
Theorem start_on_two_leaves_delivers_nothing clk fuel :
  ∃ e0, newEngine Examples.twoLeaves = Some e0
    ∧ fst (startSequence clk (S fuel) e0) = Normal None
    ∧ getCurrentActivity (snd (startSequence clk (S fuel) e0)) = None
    ∧ endSession (snd (startSequence clk (S fuel) e0)) = true
    ∧ (let eA := snd (processNavigationRequest clk (S fuel) "choice" (Some "A") e0) in
       getCurrentActivity eA = Some "A"
       ∧ fst (processNavigationRequest clk (S (S fuel)) "continue" None eA)
         = Normal None)
    ∧ (let eB := snd (processNavigationRequest clk (S fuel) "choice" (Some "B") e0) in
       getCurrentActivity eB = Some "B"
       ∧ fst (processNavigationRequest clk (S (S fuel)) "previous" None eB)
         = Normal None).
Proof. eexists. split; [reflexivity|]. vm_compute. done. Qed.

(** C2 (the code departs from it): on root → [M → [X, A, B]] where A has
    the precondition rule [{satisfied, not, skip}] and no objective of A is
    satisfied, [continue] from X flows into A and delivers it: A becomes
    the active current activity, marked complete, and B is not reached. *)
Theorem skip_precondition_delivers_the_activity clk fuel comb :
  ∃ e0, newEngine (Examples.skipManifest comb) = Some e0
    ∧ let eX := snd (processNavigationRequest clk (S fuel) "choice" (Some "X") e0) in
      let res := processNavigationRequest clk (S (S (S fuel))) "continue" None eX in
      getCurrentActivity eX = Some "X"
      ∧ getObjectiveSatisfiedStatus eX [1; 0] None = false
      ∧ fst res = Normal (Some "A")
      ∧ getCurrentActivity (snd res) = Some "A"
      ∧ activityIsActive (stateOf (snd res) [1; 0]) = true
      ∧ activityProgressStatus (stateOf (snd res) [1; 0]) = true
      ∧ activityCompletionStatus (stateOf (snd res) [1; 0]) = true.
Proof. eexists. split; [reflexivity|]. destruct comb; vm_compute; done. Qed.

(** One step of the flow out of a leaf that is not returned, and from a
    cluster to the sibling that follows the current activity.  The delivery
    gate of the leaf is evaluated, and the clock read, only on entry. *)
Lemma flowSubprocess_leaf_out clk e n r a p entry reverse :
  deref (tree e) r = Some a → isLeaf a = true →
  (entry = true → fst (isActivityDeliverable clk e r) = false) →
  parent r = Some p →
  flowSubprocess clk e (S n) r entry reverse
  = flowSubprocess (if entry then snd (isActivityDeliverable clk e r) else clk)
      e n p false reverse.
Proof.
  intros Ha Hleaf Hgate Hp. simpl. rewrite Ha, Hleaf, Hp. simpl.
  destruct entry; [|done].
  destruct (isActivityDeliverable clk e r) as [b clk1]. simpl in *.
  by rewrite Hgate.
Qed.

Lemma flowSubprocess_next_child clk e n r a child :
  deref (tree e) r = Some a → isLeaf a = false →
  getNextChild e r = Some child →
  flowSubprocess clk e (S n) r false false
  = flowSubprocess clk e n child true false.
Proof. intros Ha Hleaf Hnext. simpl. by rewrite Ha, Hleaf, Hnext. Qed.

(** The other side of the precondition gate: when the rule of A does not
    hold, A is refused, and the flow out of A re-enters A through
    [getNextChild], which still answers relative to the current activity X.
    The traversal never reaches B: [continue] from X exhausts the stack,
    however deep it is. *)
Lemma refused_sibling_exhausts_the_stack clk fuel :
  ∃ e0, newEngine Examples.blockedManifest = Some e0
    ∧ let eX := snd (processNavigationRequest clk 1 "choice" (Some "X") e0) in
      getCurrentActivity eX = Some "X"
      ∧ fst (processNavigationRequest clk fuel "continue" None eX) = StackOverflow.
Proof.
  eexists. split; [reflexivity|]. cbv zeta. split; [vm_compute; reflexivity|].
  match goal with
  | |- fst (processNavigationRequest clk fuel _ _ ?e) = _ => set (eX := e)
  end.
  set (e1 := fst (terminationRequestProcess clk (set_endSession false eX))).
  assert (terminationRequestProcess clk (set_endSession false eX) = (e1, clk)) as Hterm
    by (vm_compute; reflexivity).
  assert (∀ n, flowSubprocess clk e1 n [0] false false = (StackOverflow, clk)
               ∧ flowSubprocess clk e1 n [1; 0] true false = (StackOverflow, clk))
    as Hloop.
  { induction n as [|n [IHM IHA]]; [by split|]. split.
    - rewrite <- IHA. eapply flowSubprocess_next_child; vm_compute; reflexivity.
    - rewrite <- IHM.
      assert (isActivityDeliverable clk e1 [1; 0] = (false, clk)) as Hgate
        by (vm_compute; reflexivity).
      erewrite (flowSubprocess_leaf_out clk e1 n [1; 0] _ [0] true false);
        [by rewrite Hgate | vm_compute; reflexivity | reflexivity
        | by rewrite Hgate | reflexivity]. }
  assert (flowSubprocess clk e1 fuel [0; 0] false false = (StackOverflow, clk))
    as Hflow.
  { destruct fuel as [|n]; [done|]. rewrite <- (proj1 (Hloop n)).
    erewrite (flowSubprocess_leaf_out clk e1 n [0; 0] _ [0] false false);
      [done | vm_compute; reflexivity | reflexivity | done | reflexivity]. }
  unfold processNavigationRequest, overallSequencingProcess.
  assert (negb (valid (navigationRequestProcess (set_endSession false eX)
                         "continue" None)) = false) as ->
    by (vm_compute; reflexivity).
  assert (bool_decide (is_Some (currentActivity
                                  (session (set_endSession false eX)))) = true)
    as -> by (vm_compute; reflexivity).
  rewrite Hterm.
  assert (sequencingRequestProcess clk e1 fuel "continue" None
          = (StackOverflow, e1, clk)) as ->; [|done].
  unfold sequencingRequestProcess, continueSequencingRequestProcess.
  assert (currentActivity (session e1) = Some [0; 0]) as ->
    by (vm_compute; reflexivity).
  assert (isContinueAllowed e1 [0; 0] = true) as -> by (vm_compute; reflexivity).
  simpl. by rewrite Hflow.
Qed.

(** ** Available navigation requests *)

Lemma available_list (c p ch : bool) :
  let l := ((if c then ["continue"] else [])
            ++ (if p then ["previous"] else [])
            ++ (if ch then ["choice"] else [])
            ++ ["exit"; "exitAll"; "abandon"; "abandonAll"])%list in
  ("continue" ∈ l ↔ c = true)
  ∧ ("previous" ∈ l ↔ p = true)
  ∧ ("choice" ∈ l ↔ ch = true)
  ∧ "exit" ∈ l ∧ "exitAll" ∈ l ∧ "abandon" ∈ l ∧ "abandonAll" ∈ l.
Proof.
  destruct c, p, ch; cbv zeta; cbn [app];
    repeat split;
    try (intros _; reflexivity);
    try (apply (bool_decide_unpack _); vm_compute; exact I);
    intros H; apply (bool_decide_pack _) in H; vm_compute in H; destruct H.
Qed.

(** C8: with a current activity, [getAvailableNavigationRequests] lists
    ["continue"] iff the activity's control mode does not set [flow] to
    false, ["previous"] iff it does not set [forwardOnly], ["choice"] iff it
    does not set [choice] to false, and always lists ["exit"], ["exitAll"],
    ["abandon"] and ["abandonAll"]. *)
Theorem available_requests_follow_control_mode e cur :
  currentActivity (session e) = Some cur →
  let mode := sequencingDefinitionOf e cur ≫= controlMode in
  let available := getAvailableNavigationRequests e in
  ("continue" ∈ available ↔ mode ≫= flow ≠ Some false)
  ∧ ("previous" ∈ available ↔ mode ≫= forwardOnly ≠ Some true)
  ∧ ("choice" ∈ available ↔ mode ≫= choice ≠ Some false)
  ∧ "exit" ∈ available ∧ "exitAll" ∈ available
  ∧ "abandon" ∈ available ∧ "abandonAll" ∈ available.
Proof.
  intros Hcur. cbv zeta. unfold getAvailableNavigationRequests. rewrite Hcur.
  destruct (available_list (isContinueAllowed e cur) (isPreviousAllowed e cur)
              (isChoiceValid e cur)) as (Hc & Hp & Hch & Hrest).
  split; [|split; [|split; [|exact Hrest]]].
  - rewrite Hc. unfold isContinueAllowed.
    by rewrite negb_true_iff, bool_decide_eq_false.
  - rewrite Hp. unfold isPreviousAllowed.
    destruct ((sequencingDefinitionOf e cur ≫= controlMode) ≫= forwardOnly)
      as [[]|]; simpl; split; congruence.
  - rewrite Hch. unfold isChoiceValid.
    by rewrite negb_true_iff, bool_decide_eq_false.
Qed.

Lemma available_requests_follow_control_mode_witness :
  ∃ e0, newEngine Examples.choiceGated = Some e0
    ∧ let eA := snd (processNavigationRequest Examples.clock0 1 "choice" (Some "A") e0) in
      currentActivity (session eA) = Some [0]
      ∧ "continue" ∈ getAvailableNavigationRequests eA
      ∧ "exitAll" ∈ getAvailableNavigationRequests eA.
Proof.
  eexists. split; [reflexivity|]. cbv zeta.
  split; [vm_compute; reflexivity|].
  match goal with
  | |- _ ∈ getAvailableNavigationRequests ?eA ∧ _ =>
      assert (currentActivity (session eA) = Some [0]) as Hcur
        by (vm_compute; reflexivity);
      destruct (available_requests_follow_control_mode eA [0] Hcur)
        as (Hc & _ & _ & _ & Hall & _)
  end.
  split; [|exact Hall].
  apply Hc. vm_compute. discriminate.
Defined.

(** ** Rejected choice requests *)

Lemma navigationRequestProcess_choice e targetId :
  endSession e = false →
  navigationRequestProcess e "choice" targetId
  = if negb (truthy_string targetId) then
      invalidRequest "Choice requires target activity"
    else
      match findActivity e (default "" targetId) with
      | None => invalidRequest "Target activity not found"
      | Some targetActivity =>
          if negb (isChoiceValid e targetActivity)
          then invalidRequest "Choice not valid for target activity"
          else {| valid := true; exception := None |}
      end.
Proof. intros He. unfold navigationRequestProcess. rewrite He. reflexivity. Qed.

Lemma overallSequencingProcess_invalid clk fuel request targetId e :
  valid (navigationRequestProcess (set_endSession false e) request targetId) = false →
  overallSequencingProcess clk fuel request targetId e
  = (Normal None, set_endSession false e).
Proof. intros H. unfold overallSequencingProcess. by rewrite H. Qed.

(** What a refused [choice] keeps, in every state: the request is refused
    by the navigation request process with a named exception, returns null
    and leaves [this.session] as it was (same tree, same current activity,
    same state of every activity, same objectives).  The engine's
    [endSession] field is false afterwards, whatever it was. *)
Lemma rejected_choice_keeps_session clk fuel e id :
  findActivity e id = None
  ∨ (∃ t, findActivity e id = Some t
          ∧ (sequencingDefinitionOf e t ≫= controlMode) ≫= choice = Some false) →
  let request := navigationRequestProcess (set_endSession false e) "choice" (Some id) in
  let res := processNavigationRequest clk fuel "choice" (Some id) e in
  valid request = false
  ∧ exception request
    = Some (if String.eqb id "" then "Choice requires target activity"
            else match findActivity e id with
                 | None => "Target activity not found"
                 | Some _ => "Choice not valid for target activity"
                 end)
  ∧ fst res = Normal None
  ∧ session (snd res) = session e
  ∧ getCurrentActivity (snd res) = getCurrentActivity e
  ∧ (∀ r, stateOf (snd res) r = stateOf e r)
  ∧ snd res = set_endSession false e
  ∧ (endSession e = false → snd res = e).
Proof.
  intros Hrej. cbv zeta.
  assert (valid (navigationRequestProcess (set_endSession false e) "choice" (Some id))
          = false
          ∧ exception (navigationRequestProcess (set_endSession false e) "choice" (Some id))
            = Some (if String.eqb id "" then "Choice requires target activity"
                    else match findActivity e id with
                         | None => "Target activity not found"
                         | Some _ => "Choice not valid for target activity"
                         end)) as [Hvalid Hexc].
  { rewrite navigationRequestProcess_choice by reflexivity. simpl.
    destruct (String.eqb id ""); simpl; [done|].
    change (findActivity (set_endSession false e) id) with (findActivity e id).
    destruct Hrej as [Hnone | (t & Hsome & Hchoice)].
    - by rewrite Hnone.
    - rewrite Hsome. unfold isChoiceValid.
      change (sequencingDefinitionOf (set_endSession false e) t)
        with (sequencingDefinitionOf e t).
      rewrite Hchoice. by rewrite bool_decide_eq_true_2. }
  unfold processNavigationRequest.
  rewrite (overallSequencingProcess_invalid _ _ _ _ _ Hvalid). simpl.
  repeat split; try done.
  destruct e as [m s b]. simpl. by intros ->.
Qed.

(** C6 (the code departs from it): on root → [A, B] where B sets
    [choice: false], with A current, [exitAll] sets [endSession]; a
    [choice] of B (refused: "Choice not valid for target activity") and a
    [choice] of an identifier no activity carries (refused: "Target
    activity not found") then return null and leave [this.session] as it
    was, but both clear [endSession]: the state of the session is not
    what it was before the refused request. *)
Theorem rejected_choice_clears_endSession clk fuel :
  ∃ e0, newEngine Examples.choiceGated = Some e0
    ∧ let e1 := snd (processNavigationRequest clk (S fuel) "choice" (Some "A") e0) in
      let e2 := snd (processNavigationRequest clk fuel "exitAll" None e1) in
      getCurrentActivity e1 = Some "A"
      ∧ endSession e2 = true
      ∧ findActivity e2 "B" = Some [1]
      ∧ (sequencingDefinitionOf e2 [1] ≫= controlMode) ≫= choice = Some false
      ∧ findActivity e2 "Z" = None
      ∧ ∀ id, id = "B" ∨ id = "Z" →
          let request :=
            navigationRequestProcess (set_endSession false e2) "choice" (Some id) in
          let res := processNavigationRequest clk fuel "choice" (Some id) e2 in
          valid request = false
          ∧ exception request
            = Some (if String.eqb id "B" then "Choice not valid for target activity"
                    else "Target activity not found")
          ∧ fst res = Normal None
          ∧ session (snd res) = session e2
          ∧ endSession (snd res) = false
          ∧ snd res ≠ e2.
Proof.
  eexists. split; [reflexivity|]. cbv zeta.
  split; [vm_compute; reflexivity|]. split; [vm_compute; reflexivity|].
  split; [vm_compute; reflexivity|]. split; [vm_compute; reflexivity|].
  split; [vm_compute; reflexivity|].
  match goal with
  | |- ∀ id, _ → valid (navigationRequestProcess (set_endSession false ?x) _ _) = _ ∧ _ =>
      set (e2 := x)
  end.
  assert (endSession e2 = true) as Hend by (vm_compute; reflexivity).
  intros id Hid.
  assert (findActivity e2 id = None
          ∨ (∃ t, findActivity e2 id = Some t
                  ∧ (sequencingDefinitionOf e2 t ≫= controlMode) ≫= choice
                    = Some false)) as Hrej.
  { destruct Hid as [-> | ->].
    - right. exists [1]. split; vm_compute; reflexivity.
    - left. vm_compute. reflexivity. }
  destruct (rejected_choice_keeps_session clk fuel e2 id Hrej)
    as (Hvalid & Hexc & Hres & Hsession & _ & _ & Hsnd & _).
  split; [exact Hvalid|]. split.
  { rewrite Hexc. destruct Hid as [-> | ->]; vm_compute; reflexivity. }
  split; [exact Hres|]. split; [exact Hsession|]. split; [by rewrite Hsnd|].
  rewrite Hsnd. intros Heq. apply (f_equal endSession) in Heq.
  rewrite Hend in Heq. discriminate Heq.
Qed.

(** ** The shape of a request *)

Lemma identified_state c e :
  snd (identified c e) = e ∨ snd (identified c e) = set_endSession true e.
Proof. destruct c as [[a|]|]; simpl; auto. Qed.

Lemma identifiedBy_state res e :
  snd (fst (identifiedBy res e)) = e
  ∨ snd (fst (identifiedBy res e)) = set_endSession true e.
Proof. destruct res as [c clk]. apply identified_state. Qed.

(** The sequencing request process reads the activity states and assigns
    nothing but [endSession]. *)
Lemma sequencingRequestProcess_state clk e fuel request targetId :
  snd (fst (sequencingRequestProcess clk e fuel request targetId)) = e
  ∨ snd (fst (sequencingRequestProcess clk e fuel request targetId))
    = set_endSession true e.
Proof.
  unfold sequencingRequestProcess.
  destruct (String.eqb request "start"); [apply identifiedBy_state|].
  destruct (String.eqb request "resumeAll"); [apply identifiedBy_state|].
  destruct (String.eqb request "continue"); [apply identifiedBy_state|].
  destruct (String.eqb request "previous"); [apply identifiedBy_state|].
  destruct (String.eqb request "choice").
  { destruct (truthy_string targetId); [apply identifiedBy_state|simpl; auto]. }
  destruct (String.eqb request "exit").
  { unfold exitSequencingRequestProcess.
    destruct (currentActivity (session e)) as [cur|]; [|simpl; auto].
    destruct (parent cur) as [p|]; [|simpl; auto].
    destruct (flowSubprocess clk e fuel p false false) as [c clk1]. simpl.
    apply identified_state. }
  destruct (String.eqb request "exitAll"); [simpl; auto|].
  destruct (String.eqb request "abandon"); [apply identifiedBy_state|].
  destruct (String.eqb request "abandonAll"); [simpl; auto|].
  simpl. auto.
Qed.

Lemma deliveryRequestProcess_delivered clk a e r e' clk' :
  deliveryRequestProcess clk a e = (Some r, e', clk') →
  r = a
  ∧ fst (isActivityDeliverable clk e a) = true
  ∧ (e', clk')
    = sequencingRulesCheckProcess (snd (isActivityDeliverable clk e a)) a EntryEvent
        (updState a (set_activityIsActive true) (set_currentActivity a e)).
Proof.
  unfold deliveryRequestProcess.
  destruct (isActivityDeliverable clk e a) as [[] clk1]; simpl; [|done].
  destruct (sequencingRulesCheckProcess clk1 a EntryEvent _) as [e2 clk2].
  intros; by simplify_eq.
Qed.

Lemma deliveryRequestProcess_refused clk a e e' clk' :
  deliveryRequestProcess clk a e = (None, e', clk') → e' = e.
Proof.
  unfold deliveryRequestProcess.
  destruct (isActivityDeliverable clk e a) as [[] clk1]; simpl.
  - by destruct (sequencingRulesCheckProcess clk1 a EntryEvent _).
  - intros; by simplify_eq.
Qed.

(** A property [I] of the engine is kept by every request when the quiet
    assignments keep it, a property [J] takes over once the current
    activity has been deactivated, and delivering re-establishes [I]. *)
Section RequestPreservation.
Variables I J : Engine → Prop.
Hypothesis I_state : ∀ r f e, quiet f → I e → I (updState r f e).
Hypothesis I_end : ∀ b e, I e → I (set_endSession b e).
Hypothesis J_state : ∀ r f e, quiet f → J e → J (updState r f e).
Hypothesis J_end : ∀ b e, J e → J (set_endSession b e).
Hypothesis I_J_idle : ∀ e, I e → currentActivity (session e) = None → J e.
Hypothesis I_J_terminate :
  ∀ e cur, I e → currentActivity (session e) = Some cur →
           J (updState cur (set_activityIsActive false) e).
Hypothesis J_I : ∀ e, J e → I e.
Hypothesis J_deliver :
  ∀ e a, J e → I (updState a (set_activityIsActive true) (set_currentActivity a e)).

Lemma terminated_J clk e :
  I e →
  J (fst (if bool_decide (is_Some (currentActivity (session e)))
          then terminationRequestProcess clk e else (e, clk))).
Proof.
  intros He. destruct (currentActivity (session e)) as [cur|] eqn:Hcur.
  - rewrite bool_decide_eq_true_2 by done.
    unfold terminationRequestProcess. rewrite Hcur.
    pose proof (sequencingRulesCheckProcess_pres J J_state J_end clk cur ExitEvent
                  (updState cur (set_activityIsActive false) e)) as H1.
    destruct (sequencingRulesCheckProcess clk cur ExitEvent _) as [e1 clk1].
    apply (rollupProcess_pres J J_state). eauto.
  - rewrite bool_decide_eq_false_2 by (by intros [? ?]). simpl. eauto.
Qed.

Lemma overallSequencingProcess_pres clk fuel request targetId e :
  I e → I (snd (overallSequencingProcess clk fuel request targetId e)).
Proof.
  intros He. unfold overallSequencingProcess. cbv zeta.
  destruct (negb (valid _)); [by apply I_end|].
  pose proof (terminated_J clk _ (I_end false _ He)) as HJ.
  destruct (if bool_decide _ then _ else _) as [e1 clk1]. simpl in HJ.
  pose proof (sequencingRequestProcess_state clk1 e1 fuel request targetId) as Hst.
  destruct (sequencingRequestProcess clk1 e1 fuel request targetId)
    as [[[sr|] e2] clk2]; simpl in Hst.
  - assert (J e2) as HJ2 by (destruct Hst as [-> | ->]; eauto).
    destruct (seq_valid sr), (seq_activity sr) as [a|]; simpl; eauto.
    destruct (deliveryRequestProcess clk2 a e2) as [[[r|] e3] clk3] eqn:Hdel; simpl.
    + apply deliveryRequestProcess_delivered in Hdel as (_ & _ & Hentry).
      replace e3 with (fst (e3, clk3)) by done. rewrite Hentry.
      apply (sequencingRulesCheckProcess_pres I I_state I_end). eauto.
    + apply deliveryRequestProcess_refused in Hdel as ->. eauto.
  - simpl. destruct Hst as [-> | ->]; eauto.
Qed.
End RequestPreservation.

(** ** Invariants of the reachable states *)

Lemma quiet_active f st :
  quiet f → activityIsActive (f st) = true → activityIsActive st = true.
Proof. by intros []. Qed.

Lemma quiet_consistent f st :
  quiet f → status_consistent st → status_consistent (f st).
Proof.
  intros Hq [Hc Ho]. destruct Hq as [|c| |id satisfied].
  - by split.
  - by split.
  - split; [done|]. intros id ob Hlook.
    cbn [objectives initializeActivityState] in Hlook.
    by rewrite lookup_empty in Hlook.
  - split; [done|]. simpl. intros id' ob Hlook Hsat.
    destruct (decide (id = id')) as [->|Hne].
    + rewrite lookup_insert_eq in Hlook. by simplify_eq.
    + rewrite lookup_insert_ne in Hlook by done. by eapply Ho.
Qed.

Lemma newEngine_state m e r :
  newEngine m = Some e → stateOf e r = initializeActivityState.
Proof.
  unfold newEngine. destruct (buildActivityTree m); [|done].
  intros. by simplify_eq.
Qed.

Lemma newEngine_idle m e : newEngine m = Some e → currentActivity (session e) = None.
Proof.
  unfold newEngine. destruct (buildActivityTree m); [|done].
  intros. by simplify_eq.
Qed.

Lemma none_active_updState r f e :
  quiet f → none_active e → none_active (updState r f e).
Proof.
  intros Hq He q. rewrite stateOf_updState. case_decide; [|done].
  apply not_true_is_false. intros Hact%(quiet_active _ _ Hq). by rewrite He in Hact.
Qed.

Lemma single_active_updState r f e :
  quiet f → single_active e → single_active (updState r f e).
Proof.
  intros Hq He q. rewrite stateOf_updState. case_decide as Hrq.
  - subst q. intros Hact%(quiet_active _ _ Hq). by apply He.
  - apply He.
Qed.

Lemma overallSequencingProcess_single_active clk fuel request targetId e :
  single_active e →
  single_active (snd (overallSequencingProcess clk fuel request targetId e)).
Proof.
  apply (overallSequencingProcess_pres single_active none_active).
  - intros. by apply single_active_updState.
  - intros b e' He'. exact He'.
  - intros. by apply none_active_updState.
  - intros b e' He'. exact He'.
  - intros e' He' Hidle r. apply not_true_is_false. intros Hact%He'. congruence.
  - intros e' cur He' Hcur r. rewrite stateOf_updState. case_decide as Hr; [done|].
    apply not_true_is_false. intros Hact%He'. congruence.
  - intros e' He' r Hact. by rewrite He' in Hact.
  - intros e' a He' r. rewrite stateOf_updState. case_decide as Hr.
    + by subst.
    + intros Hact. change (stateOf (set_currentActivity a e') r) with (stateOf e' r) in Hact.
      by rewrite He' in Hact.
Qed.

Lemma reachable_single_active m e : reachable m e → single_active e.
Proof.
  induction 1 as [e Hnew | clk fuel request targetId e _ IH].
  - intros r. by rewrite (newEngine_state m e r Hnew).
  - by apply overallSequencingProcess_single_active.
Qed.

(** C3: in every state reached by a sequence of navigation requests, two
    activities with [activityIsActive = true] are the same activity. *)
Theorem at_most_one_active m e p q :
  reachable m e →
  activityIsActive (stateOf e p) = true →
  activityIsActive (stateOf e q) = true →
  p = q.
Proof.
  intros Hreach Hp%(reachable_single_active m e Hreach)
         Hq%(reachable_single_active m e Hreach).
  congruence.
Qed.

Lemma at_most_one_active_witness :
  ∃ e, reachable Examples.twoLeaves e
       ∧ activityIsActive (stateOf e [0]) = true
       ∧ [0] = [0].
Proof.
  assert (∃ e0, newEngine Examples.twoLeaves = Some e0) as [e0 Hnew] by by eexists.
  exists (snd (overallSequencingProcess Examples.clock0 1 "choice" (Some "A") e0)).
  assert (reachable Examples.twoLeaves
            (snd (overallSequencingProcess Examples.clock0 1 "choice" (Some "A") e0)))
    as Hreach by (apply reachable_request, reachable_new, Hnew).
  assert (activityIsActive
            (stateOf (snd (overallSequencingProcess Examples.clock0 1 "choice"
                             (Some "A") e0)) [0]) = true) as Hact.
  { vm_compute in Hnew. injection Hnew as <-. vm_compute. reflexivity. }
  split; [exact Hreach|]. split; [exact Hact|].
  exact (at_most_one_active _ _ [0] [0] Hreach Hact Hact).
Defined.

Lemma statuses_consistent_updState r f e :
  (∀ st, status_consistent st → status_consistent (f st)) →
  statuses_consistent e → statuses_consistent (updState r f e).
Proof.
  intros Hf [Hs Hg]. split; [|exact Hg].
  intros q. rewrite stateOf_updState. case_decide; [apply Hf|]; apply Hs.
Qed.

Lemma overallSequencingProcess_consistent clk fuel request targetId e :
  statuses_consistent e →
  statuses_consistent (snd (overallSequencingProcess clk fuel request targetId e)).
Proof.
  apply (overallSequencingProcess_pres statuses_consistent statuses_consistent).
  - intros r f e' Hq. apply statuses_consistent_updState. intros st. by apply quiet_consistent.
  - intros b e' He'. exact He'.
  - intros r f e' Hq. apply statuses_consistent_updState. intros st. by apply quiet_consistent.
  - intros b e' He'. exact He'.
  - done.
  - intros e' cur He' _. apply statuses_consistent_updState; [|done].
    intros st. apply quiet_consistent. constructor.
  - done.
  - intros e' a He'.
    apply (statuses_consistent_updState a (set_activityIsActive true)
             (set_currentActivity a e')); [|exact He'].
    by intros st [? ?].
Qed.

Lemma reachable_consistent m e : reachable m e → statuses_consistent e.
Proof.
  induction 1 as [e Hnew | clk fuel request targetId e _ IH].
  - split.
    + intros r. rewrite (newEngine_state m e r Hnew). split; [done|].
      intros id ob Hlook. cbn [objectives initializeActivityState] in Hlook.
      by rewrite lookup_empty in Hlook.
    + unfold newEngine in Hnew. destruct (buildActivityTree m); [|done].
      simplify_eq. intros id ob Hlook. cbn in Hlook.
      by rewrite lookup_empty in Hlook.
  - by apply overallSequencingProcess_consistent.
Qed.

(** C10: in every reachable state, for every activity,
    [activityCompletionStatus = true] implies [activityProgressStatus = true],
    and for every objective state of an activity or of the global objectives,
    [objectiveSatisfiedStatus = true] implies [objectiveProgressStatus = true]. *)
Theorem status_implies_known m e :
  reachable m e →
  (∀ r, activityCompletionStatus (stateOf e r) = true →
        activityProgressStatus (stateOf e r) = true)
  ∧ (∀ r id ob, objectives (stateOf e r) !! id = Some ob →
                objectiveSatisfiedStatus ob = true →
                objectiveProgressStatus ob = true)
  ∧ (∀ id ob, globalObjectives (session e) !! id = Some ob →
              objectiveSatisfiedStatus ob = true →
              objectiveProgressStatus ob = true).
Proof.
  intros [Hs Hg]%reachable_consistent. split; [|split].
  - intros r. apply Hs.
  - intros r. apply Hs.
  - exact Hg.
Qed.

Lemma status_implies_known_witness :
  ∃ e, reachable (Examples.skipManifest CombAll) e
       ∧ activityCompletionStatus (stateOf e [1; 0]) = true
       ∧ activityProgressStatus (stateOf e [1; 0]) = true.
Proof.
  assert (∃ e0, newEngine (Examples.skipManifest CombAll) = Some e0) as [e0 Hnew]
    by by eexists.
  exists (snd (overallSequencingProcess Examples.clock0 1 "choice" (Some "A") e0)).
  assert (reachable (Examples.skipManifest CombAll)
            (snd (overallSequencingProcess Examples.clock0 1 "choice" (Some "A") e0)))
    as Hreach by (apply reachable_request, reachable_new, Hnew).
  assert (activityCompletionStatus
            (stateOf (snd (overallSequencingProcess Examples.clock0 1 "choice"
                             (Some "A") e0)) [1; 0]) = true) as Hdone.
  { vm_compute in Hnew. injection Hnew as <-. vm_compute. reflexivity. }
  split; [exact Hreach|]. split; [exact Hdone|].
  exact (proj1 (status_implies_known _ _ Hreach) [1; 0] Hdone).
Defined.

(** ** What is delivered *)

Lemma overallSequencingProcess_tree clk fuel request targetId e :
  tree (snd (overallSequencingProcess clk fuel request targetId e)) = tree e.
Proof.
  by apply (overallSequencingProcess_pres (fun e' => tree e' = tree e)
              (fun e' => tree e' = tree e)).
Qed.

Lemma reachable_tree m e : reachable m e → buildActivityTree m = Some (tree e).
Proof.
  induction 1 as [e Hnew | clk fuel request targetId e _ IH].
  - unfold newEngine in Hnew. destruct (buildActivityTree m); [|done]. by simplify_eq.
  - by rewrite overallSequencingProcess_tree.
Qed.

(** The root is created with [isLeaf = true] and keeps the placeholder
    item: flowing into it finds neither a deliverable leaf nor children
    to enter, whatever the manifest. *)
Lemma buildActivityTree_root m t :
  buildActivityTree m = Some t → isLeaf t = true ∧ item t = None.
Proof.
  unfold buildActivityTree. destruct (organizations m); [done|].
  intros [= <-]. by split.
Qed.

Lemma start_never_delivers m e clk fuel :
  reachable m e → startSequencingRequestProcess clk e (S fuel) = (Normal None, clk).
Proof.
  intros [Hleaf Hitem]%reachable_tree%buildActivityTree_root.
  unfold startSequencingRequestProcess.
  destruct (negb (isChoiceValid e [])); [done|].
  simpl. unfold isActivityDeliverable, deref. simpl.
  by rewrite Hleaf, Hitem.
Qed.

Lemma terminated_frame clk e :
  same_frame e (fst (if bool_decide (is_Some (currentActivity (session e)))
                     then terminationRequestProcess clk e else (e, clk))).
Proof.
  case_bool_decide; [apply terminationRequestProcess_frame | apply same_frame_refl].
Qed.

(** A delivered activity passed the delivery gate, in a state with the same
    tree, and is the current activity afterwards. *)
Lemma overallSequencingProcess_delivered clk fuel request targetId e r :
  fst (overallSequencingProcess clk fuel request targetId e) = Normal (Some r) →
  ∃ e2 clk2, tree e2 = tree e
        ∧ fst (isActivityDeliverable clk2 e2 r) = true
        ∧ currentActivity (session (snd (overallSequencingProcess clk fuel request
                                           targetId e))) = Some r.
Proof.
  unfold overallSequencingProcess. cbv zeta.
  destruct (negb (valid _)); [done|].
  pose proof (same_frame_tree _ _ (terminated_frame clk (set_endSession false e)))
    as Htree.
  destruct (if bool_decide _ then _ else _) as [e1 clk1]. simpl in Htree.
  pose proof (sequencingRequestProcess_state clk1 e1 fuel request targetId) as Hst.
  destruct (sequencingRequestProcess clk1 e1 fuel request targetId)
    as [[[sr|] e2] clk2]; simpl in Hst; [|done].
  assert (tree e2 = tree e) as Htree2 by (by destruct Hst as [-> | ->]).
  destruct (seq_valid sr), (seq_activity sr) as [a|]; simpl; try done.
  destruct (deliveryRequestProcess clk2 a e2) as [[[r'|] e3] clk3] eqn:Hdel; simpl;
    [|done].
  intros [= ->]. apply deliveryRequestProcess_delivered in Hdel as (-> & Hgate & Hentry).
  exists e2, clk2. split; [done|]. split; [done|].
  replace e3 with (fst (e3, clk3)) by done. rewrite Hentry.
  by rewrite (same_frame_current _ _ (sequencingRulesCheckProcess_frame _ a EntryEvent _)).
Qed.

Lemma isActivityDeliverable_gate clk e r :
  fst (isActivityDeliverable clk e r) = true →
  ∃ a ref, deref (tree e) r = Some a
           ∧ isLeaf a = true
           ∧ item a ≫= identifierref = Some ref
           ∧ ref ≠ "".
Proof.
  unfold isActivityDeliverable.
  destruct (deref (tree e) r) as [a|]; [|done].
  destruct (isLeaf a) eqn:Hleaf; [|done]. simpl.
  destruct (item a ≫= identifierref) as [ref|] eqn:Href; [|done]. simpl.
  destruct (String.eqb_spec ref "") as [|Hne]; [done|]. intros _.
  by exists a, ref.
Qed.


(** In the tree built from a manifest, an activity made from an item is
    flagged as a leaf only if it has no children. *)
Lemma buildActivityChild_leaf it :
  ∀ depth path a,
    resolve (buildActivityChild depth it) path = Some a →
    isLeaf a = true → children a = [].
Proof.
  induction it as [id t ref vis sub sq IH] using SCORMItem_ind'.
  intros depth [|i rest] a Hres Hleaf.
  - simpl in Hres. simplify_eq. simpl in *.
    destruct sub as [[|c l]|]; simpl in *; done.
  - simpl in Hres. destruct sub as [l|]; simpl in *; [|done].
    rewrite list_lookup_fmap in Hres.
    destruct (l !! i) as [c|] eqn:Hc; simpl in Hres; [|done].
    rewrite Forall_lookup in IH. by eapply (IH i c Hc).
Qed.

Lemma buildActivityTree_leaf m t r a ref :
  buildActivityTree m = Some t →
  deref t r = Some a →
  isLeaf a = true →
  item a ≫= identifierref = Some ref →
  children a = [].
Proof.
  unfold buildActivityTree, deref.
  destruct (organizations m) as [|org orgs]; [done|]. intros [= <-].
  destruct (rev r) as [|i rest]; simpl.
  - intros [= <-]. done.
  - unfold buildActivityChildren. rewrite list_lookup_fmap.
    destruct (items org !! i) as [it|]; simpl; [|done].
    intros Hres Hleaf _. by eapply buildActivityChild_leaf.
Qed.

(** C5: whatever the request, an identifier returned by
    [processNavigationRequest] is that of the activity delivered by the
    overall sequencing process, and this activity is a leaf (flagged as one
    and without children) bound to a non-empty [identifierref]. *)
Theorem delivered_activity_is_resource_leaf m e clk fuel request targetId id :
  reachable m e →
  fst (processNavigationRequest clk fuel request targetId e) = Normal (Some id) →
  ∃ r a ref,
    fst (overallSequencingProcess clk fuel request targetId e) = Normal (Some r)
    ∧ deref (tree e) r = Some a
    ∧ identifier a = id
    ∧ isLeaf a = true
    ∧ children a = []
    ∧ item a ≫= identifierref = Some ref
    ∧ ref ≠ "".
Proof.
  intros Hreach. unfold processNavigationRequest.
  pose proof (overallSequencingProcess_tree clk fuel request targetId e) as Htree.
  pose proof (overallSequencingProcess_delivered clk fuel request targetId e) as Hdel.
  destruct (overallSequencingProcess clk fuel request targetId e) as [[[r|]|] e'];
    simpl in *; try done.
  destruct (Hdel r eq_refl) as (e2 & clk2 & Htree2 & Hgate & _).
  apply isActivityDeliverable_gate in Hgate as (a & ref & Ha & Hleaf & Hitem & Href).
  rewrite Htree2 in Ha. unfold identifierOrNull. simpl. rewrite Htree, Ha.
  destruct (String.eqb (identifier a) ""); intros [= <-].
  exists r, a, ref. repeat split; try done.
  eapply buildActivityTree_leaf; eauto using reachable_tree.
Qed.

Lemma delivered_activity_is_resource_leaf_witness :
  ∃ e0, reachable Examples.twoLeaves e0
    ∧ fst (processNavigationRequest Examples.clock0 1 "choice" (Some "B") e0)
      = Normal (Some "B")
    ∧ ∃ r a ref,
        fst (overallSequencingProcess Examples.clock0 1 "choice" (Some "B") e0)
        = Normal (Some r)
        ∧ deref (tree e0) r = Some a
        ∧ identifier a = "B"
        ∧ isLeaf a = true
        ∧ children a = []
        ∧ item a ≫= identifierref = Some ref
        ∧ ref ≠ "".
Proof.
  assert (∃ e0, newEngine Examples.twoLeaves = Some e0) as [e0 Hnew] by by eexists.
  exists e0.
  assert (reachable Examples.twoLeaves e0) as Hreach by apply reachable_new, Hnew.
  assert (fst (processNavigationRequest Examples.clock0 1 "choice" (Some "B") e0)
          = Normal (Some "B")) as Hres.
  { vm_compute in Hnew. injection Hnew as <-. vm_compute. reflexivity. }
  split; [exact Hreach|]. split; [exact Hres|].
  exact (delivered_activity_is_resource_leaf _ _ _ _ _ _ _ Hreach Hres).
Defined.

(** ** Rollup touches the ancestors only *)

Lemma executeRollupAction_other act r e q :
  q ≠ r → stateOf (executeRollupAction act r e) q = stateOf e q.
Proof.
  intros Hne. unfold executeRollupAction, setObjectiveSatisfiedStatus.
  repeat case_match; try done; by rewrite stateOf_updState_ne.
Qed.

Lemma applyDefaultRollup_other r a e q :
  q ≠ r → stateOf (applyDefaultRollup r a e) q = stateOf e q.
Proof.
  intros Hne. unfold applyDefaultRollup, setObjectiveSatisfiedStatus. cbv zeta.
  repeat case_match; rewrite ?stateOf_updState_ne; done.
Qed.

Lemma applyRollupRule_other clk rule r a e q :
  q ≠ r → stateOf (fst (applyRollupRule clk rule r a e)) q = stateOf e q.
Proof.
  intros Hne. unfold applyRollupRule.
  destruct (forEach _ clk (childRefs r a)) as [childResults clk']. simpl.
  case_match; [by apply executeRollupAction_other | done].
Qed.

Lemma rollupActivityState_other clk r e q :
  q ≠ r → stateOf (fst (rollupActivityState clk r e)) q = stateOf e q.
Proof.
  intros Hne. unfold rollupActivityState.
  destruct (deref (tree e) r) as [a|]; [|done].
  destruct (isLeaf a); [done|].
  destruct ((sequencingDefinition a ≫= rollupRules) ≫= rollupRule) as [rules|];
    [|by apply applyDefaultRollup_other].
  revert e clk. induction rules as [|rule rules IHr]; intros e clk; simpl; [done|].
  pose proof (applyRollupRule_other clk rule r a e q Hne) as H1.
  destruct (applyRollupRule clk rule r a e) as [e1 clk1]. simpl in H1.
  by rewrite IHr.
Qed.

Lemma rollupProcess_other r :
  ∀ clk e q, ¬ q `suffix_of` r → stateOf (fst (rollupProcess clk r e)) q = stateOf e q.
Proof.
  induction r as [|i p IHp]; intros clk e q Hq; simpl.
  - pose proof (rollupActivityState_other clk [] e q) as H1.
    destruct (rollupActivityState clk [] e) as [e1 clk1]. simpl in *.
    apply H1. by intros ->.
  - pose proof (rollupActivityState_other clk (i :: p) e q) as H1.
    destruct (rollupActivityState clk (i :: p) e) as [e1 clk1]. simpl in *.
    rewrite IHp by (intros Hs; apply Hq; by apply suffix_cons_r).
    apply H1. by intros ->.
Qed.

Lemma not_suffix_parent (i : nat) (p : ActivityRef) : ¬ (i :: p) `suffix_of` p.
Proof. intros H%suffix_length. simpl in H. lia. Qed.

Lemma rollupActivityState_leaf clk r e a :
  deref (tree e) r = Some a → isLeaf a = true →
  rollupActivityState clk r e = (e, clk).
Proof. intros Ha Hleaf. unfold rollupActivityState. by rewrite Ha, Hleaf. Qed.

(** ** Ending the session keeps the current activity *)

Lemma overallSequencingProcess_endAll clk fuel request targetId e cur :
  request = "exitAll" ∨ request = "abandonAll" →
  currentActivity (session e) = Some cur →
  overallSequencingProcess clk fuel request targetId e
  = (Normal None,
     set_endSession true
       (fst (terminationRequestProcess clk (set_endSession false e)))).
Proof.
  intros Hreq Hcur. unfold overallSequencingProcess. cbv zeta.
  change (currentActivity (session (set_endSession false e)))
    with (currentActivity (session e)).
  rewrite Hcur. rewrite bool_decide_eq_true_2 by done.
  destruct (terminationRequestProcess clk (set_endSession false e)) as [e1 clk1].
  by destruct Hreq as [-> | ->].
Qed.

Lemma terminationRequestProcess_inactive clk e cur :
  currentActivity (session e) = Some cur →
  activityIsActive (stateOf (fst (terminationRequestProcess clk e)) cur) = false.
Proof.
  intros Hcur. unfold terminationRequestProcess. rewrite Hcur.
  set (I := fun e' : Engine => activityIsActive (stateOf e' cur) = false).
  assert (∀ r f e', quiet f → I e' → I (updState r f e')) as I_state.
  { intros r f e' Hq He'. unfold I in *. rewrite stateOf_updState.
    case_decide as Hr; [|done]. subst r.
    apply not_true_is_false. intros Hact%(quiet_active _ _ Hq). congruence. }
  assert (∀ b e', I e' → I (set_endSession b e')) as I_end by done.
  pose proof (sequencingRulesCheckProcess_pres I I_state I_end clk cur ExitEvent
                (updState cur (set_activityIsActive false) e)) as H1.
  destruct (sequencingRulesCheckProcess clk cur ExitEvent _) as [e1 clk1].
  apply (rollupProcess_pres I I_state). apply H1.
  unfold I. by rewrite stateOf_updState_eq.
Qed.

(** C9: after an [exitAll] or [abandonAll] request issued while an activity
    is current, the request returns null, the current-activity reference is
    the same, [getCurrentActivity] returns the same identifier, the
    activity's [activityIsActive] flag is false, [endSession] is true, and
    [getAvailableNavigationRequests] is not empty.  When the current
    activity is a leaf without sequencing rules, clearing the flag is the
    only change to its state. *)
Theorem endAll_keeps_current_activity clk fuel request targetId e cur :
  request = "exitAll" ∨ request = "abandonAll" →
  currentActivity (session e) = Some cur →
  let res := processNavigationRequest clk fuel request targetId e in
  fst res = Normal None
  ∧ currentActivity (session (snd res)) = Some cur
  ∧ getCurrentActivity (snd res) = getCurrentActivity e
  ∧ activityIsActive (stateOf (snd res) cur) = false
  ∧ endSession (snd res) = true
  ∧ getAvailableNavigationRequests (snd res) ≠ []
  ∧ (∀ a, deref (tree e) cur = Some a →
          isLeaf a = true →
          sequencingDefinition a ≫= sequencingRules = None →
          stateOf (snd res) cur = set_activityIsActive false (stateOf e cur)).
Proof.
  intros Hreq Hcur. cbv zeta. unfold processNavigationRequest.
  rewrite (overallSequencingProcess_endAll clk fuel request targetId e cur Hreq Hcur).
  cbn [fst snd].
  pose proof (terminationRequestProcess_frame clk (set_endSession false e)) as Hframe.
  assert (currentActivity
            (session (set_endSession true
                        (fst (terminationRequestProcess clk (set_endSession false e)))))
          = Some cur) as Hcur'.
  { change (currentActivity (session (fst (terminationRequestProcess clk
                                             (set_endSession false e)))) = Some cur).
    by rewrite (same_frame_current _ _ Hframe). }
  split; [done|]. split; [exact Hcur'|]. split; [|split; [|split; [|split]]].
  - unfold getCurrentActivity. rewrite Hcur', Hcur.
    change (tree (set_endSession true
                    (fst (terminationRequestProcess clk (set_endSession false e)))))
      with (tree (fst (terminationRequestProcess clk (set_endSession false e)))).
    by rewrite (same_frame_tree _ _ Hframe).
  - by apply (terminationRequestProcess_inactive clk (set_endSession false e)).
  - done.
  - unfold getAvailableNavigationRequests. rewrite Hcur'.
    intros Hnil. apply (f_equal length) in Hnil.
    rewrite !length_app in Hnil. simpl in Hnil. lia.
  - intros a Ha Hleaf Hrules.
    change (stateOf (fst (terminationRequestProcess clk (set_endSession false e))) cur
            = set_activityIsActive false (stateOf e cur)).
    unfold terminationRequestProcess.
    change (currentActivity (session (set_endSession false e)))
      with (currentActivity (session e)).
    rewrite Hcur.
    assert (sequencingRulesCheckProcess clk cur ExitEvent
              (updState cur (set_activityIsActive false) (set_endSession false e))
            = (updState cur (set_activityIsActive false) (set_endSession false e), clk))
      as ->.
    { unfold sequencingRulesCheckProcess, sequencingDefinitionOf.
      change (tree (updState cur (set_activityIsActive false) (set_endSession false e)))
        with (tree e).
      rewrite Ha. simpl. by rewrite Hrules. }
    set (e1 := updState cur (set_activityIsActive false) (set_endSession false e)).
    assert (rollupActivityState clk cur e1 = (e1, clk)) as Hleaf1
      by exact (rollupActivityState_leaf clk cur e1 a Ha Hleaf).
    assert (stateOf e1 cur = set_activityIsActive false (stateOf e cur)) as <-
      by (unfold e1; by rewrite stateOf_updState_eq).
    destruct cur as [|i p]; cbn [rollupProcess]; rewrite Hleaf1; [done|].
    by rewrite rollupProcess_other by apply not_suffix_parent.
Qed.

Lemma endAll_keeps_current_activity_witness :
  ∃ e0, newEngine Examples.twoLeaves = Some e0
    ∧ let eA := snd (processNavigationRequest Examples.clock0 1 "choice" (Some "A") e0) in
      currentActivity (session eA) = Some [0]
      ∧ getCurrentActivity
          (snd (processNavigationRequest Examples.clock0 1 "exitAll" None eA))
        = getCurrentActivity eA
      ∧ getCurrentActivity eA = Some "A".
Proof.
  eexists. split; [reflexivity|]. cbv zeta.
  split; [reflexivity|]. split; [|reflexivity].
  match goal with
  | |- getCurrentActivity (snd (processNavigationRequest _ _ _ _ ?eA)) = _ =>
      exact (proj1 (proj2 (proj2
               (endAll_keeps_current_activity Examples.clock0 1 "exitAll" None eA [0]
                  (or_introl eq_refl) eq_refl))))
  end.
Defined.


(** ** Default rollup *)

Lemma childRefs_parent r a ch : ch ∈ childRefs r a → ∃ j, ch = j :: r.
Proof.
  unfold childRefs. intros (j & c & -> & _)%elem_of_lookup_imap. by exists j.
Qed.

Lemma forallb_agree {A : Type} (f g : A → bool) (l : list A) :
  (∀ x, x ∈ l → f x = g x) → forallb f l = forallb g l.
Proof.
  induction l as [|x l IHl]; intros Hfg; simpl; [done|].
  rewrite (Hfg x) by apply list_elem_of_here.
  rewrite IHl; [done|]. intros y Hy. apply Hfg. by apply list_elem_of_further.
Qed.

Lemma forallb_elem_of {A : Type} (f : A → bool) (l : list A) :
  forallb f l = true ↔ ∀ x, x ∈ l → f x = true.
Proof.
  rewrite forallb_forall. split; intros H x Hx; apply H; by apply list_elem_of_In.
Qed.

Lemma child_ne_parent (j : nat) (r : ActivityRef) : j :: r ≠ r.
Proof. intros H. apply (f_equal length) in H. simpl in H. lia. Qed.

Lemma applyDefaultRollup_complete r a e :
  isComplete (applyDefaultRollup r a e) r
  = forallb (isComplete e) (childRefs r a) || isComplete e r.
Proof.
  unfold applyDefaultRollup, setObjectiveSatisfiedStatus. cbv zeta.
  change (forallb (fun child => activityProgressStatus (stateOf e child)
                                && activityCompletionStatus (stateOf e child))
                  (childRefs r a))
    with (forallb (isComplete e) (childRefs r a)).
  destruct (forallb (isComplete e) (childRefs r a)); simpl.
  - unfold isComplete. case_match; rewrite ?stateOf_updState_eq; done.
  - unfold isComplete. case_match; rewrite ?stateOf_updState_eq; done.
Qed.

Lemma applyDefaultRollup_satisfied r a e :
  getObjectiveSatisfiedStatus (applyDefaultRollup r a e) r None
  = forallb (fun child => getObjectiveSatisfiedStatus e child None) (childRefs r a)
    || getObjectiveSatisfiedStatus e r None.
Proof.
  unfold applyDefaultRollup. cbv zeta.
  set (e1 := if forallb _ (childRefs r a) then updState r (set_completion true) e else e).
  assert (∀ q, objectives (stateOf e1 q) = objectives (stateOf e q)) as Hobj.
  { intros q. unfold e1. case_match; [|done].
    rewrite stateOf_updState. by case_decide; subst. }
  assert (∀ q, getObjectiveSatisfiedStatus e1 q None = getObjectiveSatisfiedStatus e q None)
    as Hsat.
  { intros q. unfold getObjectiveSatisfiedStatus, getObjective. by rewrite Hobj. }
  rewrite (forallb_agree _ (fun child => getObjectiveSatisfiedStatus e child None))
    by (intros; apply Hsat).
  clearbody e1.
  destruct (forallb (fun child => getObjectiveSatisfiedStatus e child None)
                    (childRefs r a)); simpl; [|apply Hsat].
  unfold getObjectiveSatisfiedStatus, getObjective, setObjectiveSatisfiedStatus.
  rewrite stateOf_updState_eq. simpl. by rewrite lookup_insert_eq.
Qed.

Lemma rollupProcess_at clk r e q :
  r `suffix_of` q →
  stateOf (fst (rollupProcess clk r e)) q
  = stateOf (fst (rollupActivityState clk r e)) q.
Proof.
  intros Hs. destruct r as [|i p]; simpl.
  - by destruct (rollupActivityState clk [] e).
  - destruct (rollupActivityState clk (i :: p) e) as [e1 clk1]. simpl.
    apply rollupProcess_other. intros Hq.
    apply (not_suffix_parent i p). by etrans.
Qed.

Lemma rollupActivityState_tree clk r e :
  tree (fst (rollupActivityState clk r e)) = tree e.
Proof.
  apply (same_frame_tree e).
  apply (rollupActivityState_pres (same_frame e)); auto using same_frame_refl.
Qed.

(** Climbing from a descendant [l ++ p] up to [p] changes no activity at the
    depth of [p] or above. *)
Lemma rollupProcess_below (l p : ActivityRef) :
  ∀ clk e, ∃ e_mid clk_mid,
    rollupProcess clk (l ++ p)%list e = rollupProcess clk_mid p e_mid
    ∧ tree e_mid = tree e
    ∧ ∀ q : ActivityRef, length q ≤ length p → stateOf e_mid q = stateOf e q.
Proof.
  induction l as [|i l IHl]; intros clk e.
  - by exists e, clk.
  - pose proof (rollupActivityState_tree clk ((i :: l) ++ p)%list e) as Htree1.
    pose proof (rollupActivityState_other clk ((i :: l) ++ p)%list e) as Hother.
    simpl. simpl in Htree1, Hother.
    destruct (rollupActivityState clk (i :: l ++ p)%list e) as [e1 clk1].
    simpl in Htree1, Hother.
    destruct (IHl clk1 e1) as (e_mid & clk_mid & Hroll & Htree & Hstates).
    exists e_mid, clk_mid. split; [exact Hroll|]. split.
    + by rewrite Htree.
    + intros q Hq. rewrite Hstates by done.
      apply Hother. intros ->.
      simpl in Hq. rewrite length_app in Hq. lia.
Qed.

(** C7 (as amended): when termination runs on the current activity, every
    cluster above it (an ancestor not flagged as a leaf) whose sequencing
    definition carries no list of rollup rules is known+complete afterwards
    iff all its children are known+complete or it already was when the
    rollup started, and its primary objective is satisfied afterwards iff
    the primary objectives of all its children are satisfied or it already
    was; in particular, if all children of such a parent are known+complete
    after termination of the last of them, so is the parent.  A cluster
    that carries a list of rollup rules without any rule in it is not
    rolled up: its state is what it was when the rollup started. *)
Theorem default_rollup_after_termination clk e cur p a :
  currentActivity (session e) = Some cur →
  p `suffix_of` cur →
  deref (tree e) p = Some a → isLeaf a = false →
  let rules := (sequencingDefinition a ≫= rollupRules) ≫= rollupRule in
  let e1 := fst (sequencingRulesCheckProcess clk cur ExitEvent
                   (updState cur (set_activityIsActive false) e)) in
  let e' := fst (terminationRequestProcess clk e) in
  (rules = None →
   (isComplete e' p = true
    ↔ (∀ ch, ch ∈ childRefs p a → isComplete e' ch = true) ∨ isComplete e1 p = true)
   ∧ (getObjectiveSatisfiedStatus e' p None = true
      ↔ (∀ ch, ch ∈ childRefs p a → getObjectiveSatisfiedStatus e' ch None = true)
        ∨ getObjectiveSatisfiedStatus e1 p None = true)
   ∧ ((∀ ch, ch ∈ childRefs p a → isComplete e' ch = true) →
      activityProgressStatus (stateOf e' p) = true
      ∧ activityCompletionStatus (stateOf e' p) = true))
  ∧ (rules = Some [] → stateOf e' p = stateOf e1 p).
Proof.
  intros Hcur [l ->] Ha Haleaf. cbv zeta.
  assert (tree (fst (sequencingRulesCheckProcess clk (l ++ p)%list ExitEvent
                       (updState (l ++ p)%list (set_activityIsActive false) e)))
          = tree e) as Htree
    by exact (same_frame_tree (updState (l ++ p)%list (set_activityIsActive false) e) _
                (sequencingRulesCheckProcess_frame clk _ _ _)).
  assert (terminationRequestProcess clk e
          = rollupProcess
              (snd (sequencingRulesCheckProcess clk (l ++ p)%list ExitEvent
                      (updState (l ++ p)%list (set_activityIsActive false) e)))
              (l ++ p)%list
              (fst (sequencingRulesCheckProcess clk (l ++ p)%list ExitEvent
                      (updState (l ++ p)%list (set_activityIsActive false) e)))) as ->.
  { unfold terminationRequestProcess. rewrite Hcur.
    by destruct (sequencingRulesCheckProcess clk (l ++ p)%list ExitEvent _). }
  destruct (sequencingRulesCheckProcess clk (l ++ p)%list ExitEvent _) as [e1 clk1].
  simpl in Htree. simpl fst. simpl snd.
  destruct (rollupProcess_below l p clk1 e1)
    as (e_mid & clk_mid & -> & Htree_mid & Hmid).
  assert (stateOf (fst (rollupProcess clk_mid p e_mid)) p
          = stateOf (fst (rollupActivityState clk_mid p e_mid)) p) as Hat
    by (by apply rollupProcess_at).
  split.
  - intros Hrules.
    assert (rollupActivityState clk_mid p e_mid
            = (applyDefaultRollup p a e_mid, clk_mid)) as Hroll.
    { unfold rollupActivityState. by rewrite Htree_mid, Htree, Ha, Haleaf, Hrules. }
    assert (∀ ch, ch ∈ childRefs p a →
                  stateOf (fst (rollupProcess clk_mid p e_mid)) ch = stateOf e_mid ch)
      as Hch.
    { intros ch [j ->]%childRefs_parent.
      rewrite rollupProcess_at by apply suffix_cons_r, reflexivity.
      rewrite Hroll. apply applyDefaultRollup_other, child_ne_parent. }
    assert (stateOf (fst (rollupProcess clk_mid p e_mid)) p
            = stateOf (applyDefaultRollup p a e_mid) p)
      as Hp by (by rewrite Hat, Hroll).
    assert (isComplete (fst (rollupProcess clk_mid p e_mid)) p
            = forallb (isComplete e_mid) (childRefs p a) || isComplete e1 p)
      as Hcomplete.
    { unfold isComplete at 3. rewrite <- (Hmid p) by done.
      rewrite <- applyDefaultRollup_complete. unfold isComplete. by rewrite Hp. }
    assert (getObjectiveSatisfiedStatus (fst (rollupProcess clk_mid p e_mid)) p None
            = forallb (fun child => getObjectiveSatisfiedStatus e_mid child None)
                      (childRefs p a)
              || getObjectiveSatisfiedStatus e1 p None) as Hsatisfied.
    { unfold getObjectiveSatisfiedStatus at 3. unfold getObjective.
      rewrite <- (Hmid p) by done. rewrite <- applyDefaultRollup_satisfied.
      unfold getObjectiveSatisfiedStatus, getObjective. by rewrite Hp. }
    assert (isComplete (fst (rollupProcess clk_mid p e_mid)) p = true
            ↔ (∀ ch, ch ∈ childRefs p a →
                     isComplete (fst (rollupProcess clk_mid p e_mid)) ch = true)
              ∨ isComplete e1 p = true) as Hiff.
    { rewrite Hcomplete, orb_true_iff, forallb_elem_of.
      split; (intros [Hall|Hown]; [left|by right]); intros ch Hin;
        specialize (Hall ch Hin); unfold isComplete in Hall |- *.
      + by rewrite (Hch ch Hin).
      + by rewrite (Hch ch Hin) in Hall. }
    split; [exact Hiff|]. split.
    + rewrite Hsatisfied, orb_true_iff, forallb_elem_of.
      split; (intros [Hall|Hown]; [left|by right]); intros ch Hin;
        specialize (Hall ch Hin);
        unfold getObjectiveSatisfiedStatus, getObjective in Hall |- *.
      * by rewrite (Hch ch Hin).
      * by rewrite (Hch ch Hin) in Hall.
    + intros Hall. apply andb_true_iff.
      fold (isComplete (fst (rollupProcess clk_mid p e_mid)) p). apply Hiff. by left.
  - intros Hrules. rewrite Hat.
    assert (rollupActivityState clk_mid p e_mid = (e_mid, clk_mid)) as ->.
    { unfold rollupActivityState. by rewrite Htree_mid, Htree, Ha, Haleaf, Hrules. }
    simpl. by apply Hmid.
Qed.

Lemma default_rollup_after_termination_witness :
  ∃ e0, newEngine Examples.rollupCourse = Some e0
    ∧ let e1 := snd (processNavigationRequest Examples.clock0 1 "choice" (Some "a") e0) in
      let e2 := snd (processNavigationRequest Examples.clock0 1 "choice" (Some "b") e1) in
      currentActivity (session e2) = Some [1; 0]
      ∧ isComplete e2 [0] = false
      ∧ activityProgressStatus
          (stateOf (fst (terminationRequestProcess Examples.clock0 e2)) [0]) = true
      ∧ activityCompletionStatus
          (stateOf (fst (terminationRequestProcess Examples.clock0 e2)) [0]) = true.
Proof.
  eexists. split; [reflexivity|]. cbv zeta.
  split; [vm_compute; reflexivity|]. split; [vm_compute; reflexivity|].
  match goal with
  | |- activityProgressStatus
         (stateOf (fst (terminationRequestProcess _ ?e2)) _) = _ ∧ _ =>
      set (e := e2)
  end.
  destruct (deref (tree e) [0]) as [a|] eqn:Ha;
    [|vm_compute in Ha; discriminate Ha].
  assert (isLeaf a = false) as Haleaf
    by (vm_compute in Ha; injection Ha as <-; reflexivity).
  assert ((sequencingDefinition a ≫= rollupRules) ≫= rollupRule = None) as Hrules
    by (vm_compute in Ha; injection Ha as <-; reflexivity).
  assert (childRefs [0] a = [[0; 0]; [1; 0]]) as Hchildren
    by (vm_compute in Ha; injection Ha as <-; reflexivity).
  assert (currentActivity (session e) = Some [1; 0]) as Hcur
    by (vm_compute; reflexivity).
  assert ([0] `suffix_of` [1; 0]) as Hsuffix by (by exists [1]).
  apply (proj1 (default_rollup_after_termination Examples.clock0 e [1; 0] [0] a
                  Hcur Hsuffix Ha Haleaf) Hrules).
  rewrite Hchildren. intros ch Hin.
  apply list_elem_of_In in Hin. simpl in Hin.
  destruct Hin as [<- | [<- | []]]; vm_compute; reflexivity.
Defined.

(** C7 (as stated, refuted).  On root → [M → [N → [x, y]]], where M has no
    rollup rules, after x and then y have been left, termination with rollup
    from y up to the root leaves M known+complete although its only child N
    is not: default rollup never withdraws a completion status.  And on
    root → [M → [a, b]], where M carries an empty list of rollup rules,
    after a and then b have been left both children of M are
    known+complete and M is not: with a list of rules, even an empty one,
    default rollup is not applied. *)
Lemma default_rollup_keeps_stale_completion :
  (∃ e0, newEngine Examples.staleRollup = Some e0
    ∧ let e1 := snd (processNavigationRequest Examples.clock0 1 "choice" (Some "x") e0) in
      let e2 := snd (processNavigationRequest Examples.clock0 1 "choice" (Some "y") e1) in
      let e3 := fst (terminationRequestProcess Examples.clock0 e2) in
      let M := deref (tree e3) [0] in
      currentActivity (session e2) = Some [1; 0; 0]
      ∧ isLeaf <$> M = Some false
      ∧ M ≫= (fun a => (sequencingDefinition a ≫= rollupRules) ≫= rollupRule) = None
      ∧ childRefs [0] <$> M = Some [[0; 0]]
      ∧ isComplete e3 [0] = true
      ∧ isComplete e3 [0; 0] = false
      ∧ ¬ (isComplete e3 [0] = true
           ↔ ∀ ch, ch ∈ [[0; 0]] → isComplete e3 ch = true))
  ∧ (∃ e0, newEngine Examples.emptyRollup = Some e0
    ∧ let e1 := snd (processNavigationRequest Examples.clock0 1 "choice" (Some "a") e0) in
      let e2 := snd (processNavigationRequest Examples.clock0 1 "choice" (Some "b") e1) in
      let e3 := fst (terminationRequestProcess Examples.clock0 e2) in
      let M := deref (tree e3) [0] in
      currentActivity (session e2) = Some [1; 0]
      ∧ isLeaf <$> M = Some false
      ∧ M ≫= (fun a => (sequencingDefinition a ≫= rollupRules) ≫= rollupRule) = Some []
      ∧ childRefs [0] <$> M = Some [[0; 0]; [1; 0]]
      ∧ isComplete e3 [0; 0] = true
      ∧ isComplete e3 [1; 0] = true
      ∧ isComplete e3 [0] = false
      ∧ ¬ (isComplete e3 [0] = true
           ↔ ∀ ch, ch ∈ [[0; 0]; [1; 0]] → isComplete e3 ch = true)).
Proof.
  split.
  - eexists. split; [reflexivity|]. cbv zeta.
    do 6 (split; [vm_compute; reflexivity|]).
    intros [Hiff _].
    match type of Hiff with
    | ?P → _ => assert P as HM by (vm_compute; reflexivity)
    end.
    specialize (Hiff HM [0; 0] (list_elem_of_here _ _)).
    vm_compute in Hiff. discriminate Hiff.
  - eexists. split; [reflexivity|]. cbv zeta.
    do 7 (split; [vm_compute; reflexivity|]).
    intros [_ Hiff].
    match type of Hiff with
    | ?P → _ => assert P as Hall
    end.
    { intros ch Hin. apply list_elem_of_In in Hin. simpl in Hin.
      destruct Hin as [<- | [<- | []]]; vm_compute; reflexivity. }
    specialize (Hiff Hall). vm_compute in Hiff. discriminate Hiff.
Qed.

(** ** Paths in the tree *)

Lemma resolve_app a (l1 l2 : list nat) :
  resolve a (l1 ++ l2)%list = resolve a l1 ≫= (fun b => resolve b l2).
Proof.
  revert a. induction l1 as [|i l1 IH]; intros a; simpl; [done|].
  destruct (children a !! i) as [c|]; [apply IH | done].
Qed.

Lemma deref_cons t i (p : ActivityRef) :
  deref t (i :: p) = deref t p ≫= (fun a => children a !! i).
Proof.
  unfold deref. simpl. rewrite resolve_app.
  destruct (resolve t (rev p)) as [a|]; simpl; [|done].
  by destruct (children a !! i).
Qed.

Lemma deref_app t (l p : ActivityRef) :
  deref t (l ++ p)%list = deref t p ≫= (fun a => resolve a (rev l)).
Proof. unfold deref. by rewrite rev_app_distr, resolve_app. Qed.

(** ** Searches in the tree *)

Lemma findActivityInTree_preorderFind id a :
  ∀ r, findActivityInTree a r id
       = preorderFind (fun b _ => String.eqb (identifier b) id) a r.
Proof.
  induction a as [i it cs l ro d sd IH] using Activity_ind'. intros r. simpl.
  destruct (String.eqb i id); [done|].
  generalize 0 as k. induction IH as [|c cs Hc _ IHcs]; intros k; [done|].
  rewrite Hc. by rewrite IHcs.
Qed.

Lemma findSuspendedActivityIn_preorderFind e a :
  ∀ r, findSuspendedActivityIn e a r
       = preorderFind (fun _ q => activityIsSuspended (stateOf e q)) a r.
Proof.
  induction a as [i it cs l ro d sd IH] using Activity_ind'. intros r. simpl.
  destruct (activityIsSuspended (stateOf e r)); [done|].
  generalize 0 as k. induction IH as [|c cs Hc _ IHcs]; intros k; [done|].
  rewrite Hc. by rewrite IHcs.
Qed.

(** What the search returns lies below its start and satisfies [P]. *)
Lemma preorderFind_sound P a :
  ∀ r found,
    preorderFind P a r = Some found →
    ∃ path b, found = (rev path ++ r)%list
              ∧ resolve a path = Some b
              ∧ P b found = true.
Proof.
  induction a as [i it cs l ro d sd IH] using Activity_ind'.
  intros r found. simpl.
  destruct (P _ r) eqn:HP.
  - intros [= <-]. by exists [], (mkActivity i it cs l ro d sd).
  - assert (∀ k,
      (fix loop (cs : list Activity) (i : nat) : option ActivityRef :=
         match cs with
         | [] => None
         | child :: cs' =>
             match preorderFind P child (i :: r) with
             | Some found => Some found
             | None => loop cs' (S i)
             end
         end) cs k = Some found →
      ∃ j c path b, cs !! j = Some c
                    ∧ found = (rev path ++ (k + j) :: r)%list
                    ∧ resolve c path = Some b
                    ∧ P b found = true) as Hloop.
    { clear HP. induction IH as [|c cs Hc _ IHcs]; intros k; [done|].
      destruct (preorderFind P c (k :: r)) as [f|] eqn:Hf.
      - intros [= <-]. destruct (Hc _ _ Hf) as (path & b & -> & Hb & HPb).
        exists 0, c, path, b. by rewrite Nat.add_0_r.
      - intros (j & c' & path & b & Hj & -> & Hb & HPb)%IHcs.
        exists (S j), c', path, b.
        replace (k + S j) with (S k + j) by lia.
        split; [exact Hj|]. by repeat split. }
    intros (j & c & path & b & Hj & -> & Hb & HPb)%Hloop.
    exists (j :: path), b. simpl. rewrite Hj. repeat split; try done.
    by rewrite <- app_assoc.
Qed.

(** The search finds something as soon as an activity below its start
    satisfies [P]. *)
Lemma preorderFind_complete P a :
  ∀ r path b,
    resolve a path = Some b →
    P b (rev path ++ r)%list = true →
    is_Some (preorderFind P a r).
Proof.
  induction a as [i it cs l ro d sd IH] using Activity_ind'.
  intros r path b Hb HP. simpl.
  destruct (P _ r) eqn:HPr; [done|].
  destruct path as [|j path]; simpl in Hb.
  { injection Hb as <-. simpl in HP. rewrite HP in HPr. discriminate HPr. }
  destruct (cs !! j) as [c|] eqn:Hj; [|done].
  assert (is_Some (preorderFind P c (j :: r))) as Hc.
  { rewrite Forall_lookup in IH. eapply (IH j c Hj); [exact Hb|].
    simpl in HP. by rewrite <- app_assoc in HP. }
  clear HP Hb HPr IH.
  change j with (0 + j) in Hc. revert Hc. generalize 0 as k.
  revert j Hj. induction cs as [|c' cs IHcs]; intros j Hj k Hc; [done|].
  destruct j as [|j]; simpl in Hj.
  - simplify_eq. rewrite Nat.add_0_r in Hc. destruct Hc as [f ->]. done.
  - destruct (preorderFind P c' (k :: r)); [done|].
    apply (IHcs j Hj (S k)). by rewrite Nat.add_succ_comm.
Qed.

(** X1: [findActivity] returns an activity of the tree that carries the
    identifier asked for, and returns null exactly when no activity of the
    tree carries it. *)
Theorem findActivity_spec e id :
  (∀ r, findActivity e id = Some r →
        ∃ a, deref (tree e) r = Some a ∧ identifier a = id)
  ∧ (findActivity e id = None
     ↔ ∀ r a, deref (tree e) r = Some a → identifier a ≠ id).
Proof.
  unfold findActivity. rewrite findActivityInTree_preorderFind. split.
  - intros r (path & b & -> & Hb & HP%String.eqb_eq)%preorderFind_sound.
    exists b. split; [|done]. unfold deref.
    by rewrite app_nil_r, rev_involutive.
  - split.
    + intros Hnone r a Ha Hid.
      destruct (preorderFind_complete (fun b _ => String.eqb (identifier b) id)
                  (tree e) [] (rev r) a Ha) as [f Hf].
      * by apply String.eqb_eq.
      * assert (Some f = None) as Habs
          by (etrans; [symmetry; exact Hf | exact Hnone]).
        discriminate Habs.
    + intros Hall.
      destruct (preorderFind _ (tree e) []) as [f|] eqn:Hf; [|done].
      apply preorderFind_sound in Hf as (path & b & -> & Hb & HP%String.eqb_eq).
      exfalso. apply (Hall (rev path) b); [|done].
      unfold deref. by rewrite rev_involutive.
Qed.

(** ** The clock only moves forward *)

Lemma later_trans clk1 clk2 clk3 : later clk1 clk2 → later clk2 clk3 → later clk1 clk3.
Proof.
  intros H12 H23. induction H12 as [clk|clk clk' _ IH]; [done|].
  apply later_read. by apply IH.
Qed.

Lemma isOutsideAvailableTimeRange_later clk e r :
  later clk (snd (isOutsideAvailableTimeRange clk e r)).
Proof.
  unfold isOutsideAvailableTimeRange.
  destruct (negb _ && negb _); [apply later_now|].
  destruct (newDate clk) as [now clk1] eqn:Hnew.
  assert (later clk clk1) as Hlater.
  { apply later_read. rewrite Hnew. apply later_now. }
  repeat case_match; exact Hlater.
Qed.

Lemma evaluateRuleCondition_later clk e cond r :
  later clk (snd (evaluateRuleCondition clk e cond r)).
Proof.
  unfold evaluateRuleCondition. cbv zeta.
  match goal with
  | |- later clk (snd (let '(result, clk0) := ?X in _)) =>
      assert (later clk (snd X)) as H; [|by destruct X]
  end.
  repeat case_match; try apply later_now. apply isOutsideAvailableTimeRange_later.
Qed.

Lemma forEach_later {A B : Type} (body : Clock → A → B * Clock) :
  (∀ clk x, later clk (snd (body clk x))) →
  ∀ l clk, later clk (snd (forEach body clk l)).
Proof.
  intros Hbody. induction l as [|x l IHl]; intros clk; simpl; [apply later_now|].
  specialize (Hbody clk x). destruct (body clk x) as [y clk1].
  specialize (IHl clk1). destruct (forEach body clk1 l) as [ys clk2].
  by eapply later_trans.
Qed.

Lemma forAll_later {A : Type} (test : Clock → A → bool * Clock) :
  (∀ clk x, later clk (snd (test clk x))) →
  ∀ l clk, later clk (snd (forAll test clk l)).
Proof.
  intros Htest. induction l as [|x l IHl]; intros clk; simpl; [apply later_now|].
  specialize (Htest clk x). destruct (test clk x) as [[] clk1]; [|done].
  by eapply later_trans.
Qed.

Lemma evaluateSequencingRule_later clk e rule r :
  later clk (snd (evaluateSequencingRule clk e rule r)).
Proof.
  unfold evaluateSequencingRule.
  pose proof (forEach_later
                (fun clk condition => evaluateRuleCondition clk e condition r)
                (fun clk x => evaluateRuleCondition_later clk e x r)
                (ruleConditions rule) clk) as Hl.
  by destruct (forEach _ clk (ruleConditions rule)).
Qed.

Lemma isActivityDeliverable_later clk e r :
  later clk (snd (isActivityDeliverable clk e r)).
Proof.
  unfold isActivityDeliverable, checkPreConditions.
  repeat (case_match; try apply later_now).
  apply forAll_later. intros. apply evaluateSequencingRule_later.
Qed.

Lemma flowSubprocess_later e fuel :
  ∀ clk r entry reverse, later clk (snd (flowSubprocess clk e fuel r entry reverse)).
Proof.
  induction fuel as [|fuel IH]; intros clk r entry reverse; [apply later_now|].
  simpl. destruct (deref (tree e) r) as [a|]; [|apply later_now].
  assert (later clk (snd (if isLeaf a && entry then isActivityDeliverable clk e r
                          else (false, clk)))) as Hgate
    by (case_match; [apply isActivityDeliverable_later | apply later_now]).
  destruct (if isLeaf a && entry then _ else _) as [[] clk1]; [done|].
  simpl in Hgate.
  assert (later clk (snd match parent r with
                         | Some p => flowSubprocess clk1 e fuel p false reverse
                         | None => (Normal None, clk1)
                         end)) as Hout.
  { destruct (parent r); [|done]. eapply later_trans; [exact Hgate | apply IH]. }
  destruct (negb (isLeaf a)); [|exact Hout].
  destruct (if entry then _ else _); [|exact Hout].
  eapply later_trans; [exact Hgate | apply IH].
Qed.

(** ** The first deliverable descendant *)

Lemma getFirstDeliverableDescendantIn_unfold clk e a r :
  getFirstDeliverableDescendantIn clk e a r
  = let '(deliverable, clk) := isActivityDeliverable clk e r in
    if deliverable then (Some r, clk)
    else firstDeliverableAmong clk e (children a) 0 r.
Proof.
  destruct a as [id it cs l ro d sd]. simpl.
  destruct (isActivityDeliverable clk e r) as [[] clk1]; [done|].
  generalize 0 as i. revert clk1.
  induction cs as [|c cs IHcs]; intros clk1 i; simpl; [done|].
  destruct (getFirstDeliverableDescendantIn clk1 e c (i :: r)) as [[f|] clk2];
    [done | apply IHcs].
Qed.

Lemma getFirstDeliverableDescendantIn_later e a :
  ∀ clk r, later clk (snd (getFirstDeliverableDescendantIn clk e a r)).
Proof.
  induction a as [id it cs l ro d sd IH] using Activity_ind'.
  intros clk r. rewrite getFirstDeliverableDescendantIn_unfold. simpl children.
  pose proof (isActivityDeliverable_later clk e r) as Hl.
  destruct (isActivityDeliverable clk e r) as [[] clk1]; [done|]. simpl in Hl.
  eapply later_trans; [exact Hl|]. clear Hl. generalize 0 as i. revert clk1.
  induction IH as [|c cs Hc _ IHcs]; intros clk1 i; simpl; [apply later_now|].
  specialize (Hc clk1 (i :: r)).
  destruct (getFirstDeliverableDescendantIn clk1 e c (i :: r)) as [[f|] clk2];
    [done|].
  simpl in Hc. eapply later_trans; [exact Hc | apply IHcs].
Qed.

(** What the search returns lies below its start and passed the delivery
    gate at the last evaluation the search made. *)
Lemma getFirstDeliverableDescendantIn_sound e a :
  ∀ clk r found clk2,
    getFirstDeliverableDescendantIn clk e a r = (Some found, clk2) →
    ∃ path clk',
      found = (rev path ++ r)%list ∧ is_Some (resolve a path)
      ∧ later clk clk' ∧ isActivityDeliverable clk' e found = (true, clk2).
Proof.
  induction a as [id it cs l ro d sd IH] using Activity_ind'.
  intros clk r found clk2. rewrite getFirstDeliverableDescendantIn_unfold.
  simpl children.
  pose proof (isActivityDeliverable_later clk e r) as Hl.
  destruct (isActivityDeliverable clk e r) as [[] clk1] eqn:Hgate; simpl in Hl.
  - intros [= <- <-]. exists [], clk.
    split; [done|]. split; [by eexists|]. split; [apply later_now | done].
  - assert (∀ k clk1,
      firstDeliverableAmong clk1 e cs k r = (Some found, clk2) →
      ∃ j c path clk', cs !! j = Some c
        ∧ found = (rev path ++ (k + j) :: r)%list
        ∧ is_Some (resolve c path)
        ∧ later clk1 clk' ∧ isActivityDeliverable clk' e found = (true, clk2))
      as Hloop.
    { clear Hgate Hl clk1.
      induction IH as [|c cs Hc _ IHcs]; intros k clk1; [done|]. simpl.
      pose proof (Hc clk1 (k :: r)) as Hsound.
      pose proof (getFirstDeliverableDescendantIn_later e c clk1 (k :: r)) as Hl3.
      destruct (getFirstDeliverableDescendantIn clk1 e c (k :: r))
        as [[f|] clk3] eqn:Hf; simpl in Hl3.
      - intros [= <- <-].
        destruct (Hsound f clk3 eq_refl) as (path & clk' & -> & Hb & Hl' & Hg).
        exists 0, c, path, clk'. by rewrite Nat.add_0_r.
      - intros (j & c' & path & clk' & Hj & -> & Hb & Hl' & Hg)%IHcs.
        exists (S j), c', path, clk'.
        replace (k + S j) with (S k + j) by lia.
        split; [exact Hj|]. split; [done|]. split; [done|]. split; [|done].
        by eapply later_trans. }
    intros (j & c & path & clk' & Hj & -> & Hb & Hl' & Hg)%Hloop.
    exists (j :: path), clk'. simpl. rewrite Hj.
    split; [by rewrite <- app_assoc|]. split; [done|]. split; [|done].
    by eapply later_trans.
Qed.

(** When the search returns null, every activity below its start was
    refused by the delivery gate, at the clock the search was given or at
    what further readings left of it. *)
Lemma getFirstDeliverableDescendantIn_none e a :
  ∀ clk r clk2,
    getFirstDeliverableDescendantIn clk e a r = (None, clk2) →
    ∀ path, is_Some (resolve a path) →
      ∃ clk', later clk clk'
              ∧ fst (isActivityDeliverable clk' e (rev path ++ r)%list) = false.
Proof.
  induction a as [id it cs l ro d sd IH] using Activity_ind'.
  intros clk r clk2. rewrite getFirstDeliverableDescendantIn_unfold.
  simpl children.
  pose proof (isActivityDeliverable_later clk e r) as Hl.
  destruct (isActivityDeliverable clk e r) as [[] clk1] eqn:Hgate; [done|].
  simpl in Hl. intros Hnone [|j path] Hb.
  { exists clk. simpl. rewrite Hgate. split; [apply later_now | done]. }
  simpl in Hb. destruct (cs !! j) as [c|] eqn:Hj; [|by destruct Hb].
  simpl. rewrite <- app_assoc. simpl.
  assert (∃ clk', later clk1 clk'
                  ∧ fst (isActivityDeliverable clk' e (rev path ++ (0 + j) :: r)%list)
                    = false) as (clk' & Hl' & Hg).
  { clear Hgate Hl. revert j c Hj Hb clk1 Hnone. generalize 0 as k.
    induction IH as [|c0 cs Hc0 _ IHcs]; intros k j c Hj Hb clk1 Hnone; [done|].
    simpl in Hnone.
    pose proof (getFirstDeliverableDescendantIn_later e c0 clk1 (k :: r)) as Hl3.
    destruct (getFirstDeliverableDescendantIn clk1 e c0 (k :: r))
      as [[f|] clk3] eqn:Hf; [done|]. simpl in Hl3.
    destruct j as [|j]; simpl in Hj.
    - injection Hj as ->. rewrite Nat.add_0_r. by eapply Hc0.
    - destruct (IHcs (S k) j c Hj Hb clk3 Hnone) as (clk' & Hl' & Hg).
      exists clk'. replace (k + S j) with (S k + j) by lia.
      split; [by eapply later_trans | done]. }
  exists clk'. split; [by eapply later_trans | done].
Qed.

(** The search returns null when the delivery gate refuses every activity
    below its start, at the clock the search is given and at whatever
    further readings leave of it. *)
Lemma getFirstDeliverableDescendantIn_refused e a :
  ∀ clk r,
    (∀ clk' q, later clk clk' → r `suffix_of` q →
               fst (isActivityDeliverable clk' e q) = false) →
    fst (getFirstDeliverableDescendantIn clk e a r) = None.
Proof.
  induction a as [id it cs l ro d sd IH] using Activity_ind'.
  intros clk r Hall. rewrite getFirstDeliverableDescendantIn_unfold.
  simpl children.
  pose proof (isActivityDeliverable_later clk e r) as Hl.
  pose proof (Hall clk r (later_now clk) (reflexivity r)) as Hgate.
  destruct (isActivityDeliverable clk e r) as [b clk1]. simpl in Hgate, Hl.
  subst b.
  assert (∀ clk' q, later clk1 clk' → r `suffix_of` q →
                    fst (isActivityDeliverable clk' e q) = false) as Hall1
    by (intros clk' q Hl'; apply Hall; by eapply later_trans).
  clear Hall Hl. revert clk1 Hall1. generalize 0 as k.
  induction IH as [|c cs Hc _ IHcs]; intros k clk1 Hall1; simpl; [done|].
  pose proof (getFirstDeliverableDescendantIn_later e c clk1 (k :: r)) as Hl3.
  pose proof (Hc clk1 (k :: r)) as Hnone.
  destruct (getFirstDeliverableDescendantIn clk1 e c (k :: r)) as [[f|] clk3].
  - simpl in Hnone. discriminate Hnone.
    intros clk' q Hl' Hq. apply Hall1; [done|]. by apply suffix_cons_l in Hq.
  - simpl in Hl3. apply IHcs.
    intros clk' q Hl'. apply Hall1. by eapply later_trans.
Qed.

(** X2: [getFirstDeliverableDescendant] returns an activity at or below the
    one it is given, and that activity passed the delivery gate in the last
    evaluation the search made (each evaluation reads the clock afresh);
    when it returns null, every activity at or below its start was refused,
    at the clock the search was given or at what further readings left of
    it; and it returns null whenever the gate refuses all of them at the
    clock given and at whatever further readings leave of it. *)
Theorem getFirstDeliverableDescendant_spec clk e r a :
  deref (tree e) r = Some a →
  (∀ found, fst (getFirstDeliverableDescendant clk e r) = Some found →
            r `suffix_of` found
            ∧ ∃ clk', later clk clk'
                      ∧ isActivityDeliverable clk' e found
                        = (true, snd (getFirstDeliverableDescendant clk e r)))
  ∧ (fst (getFirstDeliverableDescendant clk e r) = None →
     ∀ q, r `suffix_of` q →
          ∃ clk', later clk clk' ∧ fst (isActivityDeliverable clk' e q) = false)
  ∧ ((∀ clk' q, later clk clk' → r `suffix_of` q →
                fst (isActivityDeliverable clk' e q) = false) →
     fst (getFirstDeliverableDescendant clk e r) = None).
Proof.
  intros Ha. unfold getFirstDeliverableDescendant. rewrite Ha.
  split; [|split].
  - intros found Hfound.
    destruct (getFirstDeliverableDescendantIn clk e a r) as [f clk2] eqn:Hf.
    simpl in Hfound. subst f.
    apply getFirstDeliverableDescendantIn_sound in Hf
      as (path & clk' & -> & _ & Hl & Hg).
    split; [by eexists | by exists clk'].
  - intros Hnone q [l ->].
    destruct (getFirstDeliverableDescendantIn clk e a r) as [f clk2] eqn:Hf.
    simpl in Hnone. subst f.
    destruct (resolve a (rev l)) as [b|] eqn:Hb.
    + destruct (getFirstDeliverableDescendantIn_none e a clk r clk2 Hf (rev l))
        as (clk' & Hl & Hg); [by eexists|].
      rewrite rev_involutive in Hg. by exists clk'.
    + exists clk. split; [apply later_now|].
      unfold isActivityDeliverable. rewrite deref_app, Ha. simpl. by rewrite Hb.
  - apply getFirstDeliverableDescendantIn_refused.
Qed.

Lemma getFirstDeliverableDescendant_spec_witness :
  ∃ e0, newEngine Examples.twoLeaves = Some e0
    ∧ fst (getFirstDeliverableDescendant Examples.clock0 e0 []) = Some [0]
    ∧ ∃ clk', later Examples.clock0 clk'
              ∧ isActivityDeliverable clk' e0 [0]
                = (true, snd (getFirstDeliverableDescendant Examples.clock0 e0 [])).
Proof.
  assert (∃ e0, newEngine Examples.twoLeaves = Some e0) as [e0 Hnew] by by eexists.
  exists e0. split; [exact Hnew|].
  assert (fst (getFirstDeliverableDescendant Examples.clock0 e0 []) = Some [0])
    as Hfound
    by (vm_compute in Hnew; injection Hnew as <-; vm_compute; reflexivity).
  split; [exact Hfound|].
  destruct (deref (tree e0) []) as [a|] eqn:Ha;
    [|vm_compute in Hnew; injection Hnew as <-; discriminate Ha].
  exact (proj2 (proj1 (getFirstDeliverableDescendant_spec Examples.clock0 e0 [] a Ha)
                  [0] Hfound)).
Defined.

(** ** What the engine never tracks *)

Lemma untracked_initial : untracked initializeActivityState.
Proof.
  repeat split; try done; cbn [objectives initializeActivityState] in *;
    by rewrite lookup_empty in *.
Qed.

Lemma quiet_untracked f st : quiet f → untracked st → untracked (f st).
Proof.
  intros Hq Hst. destruct Hq as [|c| |id satisfied].
  - exact Hst.
  - exact Hst.
  - apply untracked_initial.
  - destruct Hst as (H1 & H2 & H3 & H4 & H5 & H6 & Hobj).
    do 6 (split; [done|]). simpl. intros id' ob Hlook.
    destruct (decide (id = id')) as [->|Hne].
    + rewrite lookup_insert_eq in Hlook. injection Hlook as <-. simpl.
      destruct (objectives st !! id') as [o|] eqn:Ho; simpl; [|done].
      by apply (Hobj id' o).
    + rewrite lookup_insert_ne in Hlook by done. by apply (Hobj id' ob).
Qed.

Lemma all_untracked_updState r f e :
  (∀ st, untracked st → untracked (f st)) →
  all_untracked e → all_untracked (updState r f e).
Proof.
  intros Hf He q. rewrite stateOf_updState. case_decide; [apply Hf|]; apply He.
Qed.

Lemma overallSequencingProcess_untracked clk fuel request targetId e :
  all_untracked e →
  all_untracked (snd (overallSequencingProcess clk fuel request targetId e)).
Proof.
  apply (overallSequencingProcess_pres all_untracked all_untracked).
  - intros r f e' Hq. apply all_untracked_updState. intros st. by apply quiet_untracked.
  - intros b e' He'. exact He'.
  - intros r f e' Hq. apply all_untracked_updState. intros st. by apply quiet_untracked.
  - intros b e' He'. exact He'.
  - done.
  - intros e' cur He' _. apply all_untracked_updState; [|done].
    intros st. apply quiet_untracked. constructor.
  - done.
  - intros e' a He'.
    apply (all_untracked_updState a (set_activityIsActive true)
             (set_currentActivity a e')); [|exact He'].
    by intros st.
Qed.

Lemma reachable_untracked m e : reachable m e → all_untracked e.
Proof.
  induction 1 as [e Hnew | clk fuel request targetId e _ IH].
  - intros r. rewrite (newEngine_state m e r Hnew). apply untracked_initial.
  - by apply overallSequencingProcess_untracked.
Qed.

(** ** The request processes, token by token *)

Lemma navigationRequestProcess_start e request targetId :
  endSession e = false →
  request = "start" ∨ request = "resumeAll" →
  navigationRequestProcess e request targetId
  = if bool_decide (is_Some (currentActivity (session e)))
    then invalidRequest "Sequencing session already active"
    else {| valid := true; exception := None |}.
Proof.
  intros He Hreq. unfold navigationRequestProcess. rewrite He.
  by destruct Hreq as [-> | ->].
Qed.

Lemma navigationRequestProcess_current e request targetId :
  endSession e = false →
  request = "continue" ∨ request = "previous" ∨ request = "exit"
  ∨ request = "abandon" →
  navigationRequestProcess e request targetId
  = if negb (bool_decide (is_Some (currentActivity (session e))))
    then invalidRequest "No current activity"
    else {| valid := true; exception := None |}.
Proof.
  intros He Hreq. unfold navigationRequestProcess. rewrite He.
  by destruct Hreq as [-> | [-> | [-> | ->]]].
Qed.

Lemma navigationRequestProcess_unknown e request targetId :
  includes validRequests request = false →
  navigationRequestProcess e request targetId
  = invalidRequest "Invalid navigation request".
Proof. intros Hreq. unfold navigationRequestProcess. by rewrite Hreq. Qed.

Lemma sequencingRequestProcess_start clk e fuel targetId :
  sequencingRequestProcess clk e fuel "start" targetId
  = identifiedBy (startSequencingRequestProcess clk e fuel) e.
Proof. reflexivity. Qed.

Lemma sequencingRequestProcess_resumeAll clk e fuel targetId :
  sequencingRequestProcess clk e fuel "resumeAll" targetId
  = identifiedBy (resumeAllSequencingRequestProcess clk e fuel) e.
Proof. reflexivity. Qed.

Lemma sequencingRequestProcess_continue clk e fuel targetId :
  sequencingRequestProcess clk e fuel "continue" targetId
  = identifiedBy (continueSequencingRequestProcess clk e fuel) e.
Proof. reflexivity. Qed.

Lemma sequencingRequestProcess_abandon clk e fuel targetId :
  sequencingRequestProcess clk e fuel "abandon" targetId
  = identifiedBy (continueSequencingRequestProcess clk e fuel) e.
Proof. reflexivity. Qed.

Lemma sequencingRequestProcess_previous clk e fuel targetId :
  sequencingRequestProcess clk e fuel "previous" targetId
  = identifiedBy (previousSequencingRequestProcess clk e fuel) e.
Proof. reflexivity. Qed.

Lemma sequencingRequestProcess_exit clk e fuel targetId :
  sequencingRequestProcess clk e fuel "exit" targetId
  = let '(identifiedActivity, e', clk) := exitSequencingRequestProcess clk e fuel in
    (identified identifiedActivity e', clk).
Proof. reflexivity. Qed.

Lemma sequencingRequestProcess_choice clk e fuel targetId :
  sequencingRequestProcess clk e fuel "choice" targetId
  = if truthy_string targetId
    then identifiedBy (choiceSequencingRequestProcess clk e fuel (default "" targetId)) e
    else (identified (Normal None) e, clk).
Proof. reflexivity. Qed.

(** A request whose navigation request process succeeds. *)
Lemma overallSequencingProcess_valid clk fuel request targetId e :
  valid (navigationRequestProcess (set_endSession false e) request targetId) = true →
  overallSequencingProcess clk fuel request targetId e
  = let '(e1, clk1) :=
      if bool_decide (is_Some (currentActivity (session e)))
      then terminationRequestProcess clk (set_endSession false e)
      else (set_endSession false e, clk) in
    match sequencingRequestProcess clk1 e1 fuel request targetId with
    | (StackOverflow, e2, _) => (StackOverflow, e2)
    | (Normal sequencingResult, e2, clk2) =>
        match seq_valid sequencingResult, seq_activity sequencingResult with
        | true, Some activity =>
            let '(deliveryRequest, e3, _) := deliveryRequestProcess clk2 activity e2 in
            (Normal deliveryRequest, e3)
        | _, _ => (Normal None, e2)
        end
    end.
Proof. intros H. unfold overallSequencingProcess. by rewrite H. Qed.

Lemma startSequencingRequestProcess_leaf_root clk e fuel :
  isLeaf (tree e) = true → item (tree e) = None →
  startSequencingRequestProcess clk e (S fuel) = (Normal None, clk).
Proof.
  intros Hleaf Hitem. unfold startSequencingRequestProcess.
  destruct (negb (isChoiceValid e [])); [done|].
  simpl. unfold isActivityDeliverable, deref. simpl.
  by rewrite Hleaf, Hitem.
Qed.

Lemma findSuspendedActivity_none e :
  all_untracked e → findSuspendedActivity e = None.
Proof.
  intros He. unfold findSuspendedActivity.
  rewrite findSuspendedActivityIn_preorderFind.
  destruct (preorderFind _ (tree e) []) as [f|] eqn:Hf; [|done].
  apply preorderFind_sound in Hf as (path & b & -> & _ & Hsusp).
  destruct (He (rev path ++ [])%list) as (Hno & _). congruence.
Qed.

(** X3: in every reachable state, [start] and [resumeAll] return null and
    leave the session as it was: they are refused while an activity is
    current, and otherwise no activity is suspended and the flow into the
    root, which is flagged as a leaf and bound to no resource, identifies
    nothing. *)
Theorem start_and_resumeAll_return_null m e clk fuel request targetId :
  reachable m e →
  request = "start" ∨ request = "resumeAll" →
  let res := processNavigationRequest clk (S fuel) request targetId e in
  fst res = Normal None
  ∧ session (snd res) = session e.
Proof.
  intros Hreach Hreq. cbv zeta. unfold processNavigationRequest.
  pose proof (navigationRequestProcess_start (set_endSession false e) request targetId
                eq_refl Hreq) as Hnav.
  change (currentActivity (session (set_endSession false e)))
    with (currentActivity (session e)) in Hnav.
  destruct (currentActivity (session e)) as [cur|] eqn:Hcur.
  - rewrite bool_decide_eq_true_2 in Hnav by done.
    rewrite overallSequencingProcess_invalid by (by rewrite Hnav). done.
  - rewrite bool_decide_eq_false_2 in Hnav by (by intros [? ?]).
    rewrite overallSequencingProcess_valid by (by rewrite Hnav).
    rewrite Hcur. rewrite bool_decide_eq_false_2 by (by intros [? ?]). cbv zeta.
    destruct (buildActivityTree_root m (tree e) (reachable_tree m e Hreach))
      as [Hleaf Hitem].
    assert (startSequencingRequestProcess clk (set_endSession false e) (S fuel)
            = (Normal None, clk)) as Hstart
      by (by apply startSequencingRequestProcess_leaf_root).
    assert (sequencingRequestProcess clk (set_endSession false e) (S fuel) request
              targetId
            = (identified (Normal None) (set_endSession false e), clk)) as ->.
    { destruct Hreq as [-> | ->].
      - by rewrite sequencingRequestProcess_start, Hstart.
      - rewrite sequencingRequestProcess_resumeAll.
        unfold resumeAllSequencingRequestProcess.
        rewrite (findSuspendedActivity_none (set_endSession false e))
          by exact (reachable_untracked m e Hreach).
        by rewrite Hstart. }
    done.
Qed.

Lemma start_and_resumeAll_return_null_witness :
  ∃ e0, newEngine Examples.twoLeaves = Some e0
    ∧ fst (processNavigationRequest Examples.clock0 1 "resumeAll" None e0) = Normal None.
Proof.
  assert (∃ e0, newEngine Examples.twoLeaves = Some e0) as [e0 Hnew] by by eexists.
  exists e0. split; [exact Hnew|].
  exact (proj1 (start_and_resumeAll_return_null Examples.twoLeaves e0 Examples.clock0 0
                  "resumeAll" None (reachable_new _ _ Hnew) (or_intror eq_refl))).
Defined.

Lemma getObjectiveMeasure_untracked e r objectiveId :
  all_untracked e → getObjectiveMeasure e r objectiveId = None.
Proof.
  intros He. unfold getObjectiveMeasure, getObjective.
  destruct (objectives (stateOf e r) !! objectiveKey objectiveId) as [o|] eqn:Ho;
    [|done].
  destruct (He r) as (_ & _ & _ & _ & _ & _ & Hobj).
  by rewrite (proj1 (Hobj _ _ Ho)).
Qed.

(** X4: in every reachable state the conditions ["attempted"],
    ["objectiveMeasureKnown"], ["objectiveMeasureGreaterThan"] and
    ["objectiveMeasureLessThan"] are false for every activity, objective
    and threshold, so that such a rule condition holds exactly when it
    carries the operator [not]: no process records an attempt or a
    measure. *)
Theorem untracked_conditions_never_hold m e clk r cond :
  reachable m e →
  condition cond = "attempted" ∨ condition cond = "objectiveMeasureKnown"
  ∨ condition cond = "objectiveMeasureGreaterThan"
  ∨ condition cond = "objectiveMeasureLessThan" →
  evaluateRuleCondition clk e cond r
  = (match operator cond with Some OpNot => true | _ => false end, clk).
Proof.
  intros He%reachable_untracked Hcond.
  assert (evaluateRuleCondition clk e cond r
          = (match operator cond with Some OpNot => negb false | _ => false end, clk))
    as ->.
  { unfold evaluateRuleCondition.
    destruct Hcond as [-> | [-> | [-> | ->]]]; cbn [String.eqb Ascii.eqb Bool.eqb];
      rewrite ?getObjectiveMeasure_untracked by done; try done.
    destruct (He r) as (_ & _ & _ & -> & _). done. }
  by destruct (operator cond) as [[]|].
Qed.

Lemma untracked_conditions_never_hold_witness :
  ∃ e0, newEngine Examples.twoLeaves = Some e0
    ∧ evaluateRuleCondition Examples.clock0 e0
        {| condition := "attempted"; operator := Some OpNot;
           measureThreshold := None; referenceObjective := None |} [0]
      = (true, Examples.clock0).
Proof.
  assert (∃ e0, newEngine Examples.twoLeaves = Some e0) as [e0 Hnew] by by eexists.
  exists e0. split; [exact Hnew|].
  exact (untracked_conditions_never_hold Examples.twoLeaves e0 Examples.clock0 [0]
           {| condition := "attempted"; operator := Some OpNot;
              measureThreshold := None; referenceObjective := None |}
           (reachable_new _ _ Hnew) (or_introl eq_refl)).
Defined.

(** X5: the limit checks as the engine computes them.  In every reachable
    state [isTimeLimitExceeded] is true for every activity that declares a
    non-empty [activityAbsoluteDurationLimit] and false for the others
    (the duration and the parsed limit are both 0); and
    [isAttemptLimitExceeded] is false for every positive [attemptLimit]
    (the attempt count is 0). *)
Theorem limit_checks m e r :
  reachable m e →
  isTimeLimitExceeded e r
  = truthy_string ((sequencingDefinitionOf e r ≫= limitConditions)
                     ≫= activityAbsoluteDurationLimit)
  ∧ (∀ limit,
       (sequencingDefinitionOf e r ≫= limitConditions) ≫= attemptLimit = Some limit →
       (0 < limit)%Q →
       isAttemptLimitExceeded e r = false).
Proof.
  intros He%reachable_untracked. split.
  - unfold isTimeLimitExceeded.
    destruct (truthy_string _); [|done]. simpl.
    destruct (He r) as (_ & -> & _). done.
  - intros limit Hlimit Hpos. unfold isAttemptLimitExceeded. rewrite Hlimit.
    destruct (Qeq_bool limit 0); [done|].
    apply not_true_is_false. intros Hle%Qle_bool_iff.
    unfold getAttemptCount in Hle. by apply Qlt_not_le in Hpos.
Qed.

Lemma limit_checks_witness :
  ∃ e0, newEngine Examples.timedCourse = Some e0
    ∧ isTimeLimitExceeded e0 [0] = true
    ∧ isAttemptLimitExceeded e0 [0] = false.
Proof.
  assert (∃ e0, newEngine Examples.timedCourse = Some e0) as [e0 Hnew] by by eexists.
  exists e0. split; [exact Hnew|].
  destruct (limit_checks Examples.timedCourse e0 [0] (reachable_new _ _ Hnew))
    as [Htime Hattempt].
  split.
  - rewrite Htime. vm_compute in Hnew. injection Hnew as <-. reflexivity.
  - apply (Hattempt 3%Q); [|reflexivity].
    vm_compute in Hnew. injection Hnew as <-. reflexivity.
Defined.


(** ** Selection and delivery *)

(** Whatever the flow returns passed the delivery gate in the last
    evaluation the flow made. *)
Lemma flowSubprocess_deliverable e fuel :
  ∀ clk r entry reverse found clk2,
    flowSubprocess clk e fuel r entry reverse = (Normal (Some found), clk2) →
    ∃ clk1, later clk clk1 ∧ isActivityDeliverable clk1 e found = (true, clk2).
Proof.
  induction fuel as [|fuel IH]; intros clk r entry reverse found clk2; [done|]. simpl.
  destruct (deref (tree e) r) as [a|]; [|done].
  assert (later clk (snd (if isLeaf a && entry then isActivityDeliverable clk e r
                          else (false, clk)))) as Hl
    by (case_match; [apply isActivityDeliverable_later | apply later_now]).
  destruct (isLeaf a && entry) eqn:Hentry.
  - destruct (isActivityDeliverable clk e r) as [[] clk1] eqn:Hgate.
    { intros [= <- <-]. exists clk. split; [apply later_now | done]. }
    simpl in Hl.
    assert (∀ c, flowSubprocess clk1 e fuel c.1 c.2 reverse
                 = (Normal (Some found), clk2) →
                 ∃ clk', later clk clk'
                         ∧ isActivityDeliverable clk' e found = (true, clk2)) as Hrec.
    { intros [c b] (clk' & Hl' & Hg)%IH. exists clk'.
      split; [by eapply later_trans | done]. }
    assert (match parent r with
            | Some p => flowSubprocess clk1 e fuel p false reverse
            | None => (Normal None, clk1)
            end = (Normal (Some found), clk2) →
            ∃ clk', later clk clk'
                    ∧ isActivityDeliverable clk' e found = (true, clk2)) as Hout.
    { destruct (parent r) as [p|]; [apply (Hrec (p, false)) | done]. }
    destruct (negb (isLeaf a)); [|exact Hout].
    destruct (if entry then getFirstChild e r
              else if reverse then getPreviousChild e r else getNextChild e r)
      as [child|]; [apply (Hrec (child, true)) | exact Hout].
  - assert (match parent r with
            | Some p => flowSubprocess clk e fuel p false reverse
            | None => (Normal None, clk)
            end = (Normal (Some found), clk2) →
            ∃ clk', later clk clk'
                    ∧ isActivityDeliverable clk' e found = (true, clk2)) as Hout.
    { destruct (parent r) as [p|]; [apply IH | done]. }
    destruct (negb (isLeaf a)); [|exact Hout].
    destruct (if entry then getFirstChild e r
              else if reverse then getPreviousChild e r else getNextChild e r)
      as [child|]; [apply IH | exact Hout].
Qed.

(** X6: for every request other than [resumeAll], an activity identified by
    the sequencing request process passed the delivery gate in the last
    evaluation the process made, in the state the process leaves, which is
    the state it was given.  The delivery request process that follows
    evaluates the gate anew, with the clock as the flow left it: it returns
    the activity when the gate holds there and refuses it otherwise; an
    activity whose gate does not depend on the reading of the clock is
    never refused. *)
Theorem identified_activity_passed_the_gate clk e fuel request targetId sr e2 clk2 a :
  request ≠ "resumeAll" →
  sequencingRequestProcess clk e fuel request targetId = (Normal sr, e2, clk2) →
  seq_activity sr = Some a →
  e2 = e
  ∧ seq_valid sr = true
  ∧ (∃ clk1, later clk clk1 ∧ isActivityDeliverable clk1 e a = (true, clk2))
  ∧ fst (fst (deliveryRequestProcess clk2 a e2))
    = (if fst (isActivityDeliverable clk2 e a) then Some a else None)
  ∧ ((∀ clk', fst (isActivityDeliverable clk' e a)
              = fst (isActivityDeliverable clk e a)) →
     fst (fst (deliveryRequestProcess clk2 a e2)) = Some a).
Proof.
  intros Hreq Hseq Ha.
  assert (∀ res,
            (∀ found clk', res = (Normal (Some found), clk') →
               ∃ clk1, later clk clk1
                       ∧ isActivityDeliverable clk1 e found = (true, clk')) →
            identifiedBy res e = (Normal sr, e2, clk2) →
            e2 = e ∧ seq_valid sr = true
            ∧ ∃ clk1, later clk clk1 ∧ isActivityDeliverable clk1 e a = (true, clk2))
    as Hid.
  { intros [[[found|]|] clk'] Hc Hident; simpl in Hident; simplify_eq; simpl in *;
      simplify_eq. by split; [|split; [|apply Hc]]. }
  assert (e2 = e ∧ seq_valid sr = true
          ∧ ∃ clk1, later clk clk1 ∧ isActivityDeliverable clk1 e a = (true, clk2))
    as (-> & Hvalid & clk1 & Hl & Hgate).
  { revert Hseq. unfold sequencingRequestProcess.
    destruct (String.eqb request "start").
    { apply Hid. unfold startSequencingRequestProcess. intros found clk'.
      destruct (negb (isChoiceValid e [])); [done | apply flowSubprocess_deliverable]. }
    destruct (String.eqb_spec request "resumeAll"); [done|].
    destruct (String.eqb request "continue").
    { apply Hid. unfold continueSequencingRequestProcess. intros found clk'.
      destruct (currentActivity (session e)) as [cur|]; [|done].
      destruct (negb (isContinueAllowed e cur)); [done|].
      apply flowSubprocess_deliverable. }
    destruct (String.eqb request "previous").
    { apply Hid. unfold previousSequencingRequestProcess. intros found clk'.
      destruct (currentActivity (session e)) as [cur|]; [|done].
      destruct (negb (isPreviousAllowed e cur)); [done|].
      apply flowSubprocess_deliverable. }
    destruct (String.eqb request "choice").
    { destruct (truthy_string targetId);
        [|intros; simplify_eq; simpl in *; simplify_eq].
      apply Hid. unfold choiceSequencingRequestProcess. intros found clk'.
      destruct (findActivity e (default "" targetId)) as [t|]; [|done].
      destruct (negb (isChoiceValid e t)); [done|].
      apply flowSubprocess_deliverable. }
    destruct (String.eqb request "exit").
    { unfold exitSequencingRequestProcess.
      destruct (currentActivity (session e)) as [cur|];
        [|intros; simplify_eq; simpl in *; simplify_eq].
      destruct (parent cur) as [p|].
      - pose proof (flowSubprocess_deliverable e fuel clk p false false) as Hflow.
        destruct (flowSubprocess clk e fuel p false false) as [c clk'].
        apply (Hid (c, clk')). intros found clk'' [= -> ->]. by apply Hflow.
      - simpl; intros; simplify_eq; simpl in *; simplify_eq. }
    destruct (String.eqb request "exitAll").
    { intros; simplify_eq; simpl in *; simplify_eq. }
    destruct (String.eqb request "abandon").
    { apply Hid. unfold continueSequencingRequestProcess. intros found clk'.
      destruct (currentActivity (session e)) as [cur|]; [|done].
      destruct (negb (isContinueAllowed e cur)); [done|].
      apply flowSubprocess_deliverable. }
    destruct (String.eqb request "abandonAll").
    { intros; simplify_eq; simpl in *; simplify_eq. }
    intros; simplify_eq; simpl in *; simplify_eq. }
  assert (fst (fst (deliveryRequestProcess clk2 a e))
          = (if fst (isActivityDeliverable clk2 e a) then Some a else None))
    as Hdelivery.
  { unfold deliveryRequestProcess.
    destruct (isActivityDeliverable clk2 e a) as [[] clk3]; simpl; [|done].
    by destruct (sequencingRulesCheckProcess clk3 a EntryEvent _). }
  split; [done|]. split; [done|]. split; [by exists clk1|].
  split; [exact Hdelivery|].
  intros Hindep. rewrite Hdelivery, (Hindep clk2), <- (Hindep clk1).
  by rewrite Hgate.
Qed.

Lemma identified_activity_passed_the_gate_witness :
  ∃ e0, newEngine Examples.twoLeaves = Some e0
    ∧ fst (fst (deliveryRequestProcess Examples.clock0 [0] e0)) = Some [0].
Proof.
  assert (∃ e0, newEngine Examples.twoLeaves = Some e0) as [e0 Hnew] by by eexists.
  exists e0. split; [exact Hnew|].
  assert (sequencingRequestProcess Examples.clock0 e0 1 "choice" (Some "A")
          = (Normal {| seq_valid := true; seq_activity := Some [0];
                       seq_exception := None |}, e0, Examples.clock0)) as Hseq
    by (vm_compute in Hnew; injection Hnew as <-; vm_compute; reflexivity).
  assert ("choice" ≠ "resumeAll") as Hreq by discriminate.
  refine (proj2 (proj2 (proj2 (proj2
            (identified_activity_passed_the_gate Examples.clock0 e0 1 "choice"
               (Some "A") _ e0 Examples.clock0 [0] Hreq Hseq eq_refl)))) _).
  intros clk'. vm_compute in Hnew. injection Hnew as <-. reflexivity.
Defined.

(** The two ways a request ends: without a delivery, in a state with the
    same frame; or with the delivery of an activity that passed the gate,
    followed by its entry rules. *)
Lemma overallSequencingProcess_cases clk fuel request targetId e :
  let res := overallSequencingProcess clk fuel request targetId e in
  (same_frame e (snd res) ∧ (fst res = Normal None ∨ fst res = StackOverflow))
  ∨ (∃ e2 clk2 r,
        same_frame e e2
        ∧ fst res = Normal (Some r)
        ∧ fst (isActivityDeliverable clk2 e2 r) = true
        ∧ snd res
          = fst (sequencingRulesCheckProcess (snd (isActivityDeliverable clk2 e2 r))
                   r EntryEvent
                   (updState r (set_activityIsActive true)
                      (set_currentActivity r e2)))).
Proof.
  cbv zeta. unfold overallSequencingProcess. cbv zeta.
  destruct (negb (valid _)); [left; split; [exact (same_frame_refl e) | by left]|].
  pose proof (terminated_frame clk (set_endSession false e)) as Hframe.
  destruct (if bool_decide _ then _ else _) as [e1 clk1]. simpl in Hframe.
  pose proof (sequencingRequestProcess_state clk1 e1 fuel request targetId) as Hst.
  destruct (sequencingRequestProcess clk1 e1 fuel request targetId)
    as [[[sr|] e2] clk2]; simpl in Hst.
  - assert (same_frame e e2) as Hframe2 by (by destruct Hst as [-> | ->]).
    destruct (seq_valid sr), (seq_activity sr) as [a|]; simpl;
      try (left; split; [done | by left]).
    destruct (deliveryRequestProcess clk2 a e2) as [[[r|] e3] clk3] eqn:Hdel; simpl.
    + apply deliveryRequestProcess_delivered in Hdel as (-> & Hgate & Hentry).
      right. exists e2, clk2, a. split; [done|]. split; [done|]. split; [done|].
      by rewrite <- Hentry.
    + apply deliveryRequestProcess_refused in Hdel as ->.
      left. split; [done | by left].
  - left. split; [by destruct Hst as [-> | ->] | by right].
Qed.

(** X7: a request changes the current activity only by delivering: when it
    returns an activity, that activity is the current one afterwards, and
    it is active if it carries no sequencing rules; when it returns null or
    exhausts the stack, the current activity is the one it was.  The tree
    and the manifest are never changed. *)
Theorem current_activity_changes_by_delivery_only clk fuel request targetId e :
  let res := overallSequencingProcess clk fuel request targetId e in
  tree (snd res) = tree e
  ∧ manifest (snd res) = manifest e
  ∧ match fst res with
    | Normal (Some r) =>
        currentActivity (session (snd res)) = Some r
        ∧ (sequencingDefinitionOf e r ≫= sequencingRules = None →
           activityIsActive (stateOf (snd res) r) = true)
    | _ => currentActivity (session (snd res)) = currentActivity (session e)
    end.
Proof.
  cbv zeta.
  destruct (overallSequencingProcess_cases clk fuel request targetId e)
    as [[Hframe Hres] | (e2 & clk2 & r & Hframe & Hres & Hgate & Hstate)].
  - split; [by apply same_frame_tree|]. split; [apply Hframe|].
    destruct Hres as [-> | ->]; by apply same_frame_current.
  - rewrite Hres, Hstate.
    pose proof (sequencingRulesCheckProcess_frame
                  (snd (isActivityDeliverable clk2 e2 r)) r EntryEvent
                  (updState r (set_activityIsActive true) (set_currentActivity r e2)))
      as Hentry.
    split; [|split; [|split]].
    + rewrite (same_frame_tree _ _ Hentry). exact (same_frame_tree _ _ Hframe).
    + destruct Hentry as (-> & _). apply Hframe.
    + by rewrite (same_frame_current _ _ Hentry).
    + intros Hrules. unfold sequencingRulesCheckProcess, sequencingDefinitionOf.
      change (tree (updState r (set_activityIsActive true) (set_currentActivity r e2)))
        with (tree e2).
      rewrite (same_frame_tree _ _ Hframe).
      unfold sequencingDefinitionOf in Hrules. rewrite Hrules. simpl.
      by rewrite stateOf_updState_eq.
Qed.

(** ** Requests that are refused *)

Lemma includes_elem_of l s : includes l s = true ↔ s ∈ l.
Proof.
  unfold includes. rewrite existsb_exists. split.
  - intros (x & Hin & ->%String.eqb_eq). by apply list_elem_of_In.
  - intros Hin. exists s. split; [by apply list_elem_of_In | apply String.eqb_refl].
Qed.

(** X8: a request token outside the nine navigation requests (tokens are
    compared case-sensitively) is refused with the exception ["Invalid
    navigation request"]: the request returns null and the session is
    unchanged, whatever the target and the state. *)
Theorem unknown_request_is_refused clk fuel request targetId e :
  request ∉ validRequests →
  let res := processNavigationRequest clk fuel request targetId e in
  navigationRequestProcess (set_endSession false e) request targetId
  = invalidRequest "Invalid navigation request"
  ∧ fst res = Normal None
  ∧ session (snd res) = session e.
Proof.
  intros Hreq. cbv zeta.
  assert (includes validRequests request = false) as Hinc.
  { apply not_true_is_false. by rewrite includes_elem_of. }
  rewrite (navigationRequestProcess_unknown _ _ _ Hinc). split; [done|].
  unfold processNavigationRequest.
  rewrite overallSequencingProcess_invalid
    by (by rewrite (navigationRequestProcess_unknown _ _ _ Hinc)).
  done.
Qed.

Lemma unknown_request_is_refused_witness :
  ∃ e0, newEngine Examples.twoLeaves = Some e0
    ∧ fst (processNavigationRequest Examples.clock0 1 "Start" None e0) = Normal None.
Proof.
  assert (∃ e0, newEngine Examples.twoLeaves = Some e0) as [e0 Hnew] by by eexists.
  exists e0. split; [exact Hnew|].
  assert ("Start" ∉ validRequests) as Hreq.
  { intros Hin. apply (bool_decide_pack _) in Hin. vm_compute in Hin. exact Hin. }
  exact (proj1 (proj2 (unknown_request_is_refused Examples.clock0 1 "Start" None e0 Hreq))).
Defined.

(** X9: [start] and [resumeAll] issued while an activity is current are
    refused with ["Sequencing session already active"], and [continue],
    [previous], [exit] and [abandon] issued while none is current are
    refused with ["No current activity"]; the request then returns null and
    the session is unchanged: no termination runs, the current activity
    keeps its state. *)
Theorem request_checks_the_current_activity clk fuel request targetId e :
  ((request = "start" ∨ request = "resumeAll")
   ∧ is_Some (currentActivity (session e)))
  ∨ ((request = "continue" ∨ request = "previous" ∨ request = "exit"
      ∨ request = "abandon")
     ∧ currentActivity (session e) = None) →
  let res := processNavigationRequest clk fuel request targetId e in
  navigationRequestProcess (set_endSession false e) request targetId
  = invalidRequest (if bool_decide (is_Some (currentActivity (session e)))
                    then "Sequencing session already active"
                    else "No current activity")
  ∧ fst res = Normal None
  ∧ session (snd res) = session e.
Proof.
  intros Hcase. cbv zeta.
  assert (navigationRequestProcess (set_endSession false e) request targetId
          = invalidRequest (if bool_decide (is_Some (currentActivity (session e)))
                            then "Sequencing session already active"
                            else "No current activity")) as Hnav.
  { destruct Hcase as [[Hreq Hcur] | [Hreq Hcur]].
    - rewrite (navigationRequestProcess_start (set_endSession false e) _ _ eq_refl Hreq).
      change (currentActivity (session (set_endSession false e)))
        with (currentActivity (session e)).
      by rewrite bool_decide_eq_true_2.
    - rewrite (navigationRequestProcess_current (set_endSession false e) _ _ eq_refl
                 Hreq).
      change (currentActivity (session (set_endSession false e)))
        with (currentActivity (session e)).
      rewrite Hcur. by rewrite bool_decide_eq_false_2 by (by intros [? ?]). }
  split; [exact Hnav|]. unfold processNavigationRequest.
  rewrite overallSequencingProcess_invalid by (by rewrite Hnav). done.
Qed.

Lemma request_checks_the_current_activity_witness :
  ∃ e0, newEngine Examples.twoLeaves = Some e0
    ∧ fst (processNavigationRequest Examples.clock0 1 "continue" None e0) = Normal None.
Proof.
  assert (∃ e0, newEngine Examples.twoLeaves = Some e0) as [e0 Hnew] by by eexists.
  exists e0. split; [exact Hnew|].
  refine (proj1 (proj2 (request_checks_the_current_activity Examples.clock0 1
                          "continue" None e0 _))).
  right. split; [by left|]. exact (newEngine_idle _ _ Hnew).
Defined.


(** ** Requests that deliver *)

Lemma flowSubprocess_enter_leaf clk e fuel r reverse :
  fst (isActivityDeliverable clk e r) = true →
  flowSubprocess clk e (S fuel) r true reverse
  = (Normal (Some r), snd (isActivityDeliverable clk e r)).
Proof.
  intros Hgate. simpl.
  destruct (isActivityDeliverable_gate clk e r Hgate) as (a & ref & -> & -> & _).
  simpl. destruct (isActivityDeliverable clk e r) as [b clk1]. simpl in *.
  by rewrite Hgate.
Qed.

Lemma identifierOrNull_some e r a :
  deref (tree e) r = Some a → identifier a ≠ "" →
  identifierOrNull e (Some r) = Some (identifier a).
Proof.
  intros Ha Hid. unfold identifierOrNull. simpl. rewrite Ha.
  by destruct (String.eqb_spec (identifier a) "").
Qed.

(** A request whose sequencing request process identifies an activity
    that passes the delivery gate at the reading made for the delivery. *)
Lemma delivered_after clk fuel request targetId e e1 clk1 found clk2 :
  valid (navigationRequestProcess (set_endSession false e) request targetId) = true →
  (if bool_decide (is_Some (currentActivity (session e)))
   then terminationRequestProcess clk (set_endSession false e)
   else (set_endSession false e, clk)) = (e1, clk1) →
  sequencingRequestProcess clk1 e1 fuel request targetId
  = (identified (Normal (Some found)) e1, clk2) →
  fst (isActivityDeliverable clk2 e1 found) = true →
  let res := overallSequencingProcess clk fuel request targetId e in
  fst res = Normal (Some found)
  ∧ currentActivity (session (snd res)) = Some found
  ∧ tree (snd res) = tree e1.
Proof.
  intros Hvalid He1 Hseq Hgate. cbv zeta.
  rewrite overallSequencingProcess_valid by done.
  rewrite He1, Hseq. simpl. unfold deliveryRequestProcess.
  destruct (isActivityDeliverable clk2 e1 found) as [b clk3]. simpl in Hgate.
  subst b. simpl.
  pose proof (sequencingRulesCheckProcess_frame clk3 found EntryEvent
                (updState found (set_activityIsActive true)
                   (set_currentActivity found e1))) as Hframe.
  destruct (sequencingRulesCheckProcess clk3 found EntryEvent _) as [e3 clk4].
  simpl in *. split; [done|]. split.
  - by rewrite (same_frame_current _ _ Hframe).
  - by rewrite (same_frame_tree _ _ Hframe).
Qed.

(** X10: on an engine without current activity, a [choice] whose target
    identifier is not empty and resolves to an activity that permits choice
    and passes the delivery gate twice, in the evaluation the flow makes
    and in the one the delivery request process makes with the clock as the
    flow left it, delivers that activity: the request returns the
    identifier asked for and the target is the current activity
    afterwards. *)
Theorem choice_delivers_its_target clk fuel e id t :
  currentActivity (session e) = None →
  id ≠ "" →
  findActivity e id = Some t →
  isChoiceValid e t = true →
  let flowGate := isActivityDeliverable clk e t in
  fst flowGate = true →
  fst (isActivityDeliverable (snd flowGate) e t) = true →
  let res := processNavigationRequest clk (S fuel) "choice" (Some id) e in
  fst res = Normal (Some id)
  ∧ currentActivity (session (snd res)) = Some t
  ∧ getCurrentActivity (snd res) = Some id.
Proof.
  intros Hidle Hid Hfind Hchoice flowGate Hgate Hgate2. cbv zeta.
  assert (∃ a, deref (tree e) t = Some a ∧ identifier a = id) as (a & Ha & Hida).
  { unfold findActivity in Hfind. rewrite findActivityInTree_preorderFind in Hfind.
    apply preorderFind_sound in Hfind as (path & b & -> & Hb & HP%String.eqb_eq).
    exists b. split; [|done]. unfold deref. by rewrite app_nil_r, rev_involutive. }
  assert (truthy_string (Some id) = true) as Htruthy.
  { simpl. by destruct (String.eqb_spec id ""). }
  destruct (delivered_after clk (S fuel) "choice" (Some id) e (set_endSession false e)
              clk t (snd flowGate)) as (Hres & Hcur & Htree).
  - rewrite navigationRequestProcess_choice by reflexivity. rewrite Htruthy.
    simpl default.
    change (findActivity (set_endSession false e) id) with (findActivity e id).
    rewrite Hfind.
    change (isChoiceValid (set_endSession false e) t) with (isChoiceValid e t).
    by rewrite Hchoice.
  - rewrite Hidle. by rewrite bool_decide_eq_false_2 by (by intros [? ?]).
  - rewrite sequencingRequestProcess_choice, Htruthy.
    unfold choiceSequencingRequestProcess. simpl default.
    change (findActivity (set_endSession false e) id) with (findActivity e id).
    rewrite Hfind.
    change (isChoiceValid (set_endSession false e) t) with (isChoiceValid e t).
    rewrite Hchoice. simpl negb. cbv iota.
    by rewrite (flowSubprocess_enter_leaf clk (set_endSession false e) fuel t false)
      by exact Hgate.
  - exact Hgate2.
  - unfold processNavigationRequest.
    destruct (overallSequencingProcess clk (S fuel) "choice" (Some id) e)
      as [[d|] e3]; simpl in Hres, Hcur, Htree; [|done].
    injection Hres as ->. cbn [fst snd].
    change (tree (set_endSession false e)) with (tree e) in Htree.
    split; [|split].
    + rewrite (identifierOrNull_some _ t a); rewrite ?Htree; congruence.
    + exact Hcur.
    + unfold getCurrentActivity. rewrite Hcur, Htree. simpl. rewrite Ha. simpl.
      congruence.
Qed.

Lemma choice_delivers_its_target_witness :
  ∃ e0, newEngine Examples.twoLeaves = Some e0
    ∧ fst (processNavigationRequest Examples.clock0 1 "choice" (Some "B") e0)
      = Normal (Some "B").
Proof.
  assert (∃ e0, newEngine Examples.twoLeaves = Some e0) as [e0 Hnew] by by eexists.
  exists e0. split; [exact Hnew|].
  refine (proj1 (choice_delivers_its_target Examples.clock0 0 e0 "B" [1] _ _ _ _ _ _)).
  - exact (newEngine_idle _ _ Hnew).
  - discriminate.
  - vm_compute in Hnew. injection Hnew as <-. reflexivity.
  - vm_compute in Hnew. injection Hnew as <-. reflexivity.
  - vm_compute in Hnew. injection Hnew as <-. reflexivity.
  - vm_compute in Hnew. injection Hnew as <-. reflexivity.
Defined.

(** ** Flow between siblings *)

Lemma findIndex_NoDup (l : list Activity) :
  ∀ i c, NoDup (identifier <$> l) → l !! i = Some c →
         findIndex (fun child => String.eqb (identifier child) (identifier c)) l
         = Some i.
Proof.
  induction l as [|x l IHl]; intros i c Hnd Hc; [done|].
  simpl in Hnd. inversion Hnd as [|? ? Hx Hnd']; subst. clear Hnd.
  destruct i as [|i]; simpl in *.
  - simplify_eq. by rewrite String.eqb_refl.
  - destruct (String.eqb_spec (identifier x) (identifier c)) as [Heq|_].
    + exfalso. apply Hx. rewrite Heq. apply list_elem_of_fmap. exists c.
      split; [done|]. by eapply list_elem_of_lookup_2.
    + by rewrite (IHl i c Hnd' Hc).
Qed.

Lemma control_modes_follow_the_tree e e' r :
  tree e' = tree e →
  isContinueAllowed e' r = isContinueAllowed e r
  ∧ isPreviousAllowed e' r = isPreviousAllowed e r
  ∧ isChoiceValid e' r = isChoiceValid e r.
Proof.
  intros Htree.
  unfold isContinueAllowed, isPreviousAllowed, isChoiceValid, sequencingDefinitionOf.
  by rewrite Htree.
Qed.

Lemma currentIndex_distinct e i (p : ActivityRef) pa c :
  currentActivity (session e) = Some (i :: p) →
  deref (tree e) p = Some pa →
  children pa !! i = Some c →
  NoDup (identifier <$> children pa) →
  currentIndex e = Some (p, length (children pa), Some i).
Proof.
  intros Hcur Hpa Hc Hnd. unfold currentIndex. rewrite Hcur. simpl.
  rewrite deref_cons, Hpa. simpl. rewrite Hc.
  by rewrite (findIndex_NoDup _ i c Hnd Hc).
Qed.

(** The state and the clock with which the sequencing request process
    runs when an activity is current: same tree, same current activity. *)
Lemma terminated_state clk e cur :
  currentActivity (session e) = Some cur →
  let terminated := terminationRequestProcess clk (set_endSession false e) in
  (if bool_decide (is_Some (currentActivity (session e)))
   then terminationRequestProcess clk (set_endSession false e)
   else (set_endSession false e, clk)) = (fst terminated, snd terminated)
  ∧ tree (fst terminated) = tree e
  ∧ currentActivity (session (fst terminated)) = Some cur.
Proof.
  intros Hcur. cbv zeta. rewrite Hcur. rewrite bool_decide_eq_true_2 by done.
  pose proof (terminationRequestProcess_frame clk (set_endSession false e)) as Hf.
  split; [by destruct (terminationRequestProcess clk (set_endSession false e))|].
  split.
  - exact (same_frame_tree _ _ Hf).
  - rewrite (same_frame_current _ _ Hf). exact Hcur.
Qed.

(** X11: inside a cluster whose children carry pairwise different
    identifiers, [continue] (and [abandon], which selects like [continue])
    from a current leaf that permits flow delivers the next sibling, when
    that sibling, once the current activity has been terminated, passes the
    delivery gate twice: in the evaluation the flow makes and in the one
    the delivery request process makes with the clock as the flow left
    it. *)
Theorem continue_delivers_the_next_sibling clk fuel request targetId e i p pa c :
  request = "continue" ∨ request = "abandon" →
  currentActivity (session e) = Some (i :: p) →
  deref (tree e) p = Some pa → isLeaf pa = false →
  NoDup (identifier <$> children pa) →
  children pa !! i = Some c → isLeaf c = true →
  isContinueAllowed e (i :: p) = true →
  let terminated := terminationRequestProcess clk (set_endSession false e) in
  let flowGate :=
    isActivityDeliverable (snd terminated) (fst terminated) (S i :: p) in
  fst flowGate = true →
  fst (isActivityDeliverable (snd flowGate) (fst terminated) (S i :: p)) = true →
  let res := overallSequencingProcess clk (S (S (S fuel))) request targetId e in
  fst res = Normal (Some (S i :: p))
  ∧ currentActivity (session (snd res)) = Some (S i :: p).
Proof.
  intros Hreq Hcur Hpa Hpaleaf Hnd Hc Hcleaf Hflow terminated flowGate Hgate Hgate2.
  cbv zeta.
  destruct (terminated_state clk e (i :: p) Hcur) as (He1 & Htree & Hcur1).
  fold terminated in He1, Htree, Hcur1.
  set (e1 := fst terminated) in *. set (clk1 := snd terminated) in *.
  assert (is_Some (children pa !! S i)) as [n Hn].
  { destruct (isActivityDeliverable_gate clk1 e1 _ Hgate) as (a & ref & Ha & _).
    rewrite deref_cons, Htree, Hpa in Ha. simpl in Ha. by eexists. }
  assert (getNextChild e1 p = Some (S i :: p)) as Hnext.
  { unfold getNextChild.
    rewrite (currentIndex_distinct e1 i p pa c) by (by rewrite ?Htree).
    apply lookup_lt_Some in Hn.
    destruct (Nat.eqb_spec (S i) (length (children pa))); [lia | done]. }
  assert (flowSubprocess clk1 e1 (S (S (S fuel))) (i :: p) false false
          = (Normal (Some (S i :: p)), snd flowGate)) as Hflowed.
  { rewrite (flowSubprocess_leaf_out clk1 e1 _ (i :: p) c p false false);
      [| by rewrite deref_cons, Htree, Hpa | done | done | done].
    rewrite (flowSubprocess_next_child clk1 e1 _ p pa (S i :: p));
      [| by rewrite Htree | done | done].
    by apply flowSubprocess_enter_leaf. }
  destruct (delivered_after clk (S (S (S fuel))) request targetId e e1 clk1
              (S i :: p) (snd flowGate)) as (Hres & Hcur' & _); [|done| |done|done].
  - rewrite (navigationRequestProcess_current (set_endSession false e) _ _ eq_refl)
      by (destruct Hreq as [-> | ->]; auto).
    change (currentActivity (session (set_endSession false e)))
      with (currentActivity (session e)).
    rewrite Hcur. by rewrite bool_decide_eq_true_2.
  - assert (continueSequencingRequestProcess clk1 e1 (S (S (S fuel)))
            = (Normal (Some (S i :: p)), snd flowGate)) as Hcont.
    { unfold continueSequencingRequestProcess. rewrite Hcur1.
      rewrite (proj1 (control_modes_follow_the_tree e e1 (i :: p) Htree)), Hflow.
      exact Hflowed. }
    destruct Hreq as [-> | ->].
    + by rewrite sequencingRequestProcess_continue, Hcont.
    + by rewrite sequencingRequestProcess_abandon, Hcont.
Qed.

(** X12: inside a cluster whose children carry pairwise different
    identifiers, [previous] from a current leaf that does not set
    [forwardOnly] delivers the preceding sibling, when that sibling, once
    the current activity has been terminated, passes the delivery gate
    twice: in the evaluation the flow makes and in the one the delivery
    request process makes with the clock as the flow left it. *)
Theorem previous_delivers_the_preceding_sibling clk fuel targetId e i p pa c :
  currentActivity (session e) = Some (S i :: p) →
  deref (tree e) p = Some pa → isLeaf pa = false →
  NoDup (identifier <$> children pa) →
  children pa !! S i = Some c → isLeaf c = true →
  isPreviousAllowed e (S i :: p) = true →
  let terminated := terminationRequestProcess clk (set_endSession false e) in
  let flowGate :=
    isActivityDeliverable (snd terminated) (fst terminated) (i :: p) in
  fst flowGate = true →
  fst (isActivityDeliverable (snd flowGate) (fst terminated) (i :: p)) = true →
  let res := overallSequencingProcess clk (S (S (S fuel))) "previous" targetId e in
  fst res = Normal (Some (i :: p))
  ∧ currentActivity (session (snd res)) = Some (i :: p).
Proof.
  intros Hcur Hpa Hpaleaf Hnd Hc Hcleaf Hback terminated flowGate Hgate Hgate2.
  cbv zeta.
  destruct (terminated_state clk e (S i :: p) Hcur) as (He1 & Htree & Hcur1).
  fold terminated in He1, Htree, Hcur1.
  set (e1 := fst terminated) in *. set (clk1 := snd terminated) in *.
  assert (getPreviousChild e1 p = Some (i :: p)) as Hprev.
  { unfold getPreviousChild.
    by rewrite (currentIndex_distinct e1 (S i) p pa c) by (by rewrite ?Htree). }
  assert (flowSubprocess clk1 e1 (S (S (S fuel))) (S i :: p) false true
          = (Normal (Some (i :: p)), snd flowGate)) as Hflowed.
  { rewrite (flowSubprocess_leaf_out clk1 e1 _ (S i :: p) c p false true);
      [| by rewrite deref_cons, Htree, Hpa | done | done | done].
    assert (flowSubprocess clk1 e1 (S (S fuel)) p false true
            = flowSubprocess clk1 e1 (S fuel) (i :: p) true true) as ->.
    { cbn [flowSubprocess]. rewrite Htree, Hpa, Hpaleaf. simpl. by rewrite Hprev. }
    by apply flowSubprocess_enter_leaf. }
  destruct (delivered_after clk (S (S (S fuel))) "previous" targetId e e1 clk1
              (i :: p) (snd flowGate)) as (Hres & Hcur' & _); [|done| |done|done].
  - rewrite (navigationRequestProcess_current (set_endSession false e) _ _ eq_refl)
      by auto.
    change (currentActivity (session (set_endSession false e)))
      with (currentActivity (session e)).
    rewrite Hcur. by rewrite bool_decide_eq_true_2.
  - rewrite sequencingRequestProcess_previous.
    unfold previousSequencingRequestProcess. rewrite Hcur1.
    rewrite (proj1 (proj2 (control_modes_follow_the_tree e e1 (S i :: p) Htree))), Hback.
    simpl negb. cbv iota. by rewrite Hflowed.
Qed.

Lemma continue_delivers_the_next_sibling_witness :
  ∃ e0, newEngine Examples.rollupCourse = Some e0
    ∧ let eA := snd (overallSequencingProcess Examples.clock0 1 "choice" (Some "a") e0) in
      fst (overallSequencingProcess Examples.clock0 3 "continue" None eA)
      = Normal (Some [1; 0]).
Proof.
  assert (∃ e0, newEngine Examples.rollupCourse = Some e0) as [e0 Hnew] by by eexists.
  exists e0. split; [exact Hnew|]. cbv zeta.
  vm_compute in Hnew. injection Hnew as <-.
  match goal with
  | |- fst (overallSequencingProcess _ _ _ _ ?x) = _ => set (eA := x)
  end.
  destruct (deref (tree eA) [0]) as [pa|] eqn:Hpa; [|vm_compute in Hpa; discriminate Hpa].
  destruct (children pa !! 0) as [c|] eqn:Hc;
    [|vm_compute in Hpa; injection Hpa as <-; vm_compute in Hc; discriminate Hc].
  refine (proj1 (continue_delivers_the_next_sibling Examples.clock0 0 "continue" None
                   eA 0 [0] pa c (or_introl eq_refl) _ Hpa _ _ Hc _ _ _ _)).
  - vm_compute. reflexivity.
  - vm_compute in Hpa. injection Hpa as <-. reflexivity.
  - vm_compute in Hpa. injection Hpa as <-.
    apply (bool_decide_unpack _). vm_compute. exact I.
  - vm_compute in Hpa. injection Hpa as <-. vm_compute in Hc. injection Hc as <-.
    reflexivity.
  - vm_compute. reflexivity.
  - vm_compute. reflexivity.
  - vm_compute. reflexivity.
Defined.

Lemma previous_delivers_the_preceding_sibling_witness :
  ∃ e0, newEngine Examples.rollupCourse = Some e0
    ∧ let eB := snd (overallSequencingProcess Examples.clock0 1 "choice" (Some "b") e0) in
      fst (overallSequencingProcess Examples.clock0 3 "previous" None eB)
      = Normal (Some [0; 0]).
Proof.
  assert (∃ e0, newEngine Examples.rollupCourse = Some e0) as [e0 Hnew] by by eexists.
  exists e0. split; [exact Hnew|]. cbv zeta.
  vm_compute in Hnew. injection Hnew as <-.
  match goal with
  | |- fst (overallSequencingProcess _ _ _ _ ?x) = _ => set (eB := x)
  end.
  destruct (deref (tree eB) [0]) as [pa|] eqn:Hpa; [|vm_compute in Hpa; discriminate Hpa].
  destruct (children pa !! 1) as [c|] eqn:Hc;
    [|vm_compute in Hpa; injection Hpa as <-; vm_compute in Hc; discriminate Hc].
  refine (proj1 (previous_delivers_the_preceding_sibling Examples.clock0 0 None
                   eB 0 [0] pa c _ Hpa _ _ Hc _ _ _ _)).
  - vm_compute. reflexivity.
  - vm_compute in Hpa. injection Hpa as <-. reflexivity.
  - vm_compute in Hpa. injection Hpa as <-.
    apply (bool_decide_unpack _). vm_compute. exact I.
  - vm_compute in Hpa. injection Hpa as <-. vm_compute in Hc. injection Hc as <-.
    reflexivity.
  - vm_compute. reflexivity.
  - vm_compute. reflexivity.
  - vm_compute. reflexivity.
Defined.

(** ** The current activity *)

(** In every reachable state the current activity, if any, is an activity
    of the tree flagged as a leaf and bound to a resource; it is not the
    root, which is bound to none. *)
Lemma reachable_current_leaf m e cur :
  reachable m e →
  currentActivity (session e) = Some cur →
  ∃ i p a, cur = i :: p ∧ deref (tree e) cur = Some a ∧ isLeaf a = true.
Proof.
  intros Hreach. revert cur.
  induction Hreach as [e Hnew | clk fuel request targetId e Hreach IH]; intros cur Hcur.
  - by rewrite (newEngine_idle m e Hnew) in Hcur.
  - destruct (overallSequencingProcess_cases clk fuel request targetId e)
      as [[Hframe _] | (e2 & clk2 & r & Hframe & _ & Hgate & Hstate)].
    + rewrite (same_frame_current _ _ Hframe) in Hcur.
      rewrite (same_frame_tree _ _ Hframe). by apply IH.
    + pose proof (sequencingRulesCheckProcess_frame
                    (snd (isActivityDeliverable clk2 e2 r)) r EntryEvent
                    (updState r (set_activityIsActive true) (set_currentActivity r e2)))
        as Hentry.
      rewrite Hstate in Hcur |- *.
      rewrite (same_frame_current _ _ Hentry) in Hcur. simpl in Hcur. simplify_eq.
      rewrite (same_frame_tree _ _ Hentry).
      change (tree (updState cur (set_activityIsActive true)
                      (set_currentActivity cur e2))) with (tree e2).
      destruct (isActivityDeliverable_gate clk2 e2 cur Hgate)
        as (a & ref & Ha & Hleaf & Hitem & _).
      destruct cur as [|i p].
      * exfalso. rewrite (same_frame_tree _ _ Hframe) in Ha.
        destruct (buildActivityTree_root m (tree e) (reachable_tree m e Hreach))
          as [_ Hroot].
        unfold deref in Ha. simpl in Ha. simplify_eq. by rewrite Hroot in Hitem.
      * by exists i, p, a.
Qed.

(** X13: in every reachable state whose current activity permits flow,
    [exit] is processed like [continue]: it flows from the parent of the
    current activity, where [continue] arrives after one step out of the
    current leaf, so both requests return the same activity and leave the
    same state ([exit] with one stack frame less). *)
Theorem exit_is_processed_like_continue m e clk fuel targetId cur :
  reachable m e →
  currentActivity (session e) = Some cur →
  isContinueAllowed e cur = true →
  overallSequencingProcess clk fuel "exit" targetId e
  = overallSequencingProcess clk (S fuel) "continue" targetId e.
Proof.
  intros Hreach Hcur Hflow.
  destruct (reachable_current_leaf m e cur Hreach Hcur) as (i & p & c & -> & Hc & Hleaf).
  destruct (terminated_state clk e (i :: p) Hcur) as (He1 & Htree & Hcur1).
  assert (∀ request, request = "continue" ∨ request = "exit" →
            valid (navigationRequestProcess (set_endSession false e) request targetId)
            = true) as Hvalid.
  { intros request Hreq.
    rewrite (navigationRequestProcess_current (set_endSession false e) _ _ eq_refl)
      by (destruct Hreq as [-> | ->]; auto).
    change (currentActivity (session (set_endSession false e)))
      with (currentActivity (session e)).
    rewrite Hcur. by rewrite bool_decide_eq_true_2. }
  rewrite !overallSequencingProcess_valid by auto. rewrite He1.
  set (e1 := fst (terminationRequestProcess clk (set_endSession false e))) in *.
  set (clk1 := snd (terminationRequestProcess clk (set_endSession false e))) in *.
  rewrite sequencingRequestProcess_exit, sequencingRequestProcess_continue.
  unfold exitSequencingRequestProcess, continueSequencingRequestProcess.
  rewrite Hcur1. simpl parent. cbv iota.
  rewrite (proj1 (control_modes_follow_the_tree e e1 (i :: p) Htree)), Hflow.
  simpl negb. cbv iota.
  rewrite (flowSubprocess_leaf_out clk1 e1 fuel (i :: p) c p false false)
    by (by rewrite ?Htree).
  by destruct (flowSubprocess clk1 e1 fuel p false false) as [[[f|]|] clk2].
Qed.

Lemma exit_is_processed_like_continue_witness :
  ∃ e0, newEngine Examples.rollupCourse = Some e0
    ∧ let eA := snd (overallSequencingProcess Examples.clock0 1 "choice" (Some "a") e0) in
      overallSequencingProcess Examples.clock0 2 "exit" None eA
      = overallSequencingProcess Examples.clock0 3 "continue" None eA.
Proof.
  assert (∃ e0, newEngine Examples.rollupCourse = Some e0) as [e0 Hnew] by by eexists.
  exists e0. split; [exact Hnew|]. cbv zeta.
  refine (exit_is_processed_like_continue Examples.rollupCourse _ Examples.clock0 2 None
            [0; 0] (reachable_request _ _ _ _ _ _ (reachable_new _ _ Hnew)) _ _).
  - vm_compute in Hnew. injection Hnew as <-. vm_compute. reflexivity.
  - vm_compute in Hnew. injection Hnew as <-. vm_compute. reflexivity.
Defined.

(** ** Frames of rollup and of rule actions *)

Lemma rollupActivityState_keeps clk r e q :
  q ≠ r ∨ (∀ a, deref (tree e) q = Some a → isLeaf a = true) →
  stateOf (fst (rollupActivityState clk r e)) q = stateOf e q.
Proof.
  destruct (decide (q = r)) as [->|Hne]; [|intros _; by apply rollupActivityState_other].
  intros [Hne | Hleaf]; [done|].
  unfold rollupActivityState. destruct (deref (tree e) r) as [a|]; [|done].
  by rewrite (Hleaf a eq_refl).
Qed.

Lemma rollupProcess_keeps r :
  ∀ clk e q,
    ¬ q `suffix_of` r ∨ (∀ a, deref (tree e) q = Some a → isLeaf a = true) →
    stateOf (fst (rollupProcess clk r e)) q = stateOf e q.
Proof.
  induction r as [|i p IHp]; intros clk e q Hq; simpl.
  - pose proof (rollupActivityState_keeps clk [] e q) as H1.
    destruct (rollupActivityState clk [] e) as [e1 clk1]. simpl in *.
    apply H1. destruct Hq as [Hq | Hq]; [left; by intros -> | by right].
  - pose proof (rollupActivityState_keeps clk (i :: p) e q) as H1.
    pose proof (rollupActivityState_tree clk (i :: p) e) as Ht.
    destruct (rollupActivityState clk (i :: p) e) as [e1 clk1]. simpl in *.
    rewrite IHp.
    + apply H1. destruct Hq as [Hq | Hq]; [left; by intros -> | by right].
    + rewrite Ht. destruct Hq as [Hq | Hq]; [left | by right].
      intros Hs. apply Hq. by apply suffix_cons_r.
Qed.

(** X14: the rollup process started at an activity changes the state of
    no activity other than that activity and its ancestors, and of none
    that is flagged as a leaf; it changes neither the tree nor the current
    activity. *)
Theorem rollup_changes_cluster_ancestors_only clk r e q :
  ¬ q `suffix_of` r ∨ (∀ a, deref (tree e) q = Some a → isLeaf a = true) →
  stateOf (fst (rollupProcess clk r e)) q = stateOf e q
  ∧ same_frame e (fst (rollupProcess clk r e)).
Proof.
  intros Hq. split; [by apply rollupProcess_keeps | apply rollupProcess_frame].
Qed.

Lemma rollup_changes_cluster_ancestors_only_witness :
  ∃ e0, newEngine Examples.rollupCourse = Some e0
    ∧ stateOf (fst (rollupProcess Examples.clock0 [0; 0] e0)) [1; 0]
      = stateOf e0 [1; 0].
Proof.
  assert (∃ e0, newEngine Examples.rollupCourse = Some e0) as [e0 Hnew] by by eexists.
  exists e0. split; [exact Hnew|].
  refine (proj1 (rollup_changes_cluster_ancestors_only Examples.clock0 [0; 0] e0
                   [1; 0] _)).
  left. intros [l Hl]. destruct l as [|x [|y l]]; simpl in Hl; try discriminate Hl.
  destruct l; discriminate Hl.
Defined.

Lemma executeRuleAction_other act r e q :
  act ≠ "retryAll" → q ≠ r →
  stateOf (executeRuleAction act r e) q = stateOf e q.
Proof.
  intros Hact Hne. unfold executeRuleAction, resetActivityState.
  destruct (String.eqb act "skip"); [by rewrite stateOf_updState_ne|].
  destruct (String.eqb act "disabled"); [done|].
  destruct (String.eqb act "hiddenFromChoice"); [done|].
  destruct (String.eqb act "stopForwardTraversal"); [done|].
  destruct (String.eqb act "exitParent"); [done|].
  destruct (String.eqb act "exitAll"); [done|].
  destruct (String.eqb act "retry"); [by rewrite stateOf_updState_ne|].
  by destruct (String.eqb_spec act "retryAll").
Qed.

(** X15: as long as none of the rules checked carries the action
    ["retryAll"], the sequencing rules check of an activity, at entry or at
    exit, changes the state of no other activity. *)
Theorem rules_change_their_own_activity_only clk r event e rules q :
  sequencingDefinitionOf e r ≫= sequencingRules = Some rules →
  (∀ rule,
     rule ∈ (default [] (preConditionRule rules)
             ++ default [] (exitConditionRule rules)
             ++ default [] (postConditionRule rules))%list →
     action rule ≠ "retryAll") →
  q ≠ r →
  stateOf (fst (sequencingRulesCheckProcess clk r event e)) q = stateOf e q.
Proof.
  intros Hrules Hall Hne. unfold sequencingRulesCheckProcess. rewrite Hrules.
  assert (∀ l s,
    (∀ rule, rule ∈ l → action rule ≠ "retryAll") →
    stateOf (fst (fold_left (checkRule r) l s)) q = stateOf (fst s) q) as Hfold.
  { induction l as [|rule l IHl]; intros s Hl; simpl; [done|].
    rewrite IHl by (intros; apply Hl; by apply list_elem_of_further).
    destruct s as [e' clk']. simpl.
    destruct (evaluateSequencingRule clk' e' rule r) as [[] clk2]; simpl; [|done].
    apply executeRuleAction_other; [|done]. apply Hl, list_elem_of_here. }
  rewrite Hfold; [done|]. intros rule Hin. apply Hall.
  destruct event; rewrite !elem_of_app in *; tauto.
Qed.

Lemma rules_change_their_own_activity_only_witness :
  ∃ e0, newEngine (Examples.skipManifest CombAll) = Some e0
    ∧ stateOf (fst (sequencingRulesCheckProcess Examples.clock0 [1; 0] EntryEvent e0))
        [0; 0]
      = stateOf e0 [0; 0]
    ∧ activityCompletionStatus
        (stateOf (fst (sequencingRulesCheckProcess Examples.clock0 [1; 0] EntryEvent e0))
           [1; 0]) = true.
Proof.
  assert (∃ e0, newEngine (Examples.skipManifest CombAll) = Some e0) as [e0 Hnew]
    by by eexists.
  exists e0. split; [exact Hnew|]. split.
  - refine (rules_change_their_own_activity_only Examples.clock0 [1; 0] EntryEvent e0
              {| preConditionRule := Some [Examples.skipUnlessSatisfied CombAll];
                 exitConditionRule := None; postConditionRule := None |}
              [0; 0] _ _ _).
    + vm_compute in Hnew. injection Hnew as <-. reflexivity.
    + intros rule Hin. apply list_elem_of_In in Hin. simpl in Hin.
      destruct Hin as [<- | []]. discriminate.
    + discriminate.
  - vm_compute in Hnew. injection Hnew as <-. vm_compute. reflexivity.
Defined.


(** ** Objectives *)

(** X16: [setObjectiveSatisfiedStatus] followed by the getters: the
    objective addressed reads back the status written and a known progress
    status, its measure is unchanged, every objective with another key and
    every other activity are untouched; an absent and an empty objective
    identifier both address the primary objective. *)
Theorem objective_status_round_trip r satisfied objectiveId e :
  let e' := setObjectiveSatisfiedStatus r satisfied objectiveId e in
  getObjectiveSatisfiedStatus e' r objectiveId = satisfied
  ∧ getObjectiveProgressStatus e' r objectiveId = true
  ∧ getObjectiveMeasure e' r objectiveId = getObjectiveMeasure e r objectiveId
  ∧ (∀ other, objectiveKey other ≠ objectiveKey objectiveId →
              getObjective e' r other = getObjective e r other)
  ∧ (∀ q, q ≠ r → stateOf e' q = stateOf e q)
  ∧ getObjective e' r (Some "") = getObjective e' r None.
Proof.
  cbv zeta.
  unfold getObjectiveSatisfiedStatus, getObjectiveProgressStatus, getObjectiveMeasure,
    getObjective, setObjectiveSatisfiedStatus.
  rewrite !stateOf_updState_eq. simpl. rewrite !lookup_insert_eq. simpl.
  repeat split; try done.
  - by destruct (objectives (stateOf e r) !! objectiveKey objectiveId).
  - intros other Hother. by rewrite lookup_insert_ne.
  - intros q Hq. by rewrite stateOf_updState_ne.
Qed.

(** ** Resetting the tree *)

Lemma resetActivityStateRecursive_unfold a r e :
  resetActivityStateRecursive a r e
  = resetChildren (children a) 0 r (resetActivityState r e).
Proof.
  destruct a as [id it cs l ro d sd]. simpl.
  generalize 0 as i. generalize (resetActivityState r e) as e1.
  induction cs as [|c cs IHcs]; intros e1 i; simpl; [done | apply IHcs].
Qed.

Lemma resetActivityState_keeps_initial r e q :
  stateOf e q = initializeActivityState →
  stateOf (resetActivityState r e) q = initializeActivityState.
Proof.
  intros Hq. unfold resetActivityState. rewrite stateOf_updState. by case_decide.
Qed.

Lemma resetActivityStateRecursive_keeps_initial a :
  ∀ r e q, stateOf e q = initializeActivityState →
           stateOf (resetActivityStateRecursive a r e) q = initializeActivityState.
Proof.
  induction a as [id it cs l ro d sd IH] using Activity_ind'.
  intros r e q Hq. rewrite resetActivityStateRecursive_unfold. simpl.
  apply (resetActivityState_keeps_initial r) in Hq.
  revert Hq. generalize (resetActivityState r e) as e1. generalize 0 as i.
  induction IH as [|c cs Hc _ IHcs]; intros i e1 He1; simpl; [done|].
  apply IHcs. by apply Hc.
Qed.

Lemma resetChildren_keeps_initial cs :
  ∀ i r e q, stateOf e q = initializeActivityState →
             stateOf (resetChildren cs i r e) q = initializeActivityState.
Proof.
  induction cs as [|c cs IHcs]; intros i r e q Hq; simpl; [done|].
  apply IHcs. by apply resetActivityStateRecursive_keeps_initial.
Qed.

Lemma resetActivityStateRecursive_inside a :
  ∀ r e path b,
    resolve a path = Some b →
    stateOf (resetActivityStateRecursive a r e) (rev path ++ r)%list
    = initializeActivityState.
Proof.
  induction a as [id it cs l ro d sd IH] using Activity_ind'.
  intros r e path b Hb. rewrite resetActivityStateRecursive_unfold. simpl children.
  destruct path as [|j rest].
  - simpl. apply resetChildren_keeps_initial.
    unfold resetActivityState. by rewrite stateOf_updState_eq.
  - simpl in Hb. destruct (cs !! j) as [c|] eqn:Hc; [|done].
    simpl. rewrite <- app_assoc. simpl.
    change j with (0 + j) at 1.
    revert j c Hc Hb. generalize (resetActivityState r e) as e1. generalize 0 as k.
    induction IH as [|c0 cs Hc0 _ IHcs]; intros k e1 j c Hc Hb; [done|].
    destruct j as [|j]; simpl.
    + simpl in Hc. injection Hc as ->. rewrite Nat.add_0_r.
      apply resetChildren_keeps_initial. by eapply Hc0.
    + replace (k + S j) with (S k + j) by lia. by eapply IHcs.
Qed.

Lemma resetActivityStateRecursive_outside a :
  ∀ r e q,
    (∀ path b, resolve a path = Some b → q ≠ (rev path ++ r)%list) →
    stateOf (resetActivityStateRecursive a r e) q = stateOf e q.
Proof.
  induction a as [id it cs l ro d sd IH] using Activity_ind'.
  intros r e q Hout. rewrite resetActivityStateRecursive_unfold. simpl children.
  assert (stateOf (resetActivityState r e) q = stateOf e q) as <-.
  { unfold resetActivityState. apply stateOf_updState_ne.
    intros ->. by apply (Hout [] (mkActivity id it cs l ro d sd)). }
  assert (∀ j c path b, cs !! j = Some c → resolve c path = Some b →
                        q ≠ (rev path ++ (0 + j) :: r)%list) as Hcs.
  { intros j c path b Hc Hb. simpl.
    replace (rev path ++ j :: r)%list with (rev (j :: path) ++ r)%list
      by (simpl; by rewrite <- app_assoc).
    apply (Hout (j :: path) b). simpl. by rewrite Hc. }
  clear Hout. revert Hcs. generalize (resetActivityState r e) as e1. generalize 0 as k.
  induction IH as [|c0 cs Hc0 _ IHcs]; intros k e1 Hcs; simpl; [done|].
  rewrite IHcs.
  - apply Hc0. intros path b Hb. specialize (Hcs 0 c0 path b eq_refl Hb).
    by rewrite Nat.add_0_r in Hcs.
  - intros j c path b Hc Hb. replace (S k + j) with (k + S j) by lia.
    by apply (Hcs (S j) c path b).
Qed.

(** X17: [resetAllActivityStates] (the rule action ["retryAll"]) puts every
    activity of the tree, the current and active one included, back into
    the state [initializeActivityState] gives; it changes neither the tree,
    nor the current activity, nor the end-of-session flag. *)
Theorem resetAllActivityStates_resets_the_tree e r :
  stateOf (resetAllActivityStates e) r
  = match deref (tree e) r with
    | Some _ => initializeActivityState
    | None => stateOf e r
    end
  ∧ stateOf (executeRuleAction "retryAll" r e) r = stateOf (resetAllActivityStates e) r
  ∧ same_frame e (resetAllActivityStates e)
  ∧ endSession (resetAllActivityStates e) = endSession e.
Proof.
  split; [|split; [done|]].
  - unfold resetAllActivityStates. destruct (deref (tree e) r) as [b|] eqn:Hb.
    + rewrite <- (app_nil_r r) at 1. rewrite <- (rev_involutive r) at 1.
      by apply (resetActivityStateRecursive_inside _ _ _ _ b).
    + apply resetActivityStateRecursive_outside. intros path b Hpath ->.
      unfold deref in Hb. rewrite app_nil_r, rev_involutive in Hb. congruence.
  - apply (resetActivityStateRecursive_pres
             (fun e' => same_frame e e' ∧ endSession e' = endSession e)); [|].
    + intros q f e' _ [Hf He]. by split.
    + split; [apply same_frame_refl | done].
Qed.

(** ** Rule actions without effect *)

(** X18: the rule actions ["disabled"], ["hiddenFromChoice"],
    ["stopForwardTraversal"] and ["exitParent"], and every action the
    engine does not know, have no effect: a rules check in which every rule
    carries an action other than ["skip"], ["exitAll"], ["retry"] and
    ["retryAll"] leaves the engine as it was. *)
Theorem rules_without_effect clk r event e :
  (∀ rules rule,
     sequencingDefinitionOf e r ≫= sequencingRules = Some rules →
     rule ∈ (default [] (preConditionRule rules)
             ++ default [] (exitConditionRule rules)
             ++ default [] (postConditionRule rules))%list →
     action rule ∉ ["skip"; "exitAll"; "retry"; "retryAll"]) →
  fst (sequencingRulesCheckProcess clk r event e) = e.
Proof.
  intros Hall. unfold sequencingRulesCheckProcess.
  destruct (sequencingDefinitionOf e r ≫= sequencingRules) as [rules|]; [|done].
  specialize (Hall rules).
  assert (∀ l clk',
    (∀ rule, rule ∈ l → action rule ∉ ["skip"; "exitAll"; "retry"; "retryAll"]) →
    fst (fold_left (checkRule r) l (e, clk')) = e) as Hfold.
  { induction l as [|rule l IHl]; intros clk' Hl; simpl; [done|].
    assert (executeRuleAction (action rule) r e = e) as Hact.
    { specialize (Hl rule (list_elem_of_here _ _)).
      unfold executeRuleAction.
      destruct (String.eqb_spec (action rule) "skip") as [Heq|_];
        [exfalso; apply Hl; rewrite Heq; set_solver|].
      destruct (String.eqb (action rule) "disabled"); [done|].
      destruct (String.eqb (action rule) "hiddenFromChoice"); [done|].
      destruct (String.eqb (action rule) "stopForwardTraversal"); [done|].
      destruct (String.eqb (action rule) "exitParent"); [done|].
      destruct (String.eqb_spec (action rule) "exitAll") as [Heq|_];
        [exfalso; apply Hl; rewrite Heq; set_solver|].
      destruct (String.eqb_spec (action rule) "retry") as [Heq|_];
        [exfalso; apply Hl; rewrite Heq; set_solver|].
      destruct (String.eqb_spec (action rule) "retryAll") as [Heq|_];
        [exfalso; apply Hl; rewrite Heq; set_solver|].
      done. }
    destruct (evaluateSequencingRule clk' e rule r) as [[] clk2]; rewrite ?Hact;
      apply IHl; intros; apply Hl; by apply list_elem_of_further. }
  apply Hfold. intros rule Hin. apply Hall; [done|].
  destruct event; rewrite !elem_of_app in *; tauto.
Qed.

(** ** The tree a manifest gives *)

Lemma buildActivityChild_children d it :
  children (buildActivityChild d it)
  = buildActivityChildren (default [] (item_item it)) (S d).
Proof. by destruct it as [id t ref vis [sub|] sq]. Qed.

Lemma buildActivityChild_resolve :
  ∀ path d it a,
    resolve (buildActivityChild d it) path = Some a →
    ∃ it', a = buildActivityChild (d + length path) it'.
Proof.
  induction path as [|i rest IH]; intros d it a Ha.
  - simpl in Ha. injection Ha as <-. exists it. by rewrite Nat.add_0_r.
  - cbn [resolve] in Ha. rewrite buildActivityChild_children in Ha.
    unfold buildActivityChildren in Ha. rewrite list_lookup_fmap in Ha.
    destruct (default [] (item_item it) !! i) as [it1|]; [|done].
    simpl in Ha. apply IH in Ha as [it' ->]. exists it'. f_equal. simpl. lia.
Qed.

(** X19: shape of the tree built from a manifest.  The depth of an
    activity is its distance from the root and only the root has
    [isRoot]; the root carries the identifier of the first organization, no
    item and no sequencing definition, and is flagged as a leaf; every
    other activity carries its item, the item's identifier and sequencing
    definition, is flagged as a leaf exactly when the item has no
    sub-items, and has one child per sub-item. *)
Theorem built_tree_structure m t r a :
  buildActivityTree m = Some t →
  deref t r = Some a →
  depth a = length r
  ∧ (isRoot a = true ↔ r = [])
  ∧ match r with
    | [] =>
        ∃ org, organizations m !! 0 = Some org
          ∧ identifier a = org_identifier org
          ∧ item a = None
          ∧ sequencingDefinition a = None
          ∧ isLeaf a = true
          ∧ children a = buildActivityChildren (items org) 1
    | _ :: _ =>
        ∃ it, item a = Some it
          ∧ identifier a = item_identifier it
          ∧ sequencingDefinition a = sequencing it
          ∧ isLeaf a = negb (has_items (item_item it))
          ∧ (isLeaf a = true ↔ children a = [])
          ∧ children a
            = buildActivityChildren (default [] (item_item it)) (S (length r))
    end.
Proof.
  intros Ht Ha. unfold buildActivityTree in Ht.
  destruct (organizations m) as [|org orgs] eqn:Horg; [done|].
  injection Ht as <-. unfold deref in Ha.
  destruct r as [|i p].
  - simpl in Ha. injection Ha as <-. simpl.
    split; [done|]. split; [done|]. exists org. by repeat split.
  - assert (length (rev (i :: p)) = S (length p)) as Hlen
      by (by rewrite length_rev).
    destruct (rev (i :: p)) as [|j rest]; [done|].
    simpl in Ha, Hlen. unfold buildActivityChildren in Ha.
    rewrite list_lookup_fmap in Ha.
    destruct (items org !! j) as [it1|]; [|done]. simpl in Ha.
    apply buildActivityChild_resolve in Ha as [it ->].
    replace (1 + length rest) with (S (length p)) by lia.
    split; [by destruct it|]. split; [by destruct it|].
    exists it. rewrite buildActivityChild_children.
    destruct it as [id t ref vis [[|s sub]|] sq]; simpl; by repeat split.
Qed.

Lemma built_tree_structure_witness :
  ∃ t a, buildActivityTree Examples.nestedCourse = Some t
    ∧ deref t [1; 0] = Some a
    ∧ depth a = 2.
Proof.
  assert (∃ t, buildActivityTree Examples.nestedCourse = Some t) as [t Ht]
    by by eexists.
  destruct (deref t [1; 0]) as [a|] eqn:Ha;
    [|vm_compute in Ht; injection Ht as <-; vm_compute in Ha; discriminate Ha].
  exists t, a. split; [exact Ht|]. split; [exact Ha|].
  exact (proj1 (built_tree_structure Examples.nestedCourse t [1; 0] a Ht Ha)).
Defined.

Lemma rules_without_effect_witness :
  ∃ e0, newEngine Examples.disabledCourse = Some e0
    ∧ fst (sequencingRulesCheckProcess Examples.clock0 [0] EntryEvent e0) = e0.
Proof.
  assert (∃ e0, newEngine Examples.disabledCourse = Some e0) as [e0 Hnew]
    by by eexists.
  exists e0. split; [exact Hnew|].
  apply rules_without_effect. intros rules rule Hrules Hin.
  vm_compute in Hnew. injection Hnew as <-.
  vm_compute in Hrules. injection Hrules as <-.
  apply list_elem_of_In in Hin. simpl in Hin. destruct Hin as [<- | []].
  intros Hact. apply list_elem_of_In in Hact. simpl in Hact.
  repeat (destruct Hact as [Hact | Hact]; [discriminate Hact|]). exact Hact.
Defined.

(** ** Walking the tree *)

Lemma siblings_distinctb_sound t : siblings_distinctb t = true → siblings_distinct t.
Proof.
  intros Ht r a. unfold deref. generalize (rev r) as path. clear r.
  intros path. revert t Ht. induction path as [|i rest IH]; intros t Ht Ha.
  - simpl in Ha. injection Ha as <-. destruct t. simpl in Ht.
    apply andb_prop in Ht as [Ht _]. by apply bool_decide_eq_true_1 in Ht.
  - simpl in Ha. destruct (children t !! i) as [c|] eqn:Hc; [|done].
    apply (IH c); [|done]. destruct t. simpl in Ht, Hc.
    apply andb_prop in Ht as [_ Ht]. rewrite forallb_elem_of in Ht.
    apply Ht. by eapply list_elem_of_lookup_2.
Qed.

Lemma deref_cons_inv t i (p : ActivityRef) c :
  deref t (i :: p) = Some c →
  ∃ pa, deref t p = Some pa ∧ children pa !! i = Some c.
Proof.
  rewrite deref_cons. destruct (deref t p) as [pa|]; [|done].
  simpl. intros Hc. by exists pa.
Qed.

Lemma siblingIndex_invalid e r : deref (tree e) r = None → siblingIndex e r = None.
Proof. intros Hr. unfold siblingIndex. rewrite Hr. by destruct (parent r). Qed.

Lemma siblingIndex_cons e i (p : ActivityRef) pa c :
  siblings_distinct (tree e) →
  deref (tree e) p = Some pa →
  children pa !! i = Some c →
  siblingIndex e (i :: p) = Some (p, length (children pa), Some i).
Proof.
  intros Hd Hpa Hc. unfold siblingIndex. simpl parent.
  rewrite deref_cons, Hpa. simpl. rewrite Hc.
  by rewrite (findIndex_NoDup _ i c (Hd p pa Hpa) Hc).
Qed.

Lemma getNextSibling_cons e i (p : ActivityRef) pa c :
  siblings_distinct (tree e) →
  deref (tree e) p = Some pa →
  children pa !! i = Some c →
  getNextSibling e (i :: p)
  = if Nat.eqb (S i) (length (children pa)) then None else Some (S i :: p).
Proof.
  intros Hd Hpa Hc. unfold getNextSibling.
  by rewrite (siblingIndex_cons e i p pa c Hd Hpa Hc).
Qed.

Lemma getPreviousSibling_cons e i (p : ActivityRef) pa c :
  siblings_distinct (tree e) →
  deref (tree e) p = Some pa →
  children pa !! i = Some c →
  getPreviousSibling e (i :: p)
  = match i with 0 => None | S j => Some (j :: p) end.
Proof.
  intros Hd Hpa Hc. unfold getPreviousSibling.
  by rewrite (siblingIndex_cons e i p pa c Hd Hpa Hc).
Qed.

Lemma getNextSibling_some e r s :
  siblings_distinct (tree e) →
  getNextSibling e r = Some s →
  ∃ i p pa c, r = i :: p ∧ s = S i :: p
    ∧ deref (tree e) p = Some pa ∧ children pa !! i = Some c
    ∧ S i < length (children pa).
Proof.
  intros Hd Hs. destruct r as [|i p]; [done|].
  destruct (deref (tree e) (i :: p)) as [c|] eqn:Hc.
  - apply deref_cons_inv in Hc as (pa & Hpa & Hc).
    rewrite (getNextSibling_cons e i p pa c Hd Hpa Hc) in Hs.
    destruct (Nat.eqb_spec (S i) (length (children pa))) as [|Hne]; [done|].
    injection Hs as <-. apply lookup_lt_Some in Hc as Hlt.
    exists i, p, pa, c. repeat split; try done. lia.
  - unfold getNextSibling in Hs. by rewrite (siblingIndex_invalid e _ Hc) in Hs.
Qed.

Lemma getPreviousSibling_some e r s :
  siblings_distinct (tree e) →
  getPreviousSibling e r = Some s →
  ∃ j p pa c, r = S j :: p ∧ s = j :: p
    ∧ deref (tree e) p = Some pa ∧ children pa !! S j = Some c.
Proof.
  intros Hd Hs. destruct r as [|i p]; [done|].
  destruct (deref (tree e) (i :: p)) as [c|] eqn:Hc.
  - apply deref_cons_inv in Hc as (pa & Hpa & Hc).
    rewrite (getPreviousSibling_cons e i p pa c Hd Hpa Hc) in Hs.
    destruct i as [|j]; [done|]. injection Hs as <-.
    by exists j, p, pa, c.
  - unfold getPreviousSibling in Hs. by rewrite (siblingIndex_invalid e _ Hc) in Hs.
Qed.

Lemma getLastDescendantIn_unfold a r :
  getLastDescendantIn a r
  = match list.last (children a) with
    | None => r
    | Some lastChild =>
        getLastDescendantIn lastChild (Nat.pred (length (children a)) :: r)
    end.
Proof.
  destruct a as [id it cs l ro d sd]. simpl.
  change (Nat.pred (length cs)) with (Nat.pred (0 + length cs)).
  generalize 0 as k. induction cs as [|c cs IHcs]; intros k; [done|].
  destruct cs as [|c' cs'].
  - simpl. by rewrite Nat.add_1_r.
  - rewrite IHcs. change (list.last (c :: c' :: cs')) with (list.last (c' :: cs')).
    destruct (list.last (c' :: cs')); [|done].
    do 2 f_equal. simpl. lia.
Qed.

Lemma last_steps_app a :
  ∀ p1 p2 b, resolve a p1 = Some b →
             (last_steps a (p1 ++ p2)%list ↔ last_steps a p1 ∧ last_steps b p2).
Proof.
  intros p1. revert a. induction p1 as [|j p1 IH]; intros a p2 b Hb.
  - simpl in Hb. injection Hb as <-. simpl. tauto.
  - simpl in Hb. simpl. destruct (children a !! j) as [c|]; [|done].
    rewrite (IH c p2 b Hb). tauto.
Qed.

Lemma last_steps_unique a :
  ∀ p1 p2 b1 b2,
    last_steps a p1 → resolve a p1 = Some b1 → children b1 = [] →
    last_steps a p2 → resolve a p2 = Some b2 → children b2 = [] →
    p1 = p2.
Proof.
  intros p1. revert a. induction p1 as [|j1 p1 IH];
    intros a [|j2 p2] b1 b2 Hs1 Hb1 Hn1 Hs2 Hb2 Hn2; [done| | |].
  - simpl in Hb1. injection Hb1 as <-. destruct Hs2 as [Hlen _].
    rewrite Hn1 in Hlen. done.
  - simpl in Hb2. injection Hb2 as <-. destruct Hs1 as [Hlen _].
    rewrite Hn2 in Hlen. done.
  - destruct Hs1 as [Hl1 Hs1], Hs2 as [Hl2 Hs2].
    assert (j1 = j2) as <- by lia. simpl in Hb1, Hb2.
    destruct (children a !! j1) as [c|]; [|done].
    f_equal. by apply (IH c p2 b1 b2).
Qed.

Lemma getLastDescendantIn_spec a :
  ∀ r, ∃ path b,
    getLastDescendantIn a r = (rev path ++ r)%list
    ∧ last_steps a path ∧ resolve a path = Some b ∧ children b = [].
Proof.
  induction a as [id it cs l ro d sd IH] using Activity_ind'. intros r.
  rewrite getLastDescendantIn_unfold. simpl children.
  destruct (list.last cs) as [c|] eqn:Hlast.
  - rewrite last_lookup in Hlast. apply lookup_lt_Some in Hlast as Hlt.
    rewrite Forall_lookup in IH.
    destruct (IH _ _ Hlast (Nat.pred (length cs) :: r))
      as (path & b & -> & Hsteps & Hb & Hnil).
    exists (Nat.pred (length cs) :: path), b. simpl. rewrite Hlast.
    split; [by rewrite <- app_assoc|]. split; [|done]. split; [lia | done].
  - apply last_None in Hlast as ->.
    by exists [], (mkActivity id it [] l ro d sd).
Qed.

(** X20: [getLastDescendant] of an activity of the tree returns an
    activity without children, at or below the one given and reached from
    it by taking the last child at every step; an activity without
    children is its own last descendant. *)
Theorem getLastDescendant_spec e r a :
  deref (tree e) r = Some a →
  (∃ path b,
     getLastDescendant e r = (rev path ++ r)%list
     ∧ last_steps a path
     ∧ deref (tree e) (getLastDescendant e r) = Some b
     ∧ children b = [])
  ∧ (children a = [] → getLastDescendant e r = r).
Proof.
  intros Ha. unfold getLastDescendant. rewrite Ha. split.
  - destruct (getLastDescendantIn_spec a r) as (path & b & Heq & Hsteps & Hb & Hnil).
    exists path, b. rewrite Heq. repeat split; try done.
    rewrite deref_app, Ha. simpl. by rewrite rev_involutive.
  - intros Hnil. rewrite getLastDescendantIn_unfold. by rewrite Hnil.
Qed.

Lemma getLastDescendant_spec_witness :
  ∃ e0, newEngine Examples.nestedCourse = Some e0
    ∧ ∃ path b, getLastDescendant e0 [] = (rev path ++ [])%list
        ∧ deref (tree e0) (getLastDescendant e0 []) = Some b
        ∧ children b = [].
Proof.
  assert (∃ e0, newEngine Examples.nestedCourse = Some e0) as [e0 Hnew] by by eexists.
  exists e0. split; [exact Hnew|].
  destruct (deref (tree e0) []) as [a|] eqn:Ha;
    [|vm_compute in Hnew; injection Hnew as <-; discriminate Ha].
  destruct (proj1 (getLastDescendant_spec e0 [] a Ha))
    as (path & b & Heq & _ & Hb & Hnil).
  by exists path, b.
Defined.

(** X21: where the children of every activity carry pairwise different
    identifiers, [getNextSibling] and [getPreviousSibling] are inverse to
    each other, they stay below the same parent, and the root has
    neither. *)
Theorem siblings_round_trip e r s :
  siblings_distinct (tree e) →
  (getNextSibling e r = Some s → getPreviousSibling e s = Some r ∧ parent s = parent r)
  ∧ (getPreviousSibling e r = Some s → getNextSibling e s = Some r ∧ parent s = parent r)
  ∧ getNextSibling e [] = None
  ∧ getPreviousSibling e [] = None.
Proof.
  intros Hd. split; [|split; [|done]].
  - intros (i & p & pa & c & -> & -> & Hpa & Hc & Hlt)%getNextSibling_some; [|done].
    split; [|done].
    destruct (lookup_lt_is_Some_2 (children pa) (S i) Hlt) as [c' Hc'].
    by rewrite (getPreviousSibling_cons e (S i) p pa c' Hd Hpa Hc').
  - intros (j & p & pa & c & -> & -> & Hpa & Hc)%getPreviousSibling_some; [|done].
    split; [|done].
    apply lookup_lt_Some in Hc as Hlt.
    destruct (lookup_lt_is_Some_2 (children pa) j) as [c' Hc']; [lia|].
    rewrite (getNextSibling_cons e j p pa c' Hd Hpa Hc').
    destruct (Nat.eqb_spec (S j) (length (children pa))); [lia | done].
Qed.

Lemma siblings_round_trip_witness :
  ∃ e0, newEngine Examples.nestedCourse = Some e0
    ∧ getNextSibling e0 [0; 0] = Some [1; 0]
    ∧ getPreviousSibling e0 [1; 0] = Some [0; 0].
Proof.
  assert (∃ e0, newEngine Examples.nestedCourse = Some e0) as [e0 Hnew] by by eexists.
  exists e0. split; [exact Hnew|].
  assert (siblings_distinct (tree e0)) as Hd.
  { apply siblings_distinctb_sound.
    vm_compute in Hnew. injection Hnew as <-. vm_compute. reflexivity. }
  assert (getNextSibling e0 [0; 0] = Some [1; 0]) as Hnext
    by (vm_compute in Hnew; injection Hnew as <-; vm_compute; reflexivity).
  split; [exact Hnext|].
  exact (proj1 (proj1 (siblings_round_trip e0 [0; 0] [1; 0] Hd) Hnext)).
Defined.

Lemma ancestorNextSibling_cons e k (q : ActivityRef) :
  ancestorNextSibling e (k :: q)
  = match getNextSibling e (k :: q) with
    | Some s => Some s
    | None => ancestorNextSibling e q
    end.
Proof. done. Qed.

(** The climb of [getNextActivityInTree]: the activity whose next sibling
    is returned is reached from the start through last children only. *)
Lemma ancestorNextSibling_some e :
  siblings_distinct (tree e) →
  ∀ q b s,
    deref (tree e) q = Some b →
    ancestorNextSibling e q = Some s →
    ∃ path j p pa anc,
      q = (rev path ++ j :: p)%list ∧ s = S j :: p
      ∧ deref (tree e) p = Some pa ∧ children pa !! j = Some anc
      ∧ S j < length (children pa)
      ∧ last_steps anc path ∧ resolve anc path = Some b.
Proof.
  intros Hd. induction q as [|k q IH]; intros b s Hb Hs; [done|].
  rewrite ancestorNextSibling_cons in Hs.
  destruct (getNextSibling e (k :: q)) as [s'|] eqn:Hnext.
  - injection Hs as ->.
    apply getNextSibling_some in Hnext as (i & p & pa & c & Heq & -> & Hpa & Hc & Hlt);
      [|done].
    injection Heq as -> ->.
    exists [], i, p, pa, c. simpl. repeat split; try done.
    rewrite deref_cons, Hpa in Hb. simpl in Hb. congruence.
  - apply deref_cons_inv in Hb as (qa & Hqa & Hk).
    destruct (IH qa s Hqa Hs)
      as (path & j & p & pa & anc & -> & -> & Hpa & Hanc & Hlt & Hsteps & Hres).
    exists (path ++ [k])%list, j, p, pa, anc.
    rewrite rev_app_distr. simpl. repeat split; try done.
    + apply (last_steps_app anc path [k] qa Hres). split; [done|]. simpl.
      rewrite Hk. split; [|done].
      rewrite (getNextSibling_cons e k _ qa b Hd Hqa Hk) in Hnext.
      by destruct (Nat.eqb_spec (S k) (length (children qa))).
    + rewrite resolve_app, Hres. simpl. by rewrite Hk.
Qed.

(** Below an activity, along last children, the climb finds what it finds
    from that activity. *)
Lemma ancestorNextSibling_last_steps e j (p : ActivityRef) anc :
  siblings_distinct (tree e) →
  deref (tree e) (j :: p) = Some anc →
  ∀ path b,
    last_steps anc path → resolve anc path = Some b →
    ancestorNextSibling e (rev path ++ j :: p)%list = ancestorNextSibling e (j :: p).
Proof.
  intros Hd Hanc. induction path as [|k path IH] using rev_ind; intros b Hsteps Hres.
  - done.
  - rewrite resolve_app in Hres.
    destruct (resolve anc path) as [b'|] eqn:Hb'; [|done]. simpl in Hres.
    destruct (children b' !! k) as [c|] eqn:Hk; [|done].
    apply (last_steps_app anc path [k] b' Hb') in Hsteps as [Hsteps [Hlen _]].
    rewrite rev_app_distr. cbn [rev app]. rewrite ancestorNextSibling_cons.
    assert (deref (tree e) (rev path ++ j :: p)%list = Some b') as Hderef
      by (rewrite deref_app, Hanc; simpl; by rewrite rev_involutive).
    rewrite (getNextSibling_cons e k _ b' c Hd Hderef Hk).
    rewrite Hlen, Nat.eqb_refl. by apply (IH b').
Qed.

(** X22: where the children of every activity carry pairwise different
    identifiers, the two directions of the tree traversal are inverse to
    each other: a backward step from the result of a forward step returns
    to the start, and a forward step from the result of a backward step
    from an activity of the tree returns to it. *)
Theorem tree_traversal_round_trip e r s :
  siblings_distinct (tree e) →
  (flowTreeTraversalSubprocess e r Forward = Some s →
   flowTreeTraversalSubprocess e s Backward = Some r)
  ∧ (is_Some (deref (tree e) r) →
     flowTreeTraversalSubprocess e r Backward = Some s →
     flowTreeTraversalSubprocess e s Forward = Some r).
Proof.
  intros Hd. simpl. split.
  - unfold getNextActivityInTree, getPreviousActivityInTree.
    destruct (deref (tree e) r) as [a|] eqn:Ha; [|done].
    destruct (children a) as [|c0 cs0] eqn:Hch.
    + destruct (getNextSibling e r) as [ns|] eqn:Hnext.
      * intros [= ->].
        apply getNextSibling_some in Hnext
          as (i & p & pa & c & -> & -> & Hpa & Hc & Hlt); [|done].
        destruct (lookup_lt_is_Some_2 (children pa) (S i) Hlt) as [c' Hc'].
        rewrite (getPreviousSibling_cons e (S i) p pa c' Hd Hpa Hc').
        unfold getLastDescendant. rewrite Ha, getLastDescendantIn_unfold.
        by rewrite Hch.
      * destruct r as [|k p]; [done|]. simpl parent. intros Hs.
        apply deref_cons_inv in Ha as (pa & Hpa & Hk).
        destruct (ancestorNextSibling_some e Hd p pa s Hpa Hs)
          as (path & j & p0 & pa0 & anc & -> & -> & Hpa0 & Hanc & Hlt & Hsteps & Hres).
        destruct (lookup_lt_is_Some_2 (children pa0) (S j) Hlt) as [c' Hc'].
        rewrite (getPreviousSibling_cons e (S j) p0 pa0 c' Hd Hpa0 Hc').
        unfold getLastDescendant. rewrite deref_cons, Hpa0. simpl. rewrite Hanc.
        destruct (getLastDescendantIn_spec anc (j :: p0))
          as (path' & b' & -> & Hsteps' & Hb' & Hnil').
        assert (path' = (path ++ [k])%list) as ->.
        { apply (last_steps_unique anc _ _ b' a); try done.
          - apply (last_steps_app anc path [k] pa Hres). split; [done|]. simpl.
            rewrite Hk. split; [|done].
            rewrite (getNextSibling_cons e k _ pa a Hd Hpa Hk) in Hnext.
            by destruct (Nat.eqb_spec (S k) (length (children pa))).
          - rewrite resolve_app, Hres. simpl. by rewrite Hk. }
        by rewrite rev_app_distr.
    + intros [= <-].
      by rewrite (getPreviousSibling_cons e 0 r a c0 Hd Ha
                    ltac:(by rewrite Hch)).
  - intros [a Ha]. unfold getPreviousActivityInTree.
    destruct (getPreviousSibling e r) as [ps|] eqn:Hprev.
    + intros [= <-].
      apply getPreviousSibling_some in Hprev
        as (j & p & pa & c & -> & -> & Hpa & Hc); [|done].
      apply lookup_lt_Some in Hc as Hlt.
      destruct (lookup_lt_is_Some_2 (children pa) j) as [cj Hcj]; [lia|].
      assert (deref (tree e) (j :: p) = Some cj) as Hderef
        by (rewrite deref_cons, Hpa; done).
      unfold getLastDescendant. rewrite Hderef.
      destruct (getLastDescendantIn_spec cj (j :: p))
        as (path & b & -> & Hsteps & Hb & Hnil).
      unfold getNextActivityInTree.
      assert (deref (tree e) (rev path ++ j :: p)%list = Some b) as ->
        by (rewrite deref_app, Hderef; simpl; by rewrite rev_involutive).
      rewrite Hnil.
      assert (ancestorNextSibling e (rev path ++ j :: p)%list = Some (S j :: p))
        as Hclimb.
      { rewrite (ancestorNextSibling_last_steps e j p cj Hd Hderef path b Hsteps Hb).
        rewrite ancestorNextSibling_cons.
        rewrite (getNextSibling_cons e j p pa cj Hd Hpa Hcj).
        destruct (Nat.eqb_spec (S j) (length (children pa))); [lia | done]. }
      destruct (rev path ++ j :: p)%list as [|k q] eqn:Heq.
      * by destruct (rev path).
      * rewrite ancestorNextSibling_cons in Hclimb. simpl parent.
        by destruct (getNextSibling e (k :: q)).
    + destruct r as [|i p]; [done|]. simpl parent. intros [= <-].
      apply deref_cons_inv in Ha as (pa & Hpa & Hi).
      rewrite (getPreviousSibling_cons e i p pa a Hd Hpa Hi) in Hprev.
      destruct i as [|i]; [|done].
      unfold getNextActivityInTree. rewrite Hpa.
      destruct (children pa); [done | done].
Qed.

Lemma tree_traversal_round_trip_witness :
  ∃ e0, newEngine Examples.nestedCourse = Some e0
    ∧ flowTreeTraversalSubprocess e0 [1; 0] Forward = Some [1]
    ∧ flowTreeTraversalSubprocess e0 [1] Backward = Some [1; 0].
Proof.
  assert (∃ e0, newEngine Examples.nestedCourse = Some e0) as [e0 Hnew] by by eexists.
  exists e0. split; [exact Hnew|].
  assert (siblings_distinct (tree e0)) as Hd.
  { apply siblings_distinctb_sound.
    vm_compute in Hnew. injection Hnew as <-. vm_compute. reflexivity. }
  assert (flowTreeTraversalSubprocess e0 [1; 0] Forward = Some [1]) as Hnext
    by (vm_compute in Hnew; injection Hnew as <-; vm_compute; reflexivity).
  split; [exact Hnext|].
  exact (proj1 (tree_traversal_round_trip e0 [1; 0] [1] Hd) Hnext).
Defined.


(** ** The root is never rolled up *)

Lemma executeRuleAction_root act r e :
  r ≠ [] →
  stateOf e [] = initializeActivityState →
  stateOf (executeRuleAction act r e) [] = initializeActivityState.
Proof.
  intros Hr He. unfold executeRuleAction, resetActivityState.
  destruct (String.eqb act "skip"); [by rewrite stateOf_updState_ne|].
  destruct (String.eqb act "disabled"); [done|].
  destruct (String.eqb act "hiddenFromChoice"); [done|].
  destruct (String.eqb act "stopForwardTraversal"); [done|].
  destruct (String.eqb act "exitParent"); [done|].
  destruct (String.eqb act "exitAll"); [done|].
  destruct (String.eqb act "retry"); [by rewrite stateOf_updState_ne|].
  destruct (String.eqb act "retryAll"); [|done].
  by apply resetActivityStateRecursive_keeps_initial.
Qed.

Lemma sequencingRulesCheckProcess_root clk r event e :
  r ≠ [] →
  stateOf e [] = initializeActivityState →
  stateOf (fst (sequencingRulesCheckProcess clk r event e)) []
  = initializeActivityState.
Proof.
  intros Hr. unfold sequencingRulesCheckProcess.
  destruct (sequencingDefinitionOf e r ≫= sequencingRules) as [rules|]; [|done].
  generalize (match event with
              | EntryEvent => default [] (preConditionRule rules)
              | ExitEvent =>
                  (default [] (exitConditionRule rules)
                   ++ default [] (postConditionRule rules))%list
              end) as l.
  intros l. revert e clk.
  induction l as [|rule l IHl]; intros e clk He; simpl; [done|].
  destruct (evaluateSequencingRule clk e rule r) as [[] clk1]; apply IHl; [|done].
  by apply executeRuleAction_root.
Qed.

Lemma terminationRequestProcess_root clk e cur :
  currentActivity (session e) = Some cur →
  cur ≠ [] →
  isLeaf (tree e) = true →
  stateOf e [] = initializeActivityState →
  stateOf (fst (terminationRequestProcess clk e)) [] = initializeActivityState.
Proof.
  intros Hcur Hne Hleaf He. unfold terminationRequestProcess. rewrite Hcur.
  pose proof (sequencingRulesCheckProcess_root clk cur ExitEvent
                (updState cur (set_activityIsActive false) e) Hne) as Hroot.
  pose proof (sequencingRulesCheckProcess_frame clk cur ExitEvent
                (updState cur (set_activityIsActive false) e)) as Hframe.
  destruct (sequencingRulesCheckProcess clk cur ExitEvent _) as [e1 clk1].
  simpl in Hroot, Hframe.
  rewrite rollupProcess_keeps.
  - apply Hroot. by rewrite stateOf_updState_ne.
  - right. intros a Ha. rewrite (same_frame_tree _ _ Hframe) in Ha.
    unfold deref in Ha. simpl in Ha. injection Ha as <-. exact Hleaf.
Qed.

Lemma overallSequencingProcess_root m clk fuel request targetId e :
  reachable m e →
  stateOf e [] = initializeActivityState →
  stateOf (snd (overallSequencingProcess clk fuel request targetId e)) []
  = initializeActivityState.
Proof.
  intros Hreach He.
  destruct (buildActivityTree_root m (tree e) (reachable_tree m e Hreach))
    as [Hleaf Hitem].
  unfold overallSequencingProcess. cbv zeta.
  destruct (negb (valid _)); [done|].
  assert (stateOf (fst (if bool_decide (is_Some (currentActivity
                                                  (session (set_endSession false e))))
                        then terminationRequestProcess clk (set_endSession false e)
                        else (set_endSession false e, clk))) []
          = initializeActivityState
          ∧ tree (fst (if bool_decide (is_Some (currentActivity
                                                  (session (set_endSession false e))))
                       then terminationRequestProcess clk (set_endSession false e)
                       else (set_endSession false e, clk))) = tree e) as Hterm.
  { destruct (currentActivity (session e)) as [cur|] eqn:Hcur.
    - destruct (reachable_current_leaf m e cur Hreach Hcur) as (i & p & a & -> & _).
      rewrite bool_decide_eq_true_2 by (simpl; by rewrite Hcur).
      split.
      + by apply (terminationRequestProcess_root clk (set_endSession false e) (i :: p)).
      + exact (same_frame_tree _ _
                 (terminationRequestProcess_frame clk (set_endSession false e))).
    - rewrite bool_decide_eq_false_2; [done|]. simpl. rewrite Hcur. by intros [? ?]. }
  destruct (if bool_decide _ then _ else _) as [e1 clk1]. simpl in Hterm.
  destruct Hterm as [He1 Ht1].
  pose proof (sequencingRequestProcess_state clk1 e1 fuel request targetId) as Hst.
  destruct (sequencingRequestProcess clk1 e1 fuel request targetId)
    as [[[sr|] e2] clk2]; simpl in Hst.
  - assert (stateOf e2 [] = initializeActivityState ∧ tree e2 = tree e) as [He2 Ht2]
      by (by destruct Hst as [-> | ->]).
    destruct (seq_valid sr), (seq_activity sr) as [a|]; simpl; try done.
    destruct (deliveryRequestProcess clk2 a e2) as [[[r|] e3] clk3] eqn:Hdel; simpl.
    + apply deliveryRequestProcess_delivered in Hdel as (_ & Hgate & Hentry).
      destruct (isActivityDeliverable_gate clk2 e2 a Hgate)
        as (b & ref & Hb & _ & Hitemb & _).
      assert (a ≠ []) as Hne.
      { intros ->. rewrite Ht2 in Hb. unfold deref in Hb. simpl in Hb.
        injection Hb as <-. by rewrite Hitem in Hitemb. }
      replace e3 with (fst (e3, clk3)) by done. rewrite Hentry.
      apply sequencingRulesCheckProcess_root; [done|].
      by rewrite stateOf_updState_ne.
    + by apply deliveryRequestProcess_refused in Hdel as ->.
  - simpl. by destruct Hst as [-> | ->].
Qed.

(** X23: in every reachable state the root activity is in its initial
    state: the root is flagged as a leaf and bound to no resource, so it is
    never delivered, never terminated and skipped by every rollup; the
    course as a whole is never reported complete or satisfied, whatever its
    activities report. *)
Theorem root_state_never_changes m e :
  reachable m e →
  stateOf e [] = initializeActivityState.
Proof.
  induction 1 as [e Hnew | clk fuel request targetId e Hreach IH].
  - by apply (newEngine_state m).
  - by apply (overallSequencingProcess_root m).
Qed.

Lemma root_state_never_changes_witness :
  ∃ e0, newEngine Examples.rollupCourse = Some e0
    ∧ let e1 := snd (overallSequencingProcess Examples.clock0 1 "choice" (Some "a") e0) in
      let e2 := snd (overallSequencingProcess Examples.clock0 1 "choice" (Some "b") e1) in
      let e3 := snd (overallSequencingProcess Examples.clock0 1 "exitAll" None e2) in
      isComplete e3 [0; 0] = true ∧ isComplete e3 [1; 0] = true
      ∧ isComplete e3 [0] = true
      ∧ stateOf e3 [] = initializeActivityState.
Proof.
  assert (∃ e0, newEngine Examples.rollupCourse = Some e0) as [e0 Hnew] by by eexists.
  exists e0. split; [exact Hnew|]. cbv zeta.
  split; [vm_compute in Hnew; injection Hnew as <-; vm_compute; reflexivity|].
  split; [vm_compute in Hnew; injection Hnew as <-; vm_compute; reflexivity|].
  split; [vm_compute in Hnew; injection Hnew as <-; vm_compute; reflexivity|].
  apply (root_state_never_changes Examples.rollupCourse).
  do 3 apply reachable_request. by apply reachable_new.
Defined.


(** ** A refused sibling *)

(** X24: inside a cluster whose children carry pairwise different
    identifiers, [continue] (and [abandon]) from a current leaf that
    permits flow, when the next sibling is a leaf the delivery gate
    refuses, once the current activity has been terminated, with the clock
    as termination left it and after any further readings, never returns:
    the flow leaves the refused sibling for the parent, which answers with
    the same sibling again, and the request exhausts the stack however deep
    it is. *)
Theorem continue_into_a_refused_sibling_never_returns
    clk fuel request targetId e i p pa c n :
  request = "continue" ∨ request = "abandon" →
  currentActivity (session e) = Some (i :: p) →
  deref (tree e) p = Some pa → isLeaf pa = false →
  NoDup (identifier <$> children pa) →
  children pa !! i = Some c → isLeaf c = true →
  children pa !! S i = Some n → isLeaf n = true →
  isContinueAllowed e (i :: p) = true →
  let terminated := terminationRequestProcess clk (set_endSession false e) in
  (∀ clk', later (snd terminated) clk' →
     fst (isActivityDeliverable clk' (fst terminated) (S i :: p)) = false) →
  fst (overallSequencingProcess clk fuel request targetId e) = StackOverflow.
Proof.
  intros Hreq Hcur Hpa Hpaleaf Hnd Hc Hcleaf Hn Hnleaf Hflow terminated Hgate.
  destruct (terminated_state clk e (i :: p) Hcur) as (He1 & Htree & Hcur1).
  fold terminated in He1, Htree, Hcur1.
  set (e1 := fst terminated) in *. set (clk1 := snd terminated) in *.
  assert (getNextChild e1 p = Some (S i :: p)) as Hnext.
  { unfold getNextChild.
    rewrite (currentIndex_distinct e1 i p pa c) by (by rewrite ?Htree).
    apply lookup_lt_Some in Hn.
    destruct (Nat.eqb_spec (S i) (length (children pa))); [lia | done]. }
  assert (∀ k clk', later clk1 clk' →
            fst (flowSubprocess clk' e1 k p false false) = StackOverflow
            ∧ fst (flowSubprocess clk' e1 k (S i :: p) true false) = StackOverflow)
    as Hloop.
  { induction k as [|k IHk]; intros clk' Hlater; [done|]. split.
    - rewrite (flowSubprocess_next_child clk' e1 _ p pa (S i :: p));
        [by apply IHk | by rewrite Htree | done | done].
    - rewrite (flowSubprocess_leaf_out clk' e1 _ (S i :: p) n p true false);
        [| by rewrite deref_cons, Htree, Hpa | done | intros _; by apply Hgate | done].
      apply IHk. apply (later_trans _ clk'); [done|].
      apply isActivityDeliverable_later. }
  assert (fst (flowSubprocess clk1 e1 fuel (i :: p) false false) = StackOverflow)
    as Hflowed.
  { destruct fuel as [|k]; [done|].
    rewrite (flowSubprocess_leaf_out clk1 e1 _ (i :: p) c p false false);
      [apply Hloop, later_now | by rewrite deref_cons, Htree, Hpa | done | done | done]. }
  rewrite overallSequencingProcess_valid.
  - fold terminated. rewrite He1.
    assert (fst (continueSequencingRequestProcess clk1 e1 fuel) = StackOverflow)
      as Hcont.
    { unfold continueSequencingRequestProcess. rewrite Hcur1.
      rewrite (proj1 (control_modes_follow_the_tree e e1 (i :: p) Htree)), Hflow.
      exact Hflowed. }
    assert (sequencingRequestProcess clk1 e1 fuel request targetId
            = identifiedBy (continueSequencingRequestProcess clk1 e1 fuel) e1) as ->.
    { destruct Hreq as [-> | ->];
        [apply sequencingRequestProcess_continue
        | apply sequencingRequestProcess_abandon]. }
    destruct (continueSequencingRequestProcess clk1 e1 fuel) as [[d|] clk2];
      [discriminate Hcont | done].
  - rewrite (navigationRequestProcess_current (set_endSession false e) _ _ eq_refl)
      by (destruct Hreq as [-> | ->]; auto).
    change (currentActivity (session (set_endSession false e)))
      with (currentActivity (session e)).
    rewrite Hcur. by rewrite bool_decide_eq_true_2.
Qed.

Lemma continue_into_a_refused_sibling_never_returns_witness :
  ∃ e0, newEngine Examples.blockedManifest = Some e0
    ∧ let eX := snd (overallSequencingProcess Examples.clock0 1 "choice" (Some "X") e0) in
      fst (overallSequencingProcess Examples.clock0 1000 "continue" None eX)
      = StackOverflow.
Proof.
  assert (∃ e0, newEngine Examples.blockedManifest = Some e0) as [e0 Hnew]
    by by eexists.
  exists e0. split; [exact Hnew|]. cbv zeta.
  vm_compute in Hnew. injection Hnew as <-.
  match goal with
  | |- fst (overallSequencingProcess _ _ _ _ ?x) = _ => set (eX := x)
  end.
  destruct (deref (tree eX) [0]) as [pa|] eqn:Hpa; [|vm_compute in Hpa; discriminate Hpa].
  destruct (children pa !! 0) as [c|] eqn:Hc;
    [|vm_compute in Hpa; injection Hpa as <-; vm_compute in Hc; discriminate Hc].
  destruct (children pa !! 1) as [n|] eqn:Hn;
    [|vm_compute in Hpa; injection Hpa as <-; vm_compute in Hn; discriminate Hn].
  refine (continue_into_a_refused_sibling_never_returns Examples.clock0 1000
            "continue" None eX 0 [0] pa c n (or_introl eq_refl) _ Hpa _ _ Hc _ Hn _ _ _).
  - vm_compute. reflexivity.
  - vm_compute in Hpa. injection Hpa as <-. reflexivity.
  - vm_compute in Hpa. injection Hpa as <-.
    apply (bool_decide_unpack _). vm_compute. exact I.
  - vm_compute in Hpa. injection Hpa as <-. vm_compute in Hc. injection Hc as <-.
    reflexivity.
  - vm_compute in Hpa. injection Hpa as <-. vm_compute in Hn. injection Hn as <-.
    reflexivity.
  - vm_compute. reflexivity.
  - intros clk' _. vm_compute. reflexivity.
Defined.

(** ** Choosing a cluster *)

(** X25: on an engine without current activity, a [choice] whose target
    is a cluster that permits choice flows into the cluster: when the
    first child of the target passes the delivery gate twice, in the
    evaluation the flow makes and in the one the delivery request process
    makes with the clock as the flow left it, that child is delivered, the
    request returns the child's identifier (not the one asked for) and the
    child is the current activity afterwards. *)
Theorem choice_of_a_cluster_delivers_its_first_child clk fuel e id t a c :
  currentActivity (session e) = None →
  id ≠ "" →
  findActivity e id = Some t →
  deref (tree e) t = Some a → isLeaf a = false →
  children a !! 0 = Some c → identifier c ≠ "" →
  isChoiceValid e t = true →
  let flowGate := isActivityDeliverable clk e (0 :: t) in
  fst flowGate = true →
  fst (isActivityDeliverable (snd flowGate) e (0 :: t)) = true →
  let res := processNavigationRequest clk (S (S fuel)) "choice" (Some id) e in
  fst res = Normal (Some (identifier c))
  ∧ currentActivity (session (snd res)) = Some (0 :: t).
Proof.
  intros Hidle Hid Hfind Ha Hleaf Hc Hidc Hchoice flowGate Hgate Hgate2. cbv zeta.
  assert (truthy_string (Some id) = true) as Htruthy.
  { simpl. by destruct (String.eqb_spec id ""). }
  set (e1 := set_endSession false e).
  assert (flowSubprocess clk e1 (S (S fuel)) t true false
          = (Normal (Some (0 :: t)), snd flowGate)) as Hflowed.
  { assert (flowSubprocess clk e1 (S (S fuel)) t true false
            = flowSubprocess clk e1 (S fuel) (0 :: t) true false) as ->.
    { cbn [flowSubprocess]. change (tree e1) with (tree e). rewrite Ha, Hleaf.
      simpl andb. cbv iota. simpl negb. cbv iota.
      unfold getFirstChild. change (tree e1) with (tree e). rewrite Ha.
      by destruct (children a). }
    by apply flowSubprocess_enter_leaf. }
  destruct (delivered_after clk (S (S fuel)) "choice" (Some id) e e1 clk
              (0 :: t) (snd flowGate)) as (Hres & Hcur & Htree).
  - rewrite navigationRequestProcess_choice by reflexivity. rewrite Htruthy.
    simpl default.
    change (findActivity (set_endSession false e) id) with (findActivity e id).
    rewrite Hfind.
    change (isChoiceValid (set_endSession false e) t) with (isChoiceValid e t).
    by rewrite Hchoice.
  - rewrite Hidle. by rewrite bool_decide_eq_false_2 by (by intros [? ?]).
  - rewrite sequencingRequestProcess_choice, Htruthy.
    unfold choiceSequencingRequestProcess. simpl default.
    change (findActivity e1 id) with (findActivity e id). rewrite Hfind.
    change (isChoiceValid e1 t) with (isChoiceValid e t).
    rewrite Hchoice. simpl negb. cbv iota. by rewrite Hflowed.
  - exact Hgate2.
  - unfold processNavigationRequest.
    destruct (overallSequencingProcess clk (S (S fuel)) "choice" (Some id) e)
      as [[d|] e3]; simpl in Hres, Hcur, Htree; [|done].
    injection Hres as ->. cbn [fst snd]. split; [|exact Hcur].
    rewrite (identifierOrNull_some _ (0 :: t) c); [done| |done].
    rewrite Htree. change (tree e1) with (tree e). by rewrite deref_cons, Ha.
Qed.

Lemma choice_of_a_cluster_delivers_its_first_child_witness :
  ∃ e0, newEngine Examples.nestedCourse = Some e0
    ∧ fst (processNavigationRequest Examples.clock0 2 "choice" (Some "M") e0)
      = Normal (Some "a").
Proof.
  assert (∃ e0, newEngine Examples.nestedCourse = Some e0) as [e0 Hnew] by by eexists.
  exists e0. split; [exact Hnew|].
  destruct (deref (tree e0) [0]) as [a|] eqn:Ha;
    [|vm_compute in Hnew; injection Hnew as <-; vm_compute in Ha; discriminate Ha].
  destruct (children a !! 0) as [c|] eqn:Hc;
    [|vm_compute in Hnew; injection Hnew as <-; vm_compute in Ha; injection Ha as <-;
      vm_compute in Hc; discriminate Hc].
  assert (identifier c = "a") as Hidc.
  { vm_compute in Hnew. injection Hnew as <-. vm_compute in Ha. injection Ha as <-.
    vm_compute in Hc. injection Hc as <-. reflexivity. }
  rewrite <- Hidc.
  refine (proj1 (choice_of_a_cluster_delivers_its_first_child Examples.clock0 0 e0
                   "M" [0] a c _ _ _ Ha _ Hc _ _ _ _)).
  - exact (newEngine_idle _ _ Hnew).
  - discriminate.
  - vm_compute in Hnew. injection Hnew as <-. reflexivity.
  - vm_compute in Hnew. injection Hnew as <-. vm_compute in Ha. injection Ha as <-.
    reflexivity.
  - rewrite Hidc. discriminate.
  - vm_compute in Hnew. injection Hnew as <-. reflexivity.
  - vm_compute in Hnew. injection Hnew as <-. reflexivity.
  - vm_compute in Hnew. injection Hnew as <-. reflexivity.
Defined.

(** ** The clock is read at every evaluation *)

(** X26: the delivery request process evaluates the delivery gate anew, at
    a later reading of the clock than the flow.  On root → [W], where W is
    admitted while it is not outside its time range, a [choice] of W made
    while the range closes between the first and the second reading of the
    clock is identified by the flow, which admits W at the first reading,
    and refused by the delivery request process, which finds W outside its
    range at the second: the request returns null and nothing is current
    afterwards.  On a clock that stays inside the range the same request
    delivers W. *)
Theorem delivery_gate_reads_the_clock_again :
  ∃ e0, newEngine Examples.windowCourse = Some e0
    ∧ findActivity e0 "W" = Some [0]
    ∧ isActivityDeliverable Examples.closingClock e0 [0]
      = (true, snd (newDate Examples.closingClock))
    ∧ fst (isActivityDeliverable (snd (newDate Examples.closingClock)) e0 [0]) = false
    ∧ fst (choiceSequencingRequestProcess Examples.closingClock e0 1 "W")
      = Normal (Some [0])
    ∧ (let res :=
         processNavigationRequest Examples.closingClock 1 "choice" (Some "W") e0 in
       fst res = Normal None ∧ getCurrentActivity (snd res) = None)
    ∧ (let res :=
         processNavigationRequest Examples.openClock 1 "choice" (Some "W") e0 in
       fst res = Normal (Some "W") ∧ getCurrentActivity (snd res) = Some "W").
Proof.
  eexists. split; [reflexivity|]. cbv zeta.
  split; [vm_compute; reflexivity|].
  split; [vm_compute; reflexivity|].
  split; [vm_compute; reflexivity|].
  split; [vm_compute; reflexivity|].
  split; split; vm_compute; reflexivity.
Qed.
